(** * h5pxblock: archive extraction to local disk and to a storage backend

    A shallow embedding of [h5pxblock/utils.py] and the properties its
    specification states about it.

    The module under study talks to collaborators that live outside of
    it: [os.path] (here the POSIX flavour, [posixpath]), [os] and
    [shutil] on the local file system, [zipfile], a Django storage
    backend, [logging] and [concurrent.futures.ThreadPoolExecutor]. Each
    of them is modelled next to the function that calls it, with the
    library routine it stands for named in the comment.

    Conventions of the embedding:
    - a Python function with effects is a function in the monad [M],
      which threads a state, collects the observable events of the run
      in order, and ends by returning or by raising;
    - the storage backend is an interface ([Storage]); the functions of
      the upload path are stated over any implementation of it, and a
      reference implementation ([KeyStore]) is given for the statements
      that speak about the content of the store;
    - the tasks of one executor take effect when its [with] block
      exits, in an order picked by a parameter [sched]; every statement
      holds for every such order. Storage calls are taken to be atomic;
    - a local path is the list of its components; symbolic links are
      not modelled. *)

From Stdlib Require Import ZArith Lia Ascii String.
From stdpp Require Import gmap strings list fin_maps pretty.

Local Open Scope list_scope.
Local Open Scope stdpp_scope.

(** ** Part 1. [posixpath] on strings *)

Module PosixPath.

Definition sep : ascii := "/"%char.

Definition is_sep (c : ascii) : bool := Ascii.eqb c sep.

(** [s.startswith("/")] *)
Definition startswith_sep (s : string) : bool :=
  match s with
  | String c _ => is_sep c
  | EmptyString => false
  end.

(** [s.endswith("/")] *)
Fixpoint endswith_sep (s : string) : bool :=
  match s with
  | EmptyString => false
  | String c EmptyString => is_sep c
  | String _ r => endswith_sep r
  end.

Definition is_empty (s : string) : bool :=
  match s with EmptyString => true | _ => false end.

(** [posixpath.join(a, b)], two-argument form:
<<
    if b.startswith(sep):            path = b
    elif not path or path.endswith(sep): path += b
    else:                            path += sep + b
>> *)
Definition join (a b : string) : string :=
  if startswith_sep b then b
  else if is_empty a || endswith_sep a then a +:+ b
  else a +:+ "/" +:+ b.

(** [p.rfind("/")]: index of the last separator, [-1] when there is none. *)
Fixpoint rfind_sep (p : string) : Z :=
  match p with
  | EmptyString => -1
  | String c r =>
      let i := rfind_sep r in
      if 0 <=? i then i + 1
      else if is_sep c then 0 else -1
  end%Z.

(** [p[i:]] for [0 <= i]. *)
Fixpoint drop_chars (n : nat) (p : string) : string :=
  match n, p with
  | O, _ => p
  | S n', String _ r => drop_chars n' r
  | S _, EmptyString => EmptyString
  end.

(** [posixpath.basename(p)]:
<<
    i = p.rfind(sep) + 1
    return p[i:]
>> *)
Definition basename (p : string) : string :=
  let i := (rfind_sep p + 1)%Z in
  drop_chars (Z.to_nat i) p.

(** [p.split("/")]: the pieces between separators, empty pieces kept. *)
Fixpoint split_sep (p : string) : list string :=
  match p with
  | EmptyString => [EmptyString]
  | String c r =>
      if is_sep c then EmptyString :: split_sep r
      else match split_sep r with
           | h :: t => String c h :: t
           | [] => [String c EmptyString]
           end
  end.

(** A single path component: non-empty and free of separators. *)
Fixpoint has_sep (s : string) : bool :=
  match s with
  | EmptyString => false
  | String c r => is_sep c || has_sep r
  end.

Definition is_component (s : string) : bool :=
  negb (is_empty s) && negb (has_sep s).

End PosixPath.

Import PosixPath.

(** [[x for x in p.split("/") if x]]: the components of a path, empty
    pieces (doubled, leading or trailing separators) dropped. *)
Definition components (p : string) : list string :=
  filter (λ c, c ≠ EmptyString) (split_sep p).

(** ** Part 2. Python values, exceptions and the effect monad *)

Abbreviation bytes := (list Byte.byte).

Inductive exn : Type :=
| ValueError (msg : string)
| KeyError (key : string)
| BadZipFile
| FileNotFoundError
| FileExistsError
| NotADirectoryError
| IsADirectoryError
| OSError
| StorageError (msg : string).

(** The values this module hands to [logging] as format arguments. *)
Inductive pyval : Type :=
| PNone
| PStr (s : string)
| PExn (e : exn).

Inductive level : Type := INFO | ERROR.

(** One call [log.info(fmt, *args)] or [log.error(fmt, *args)]; the
    format string is kept apart from its arguments, as [logging] does. *)
Record log_record : Type := LogRecord {
  lvl : level;
  fmt : string;
  args : list pyval
}.

(** How a run of a Python function ends: it returns, it raises, or the
    model's recursion budget ran out before it did either. *)
Inductive res (A : Type) : Type :=
| Ret (a : A)
| Raise (e : exn)
| OutOfFuel.
Arguments Ret {A} a.
Arguments Raise {A} e.
Arguments OutOfFuel {A}.

(** State [S], an append-only stream of observable events [E], and a
    result. *)
Definition M (S E A : Type) : Type := S → res A * S * list E.

Definition m_ret {S E A} (a : A) : M S E A := λ s, (Ret a, s, []).

Definition m_bind {S E A B} (f : A → M S E B) (m : M S E A) : M S E B :=
  λ s,
    match m s with
    | (Ret a, s1, t1) =>
        match f a s1 with
        | (r, s2, t2) => (r, s2, t1 ++ t2)
        end
    | (Raise e, s1, t1) => (Raise e, s1, t1)
    | (OutOfFuel, s1, t1) => (OutOfFuel, s1, t1)
    end.

#[global] Instance M_ret {S E} : MRet (M S E) := @m_ret S E.
#[global] Instance M_bind {S E} : MBind (M S E) := @m_bind S E.

Definition raise {S E A} (e : exn) : M S E A := λ s, (Raise e, s, []).
Definition out_of_fuel {S E A} : M S E A := λ s, (OutOfFuel, s, []).
Definition emit {S E} (e : E) : M S E unit := λ s, (Ret tt, s, [e]).

(** [for x in l: body(x)] *)
Fixpoint for_each {S E A} (l : list A) (body : A → M S E unit) : M S E unit :=
  match l with
  | [] => mret tt
  | x :: l' => body x ;; for_each l' body
  end.

(** The body of a [with] block: whatever it does, control reaches the
    block's exit; [finally_ body exit] runs [exit] and then lets the
    body's own result (return or exception) through. *)
Definition finally_ {S E A} (body : M S E A) (exit : M S E unit) : M S E A :=
  λ s,
    match body s with
    | (OutOfFuel, s1, t1) => (OutOfFuel, s1, t1)
    | (r, s1, t1) =>
        match exit s1 with
        | (Ret _, s2, t2) => (r, s2, t1 ++ t2)
        | (Raise e, s2, t2) => (Raise e, s2, t1 ++ t2)
        | (OutOfFuel, s2, t2) => (OutOfFuel, s2, t1 ++ t2)
        end
    end.

(** [holds I Q m]: from a state in [I], [m] ends in a state in [I],
    however it ends, and every event it emits satisfies [Q]. *)
Definition holds {S E A} (I : S → Prop) (Q : E → Prop) (m : M S E A) : Prop :=
  ∀ s r s' t, I s → m s = (r, s', t) → I s' ∧ Forall Q t.

(** ** Part 3. [zipfile] *)

(** A member of an archive: its name in the central directory and its
    decompressed payload. *)
Record zipinfo : Type := ZipInfo {
  filename : string;
  payload : bytes
}.

(** An uploaded file, as [zipfile] sees its bytes. They hold no
    end-of-central-directory record at all ([NotAZip]); or they hold
    one, which is all that [is_zipfile] looks for, but no central
    directory that [ZipFile] can read ([BrokenZip]: a damaged or
    truncated container, or other bytes that happen to end in such a
    record); or they hold a zip container, which [ZipFile] reads as
    the list of its members in directory order ([ZipArchive]). *)
Inductive upload : Type :=
| NotAZip (raw : bytes)
| BrokenZip (raw : bytes)
| ZipArchive (members : list zipinfo).

(** [package]: the uploaded file object, with its [.name]. *)
Record package : Type := Package {
  name : string;
  content : upload
}.

(** [zipfile.is_zipfile(package)]: whether an end-of-central-directory
    record is found. *)
Definition is_zipfile (p : package) : bool :=
  match content p with
  | ZipArchive _ | BrokenZip _ => true
  | NotAZip _ => false
  end.

(** [ZipFile(package, 'r')]: reads the central directory, and raises
    [BadZipFile] when there is none to read. *)
Definition ZipFile {S E} (p : package) : M S E (list zipinfo) :=
  match content p with
  | ZipArchive ms => mret ms
  | NotAZip _ | BrokenZip _ => raise BadZipFile
  end.

(** [ZipFile.namelist()] *)
Definition namelist (z : list zipinfo) : list string := filename <$> z.

(** [ZipFile.getinfo(name)]: [NameToInfo[name]]; the table is filled in
    directory order, so of two members with one name the later wins. *)
Definition getinfo (z : list zipinfo) (n : string) : option zipinfo :=
  last (filter (λ m, filename m = n) z).

(** [ZipFile.read(name)] *)
Definition zip_read {S E} (z : list zipinfo) (n : string) : M S E bytes :=
  match getinfo z n with
  | Some m => mret (payload m)
  | None => raise (KeyError n)
  end.

(** ** Part 4. Module-level configuration *)

(** [django.conf.settings], as far as this module reads it. *)
Record settings : Type := Settings {
  THREADPOOLEXECUTOR_MAX_WORKERS : option Z
}.

(** [MAX_WORKERS = getattr(settings, "THREADPOOLEXECUTOR_MAX_WORKERS", 10)] *)
Definition MAX_WORKERS (cfg : settings) : Z :=
  default 10%Z (THREADPOOLEXECUTOR_MAX_WORKERS cfg).

(** [str2bool] *)
Definition str2bool (val : string) : bool :=
  bool_decide (val ∈ ["True"; "true"; "1"]).

(** ** Part 5. The storage backend and the worker pool, as this module
    sees them *)

(** What [future.result()] gives once a task is over: the callable's
    return value, or the exception it raised. *)
Inductive outcome : Type :=
| Completed (v : pyval)
| Errored (e : exn).

(** The Django storage API this module calls. [exists] and [listdir] are
    called by the coordinating thread and answer directly; [delete] and
    [save] run inside pool tasks, where an exception is a task outcome.
    [delete] returns [None], [save] the name the content was stored
    under. *)
Class Storage (St : Type) : Type := {
  storage_exists : St → string → bool;
  storage_listdir : St → string → list string * list string;
  storage_delete : St → string → St * outcome;
  storage_save : St → string → bytes → St * outcome
}.

(** [ContentFile(data)]: a file object over [data]. *)
Definition ContentFile (data : bytes) : bytes := data.

(** The work items handed to [executor.submit]:
    [(storage.delete, file_path)] and [(storage.save, real_path, content)]. *)
Inductive call : Type :=
| Delete (key : string)
| Save (key : string) (content : bytes).

(** What an outside observer can see of a run, in program order of the
    coordinating thread. [Ran] stands for one pool task having run to
    its end on a worker thread; the tasks of one executor are listed
    where its [with] block exits, since that exit is the point by which
    all of them are over. *)
Inductive event : Type :=
| Logged (r : log_record)
| Exists (key : string) (found : bool)
| Listdir (key : string) (dirs files : list string)
| ExecutorEnter (max_workers : Z)
| Submit (c : call)
| Ran (c : call) (o : outcome)
| ExecutorExit.

(** [future_result_handler]:
<<
    try:    log.info("Future task completed: Result:[%s]", future.result())
    except BaseException as exp:
            log.error("Future completed with error %s", exp)
>> *)
Definition future_result_handler (future : outcome) : log_record :=
  match future with
  | Completed v => LogRecord INFO "Future task completed: Result:[%s]" [v]
  | Errored exp => LogRecord ERROR "Future completed with error %s" [PExn exp]
  end.

(** The basenames the upload loop refuses: the empty string, ["."] and [".."]. *)
Definition rejected_basenames : list string := [EmptyString; "."; ".."].

(** A write is well named when the basename of its key is none of
    the empty string, ["."], [".."]. *)
Definition well_named (c : call) : Prop :=
  match c with
  | Save key _ => basename key ∉ rejected_basenames
  | Delete _ => True
  end.

(** The two log records of a run on a valid archive: what the done
    callback logs for a task, and what the clean-up walk logs for a
    directory it clears. *)
Definition task_or_walk_log (r : log_record) : Prop :=
  (∃ o, r = future_result_handler o) ∨
  (∃ p, r = LogRecord INFO "%s path is being deleted on cloud" [PStr p]).

Section Cloud.
Context {St : Type} `{!Storage St}.

(** Module-level configuration, read once at import. *)
Variable cfg : settings.

(** The order in which the workers of one executor get to run its
    tasks. Any order is possible; the functions below are stated for
    an arbitrary one. *)
Variable sched : list call → list call.

(** The storage object, plus the work queue of the executor that is
    currently open. *)
Record cloud : Type := Cloud {
  store : St;
  pending : list call
}.

Definition log_info (f : string) (a : list pyval) : M cloud event unit :=
  emit (Logged (LogRecord INFO f a)).
Definition log_error (f : string) (a : list pyval) : M cloud event unit :=
  emit (Logged (LogRecord ERROR f a)).

(** [storage.exists(path)] *)
Definition exists_ (path : string) : M cloud event bool :=
  λ s, let b := storage_exists (store s) path in (Ret b, s, [Exists path b]).

(** [storage.listdir(path)] *)
Definition listdir (path : string) : M cloud event (list string * list string) :=
  λ s, let '(ds, fs) := storage_listdir (store s) path in
       (Ret (ds, fs), s, [Listdir path ds fs]).

(** What running one work item does to the storage. *)
Definition perform (c : call) (st : St) : St * outcome :=
  match c with
  | Delete key => storage_delete st key
  | Save key data => storage_save st key data
  end.

(** The workers run the given work items one after the other against
    the storage; after each, the done callback logs what came of it. *)
Fixpoint run_all (l : list call) (st : St) : St * list event :=
  match l with
  | [] => (st, [])
  | c :: l' =>
      let '(st1, o) := perform c st in
      let '(st2, t) := run_all l' st1 in
      (st2, Ran c o :: Logged (future_result_handler o) :: t)
  end.

(** [future = executor.submit(fn, *args);
     future.add_done_callback(future_result_handler)] *)
Definition submit (c : call) : M cloud event unit :=
  λ s, (Ret tt, Cloud (store s) (pending s ++ [c]), [Submit c]).

(** [executor.__exit__]: [shutdown(wait=True)], which returns when
    every submitted task is over. *)
Definition shutdown : M cloud event unit :=
  λ s, let '(st', t) := run_all (sched (pending s)) (store s) in
       (Ret tt, Cloud st' [], t ++ [ExecutorExit]).

(** [with concurrent.futures.ThreadPoolExecutor(max_workers=MAX_WORKERS)
     as executor: body]. The constructor raises [ValueError] when
    [max_workers <= 0]. *)
Definition with_executor (body : M cloud event unit) : M cloud event unit :=
  if (MAX_WORKERS cfg <=? 0)%Z
  then raise (ValueError "max_workers must be greater than 0")
  else emit (ExecutorEnter (MAX_WORKERS cfg)) ;; finally_ body shutdown.

(** [delete_existing_files_cloud(storage, path)]. The recursion follows
    the directory tree the storage reports, so it is bounded here by
    [fuel], the number of nested calls allowed. *)
Fixpoint delete_existing_files_cloud (fuel : nat) (path : string)
  : M cloud event unit :=
  match fuel with
  | O => out_of_fuel
  | S fuel' =>
      found ← exists_ path;
      if found : bool then
        log_info "%s path is being deleted on cloud" [PStr path] ;;
        '(dir_names, file_names) ← listdir path;
        with_executor
          (for_each file_names (λ file_name,
             let file_path := join path file_name in
             submit (Delete file_path))) ;;
        for_each dir_names (λ dir_name,
          let dir_path := join path dir_name in
          delete_existing_files_cloud fuel' dir_path)
      else mret tt
  end.

(** The body of the upload loop, for one [zipfile_name]. *)
Definition upload_entry (h5p_zip : list zipinfo) (path zipfile_name : string)
  : M cloud event unit :=
  let real_path := join path zipfile_name in
  if negb (bool_decide (basename real_path ∈ rejected_basenames)) then
    data ← zip_read h5p_zip zipfile_name;
    submit (Save real_path (ContentFile data))
  else mret tt.

(** [unpack_and_upload_on_cloud(package, storage, path)] *)
Definition unpack_and_upload_on_cloud (fuel : nat) (pkg : package) (path : string)
  : M cloud event unit :=
  if negb (is_zipfile pkg) then
    log_error "%s is not a valid zip" [PStr (name pkg)] ;;
    mret tt
  else
    delete_existing_files_cloud fuel path ;;
    h5p_zip ← ZipFile pkg;
    with_executor
      (for_each (namelist h5p_zip) (upload_entry h5p_zip path)).

(** Invariants of a run, for a property [G] of work items and a
    property [L] of log records: the executor's queue holds only
    items in [G]; only items in [G] are submitted or run, every
    executor has [MAX_WORKERS] workers, and only records in [L] are
    logged. *)
Definition good_state (G : call → Prop) (s : cloud) : Prop :=
  Forall G (pending s).

Definition good_event (G : call → Prop) (L : log_record → Prop) (e : event) : Prop :=
  match e with
  | Submit c | Ran c _ => G c
  | ExecutorEnter n => n = MAX_WORKERS cfg
  | Logged r => L r
  | _ => True
  end.

End Cloud.

(** The storage calls a trace holds: queries made by the coordinating
    thread, and tasks handed to or run by an executor. *)
Definition is_store_call (e : event) : bool :=
  match e with
  | Exists _ _ | Listdir _ _ _ | Submit _ | Ran _ _ => true
  | _ => false
  end.

(** The write tasks submitted in a trace, in submission order. *)
Definition submitted_saves (tr : list event) : list (string * bytes) :=
  omap (λ e, match e with
             | Submit (Save k d) => Some (k, d)
             | _ => None
             end) tr.

(** ** Part 6. A reference storage backend *)

(** Modelled from the spec: the backend store, which is not part of this
    repository (the module gets a Django storage object from its
    caller). The specification describes it as a key-value blob store
    over path keys with [exists], [listDirectory], [delete] and [save];
    this is such a store: a finite map from keys to blobs, a key being
    the list of the components of its slash-separated name. Directories
    are not stored: a directory exists as long as some key lies below
    it, and [listdir] reports the immediate children of a prefix. The
    backend may refuse to delete some keys ([locked]): [delete] raises
    for those and leaves the object in place. *)
Module KeyStore.

Record t : Type := Make {
  objects : gmap (list string) bytes;
  locked : gset (list string)
}.

Definition keys (s : t) : list (list string) := (map_to_list (objects s)).*1.

(** [strip_prefix p k = Some r] when [k = p ++ r]. *)
Fixpoint strip_prefix (p k : list string) : option (list string) :=
  match p, k with
  | [], _ => Some k
  | c :: p', c' :: k' => if decide (c = c') then strip_prefix p' k' else None
  | _ :: _, [] => None
  end.

Definition child_dir (r : list string) : option string :=
  match r with
  | c :: _ :: _ => Some c
  | _ => None
  end.

Definition child_file (r : list string) : option string :=
  match r with
  | [c] => Some c
  | _ => None
  end.

Definition exists_ (s : t) (path : string) : bool :=
  existsb (λ k, bool_decide (is_Some (strip_prefix (components path) k))) (keys s).

Definition listdir (s : t) (path : string) : list string * list string :=
  let below := omap (strip_prefix (components path)) (keys s) in
  (remove_dups (omap child_dir below), omap child_file below).

Definition delete (s : t) (key : string) : t * outcome :=
  let k := components key in
  if decide (k ∈ locked s)
  then (s, Errored (StorageError "delete refused"))
  else (Make (base.delete k (objects s)) (locked s), Completed PNone).

Definition save (s : t) (key : string) (data : bytes) : t * outcome :=
  (Make (<[components key := data]> (objects s)) (locked s), Completed (PStr key)).

#[global] Instance storage : Storage t := {
  storage_exists := exists_;
  storage_listdir := listdir;
  storage_delete := delete;
  storage_save := save
}.

(** The keys a store can hold after any sequence of [save]s: every
    component is a proper file name. *)
Definition wf (s : t) : Prop :=
  ∀ k, is_Some (objects s !! k) → Forall (λ c, is_component c = true) k.

(** [of_list l]: the store holding the given named blobs. *)
Definition of_list (l : list (string * bytes)) : t :=
  Make (list_to_map (prod_map components id <$> l)) ∅.

(** [le_store s' s]: [s'] holds no key that [s] does not hold, and
    refuses the same deletions. *)
Definition le_store (s' s : t) : Prop :=
  locked s' = locked s ∧ ∀ k, is_Some (objects s' !! k) → is_Some (objects s !! k).

(** [deep n p st]: no key of [st] reaches more than [n] levels below
    [p]. *)
Definition deep (n : nat) (p : list string) (st : t) : Prop :=
  ∀ r, is_Some (objects st !! (p ++ r)) → length r ≤ n.

(** [below path k]: the key [k] lies strictly below the prefix [path]. *)
Definition below (path : string) (k : list string) : Prop :=
  ∃ r, r ≠ [] ∧ k = components path ++ r.

End KeyStore.

(** What one call of the clean-up walk achieves at [path] on the
    reference backend: it returns, leaves no executor open, adds no key,
    and clears every key below [path] whose deletion the backend
    accepts. *)
Definition walk_clears (cfg : settings) (sched : list call → list call)
    (fuel : nat) (path : string) (s : @cloud KeyStore.t) : Prop :=
  ∃ s' tr,
    delete_existing_files_cloud cfg sched fuel path s = (Ret tt, s', tr) ∧
    pending s' = [] ∧
    KeyStore.le_store (store s') (store s) ∧
    ∀ r, r ≠ [] → components path ++ r ∉ KeyStore.locked (store s) →
         KeyStore.objects (store s') !! (components path ++ r) = None.

(** ** Part 7. The local file system

    A directory tree; a path is the list of its components from the
    root, the way the kernel resolves it. *)

#[warnings="-register-all"]
Inductive node : Type :=
| File (data : bytes)
| Dir (children : gmap string node).

Module LocalFS.

Definition empty_dir : node := Dir ∅.

(** Resolve [p] from [n]. *)
Fixpoint lookup_path (n : node) (p : list string) : option node :=
  match p with
  | [] => Some n
  | c :: p' =>
      match n with
      | Dir m => m !! c ≫= λ n', lookup_path n' p'
      | File _ => None
      end
  end.

(** Replace ([Some]) or unlink ([None]) the entry at [p]; the parent of
    [p] has to be a directory, and the root itself is never replaced. *)
Fixpoint set_at (p : list string) (v : option node) (n : node) : node :=
  match p with
  | [] => n
  | c :: p' =>
      match n with
      | File _ => n
      | Dir m =>
          match p' with
          | [] => Dir (match v with
                       | Some x => <[c := x]> m
                       | None => delete c m
                       end)
          | _ :: _ => Dir (alter (set_at p' v) c m)
          end
      end
  end.

(** [os.path.dirname], on components. *)
Definition dirname (p : list string) : list string := removelast p.

Abbreviation IO := (M node log_record).

(** [os.path.exists(p)] *)
Definition path_exists (p : list string) : IO bool :=
  λ root, (Ret (bool_decide (is_Some (lookup_path root p))), root, []).

(** [os.path.isdir(p)] *)
Definition isdir (p : list string) : IO bool :=
  λ root, (Ret (match lookup_path root p with
                | Some (Dir _) => true
                | _ => false
                end), root, []).

(** [shutil.rmtree(p)]: [p] has to be a directory; it goes with all
    that is below it. The root directory can be emptied but not
    removed. *)
Definition rmtree (p : list string) : IO unit :=
  λ root,
    match lookup_path root p with
    | None => (Raise FileNotFoundError, root, [])
    | Some (File _) => (Raise NotADirectoryError, root, [])
    | Some (Dir _) =>
        match p with
        | [] => (Raise OSError, empty_dir, [])
        | _ :: _ => (Ret tt, set_at p None root, [])
        end
    end.

(** [os.mkdir(p)] *)
Definition mkdir (p : list string) : IO unit :=
  λ root,
    match p with
    | [] => (Raise FileExistsError, root, [])
    | _ :: _ =>
        match lookup_path root (dirname p) with
        | None => (Raise FileNotFoundError, root, [])
        | Some (File _) => (Raise NotADirectoryError, root, [])
        | Some (Dir _) =>
            match lookup_path root p with
            | Some _ => (Raise FileExistsError, root, [])
            | None => (Ret tt, set_at p (Some empty_dir) root, [])
            end
        end
    end.

(** [try: m except FileExistsError: pass] *)
Definition ignore_file_exists (m : IO unit) : IO unit :=
  λ root,
    match m root with
    | (Raise FileExistsError, root', t) => (Ret tt, root', t)
    | r => r
    end.

(** [try: mkdir(name) except OSError:
           if not exist_ok or not path.isdir(name): raise] *)
Definition mkdir_exist_ok (name : list string) (exist_ok : bool) : IO unit :=
  λ root,
    match mkdir name root with
    | (Raise e, root', t) =>
        if negb exist_ok
        then (Raise e, root', t)
        else match lookup_path root' name with
             | Some (Dir _) => (Ret tt, root', t)
             | _ => (Raise e, root', t)
             end
    | r => r
    end.

(** [os.makedirs(name, exist_ok)]:
<<
    head, tail = path.split(name)
    if head and tail and not path.exists(head):
        try: makedirs(head, exist_ok=exist_ok)
        except FileExistsError: pass
    try: mkdir(name)
    except OSError:
        if not exist_ok or not path.isdir(name): raise
>>
    [n] counts the components of [name] that are left to split off. *)
Fixpoint makedirs_upto (n : nat) (name : list string) (exist_ok : bool) : IO unit :=
  let head := dirname name in
  (match n with
   | O => mret tt
   | S n' =>
       there ← path_exists head;
       if negb there then ignore_file_exists (makedirs_upto n' head exist_ok)
       else mret tt
   end) ;;
  mkdir_exist_ok name exist_ok.

Definition makedirs (name : list string) (exist_ok : bool) : IO unit :=
  makedirs_upto (length name) name exist_ok.

(** [open(p, "wb").write(data)] *)
Definition write_file (p : list string) (data : bytes) : IO unit :=
  λ root,
    match p with
    | [] => (Raise IsADirectoryError, root, [])
    | _ :: _ =>
        match lookup_path root (dirname p) with
        | None => (Raise FileNotFoundError, root, [])
        | Some (File _) => (Raise NotADirectoryError, root, [])
        | Some (Dir _) =>
            match lookup_path root p with
            | Some (Dir _) => (Raise IsADirectoryError, root, [])
            | _ => (Ret tt, set_at p (Some (File data)) root, [])
            end
        end
    end.

(** The part of [ZipFile._extract_member] that builds the target
    below the destination: the member's name split at ["/"], with
    empty, ["."] and [".."] pieces dropped. *)
Definition invalid_path_parts : list string := [EmptyString; "."; ".."].

Definition arcname (m : zipinfo) : list string :=
  filter (λ x, x ∉ invalid_path_parts) (split_sep (filename m)).

(** [ZipInfo.is_dir()]: the name ends with a slash. *)
Definition is_dir (m : zipinfo) : bool := endswith_sep (filename m).

(** [ZipFile._extract_member(member, targetpath, pwd)] *)
Definition extract_member (m : zipinfo) (path : list string) : IO unit :=
  let targetpath := path ++ arcname m in
  let upperdirs := dirname targetpath in
  (there ← path_exists upperdirs;
   if negb there then makedirs upperdirs false else mret tt) ;;
  if is_dir m then
    d ← isdir targetpath;
    if negb d then mkdir targetpath else mret tt
  else
    write_file targetpath (payload m).

(** [ZipFile.extractall(path)]:
    [for zipinfo in self.namelist(): self._extract_member(zipinfo, path, pwd)],
    where a name is first looked up with [getinfo]. *)
Definition extractall (z : list zipinfo) (path : list string) : IO unit :=
  for_each (namelist z) (λ n,
    match getinfo z n with
    | Some m => extract_member m path
    | None => raise (KeyError n)
    end).

(** [delete_path(path)] *)
Definition delete_path (path : list string) : IO unit :=
  there ← path_exists path;
  if there : bool then rmtree path else mret tt.

(** [unpack_package_local_path(package, path)] *)
Definition unpack_package_local_path (pkg : package) (path : list string) : IO unit :=
  delete_path path ;;
  makedirs path false ;;
  if negb (is_zipfile pkg) then
    emit (LogRecord ERROR "%s is not a valid zip" [PStr (name pkg)]) ;;
    mret tt
  else
    h5p_zip ← ZipFile pkg;
    emit (LogRecord INFO "Extracting all the files now from %s" [PStr (name pkg)]) ;;
    extractall h5p_zip path.

(** [sim p mf mr]: run on a tree whose entry at [p] is a directory,
    [mf] does to that directory what [mr] does to a root directory
    with the same content, ends the same way and logs the same. *)
Definition sim {A} (p : list string) (mf mr : IO A) : Prop :=
  ∀ fs m, lookup_path fs p = Some (Dir m) →
    ∃ r fs' t m',
      mf fs = (r, fs', t) ∧ mr (Dir m) = (r, Dir m', t) ∧
      lookup_path fs' p = Some (Dir m').

(** [files_from z n]: every file in the tree [n] is a member of the
    archive [z], stored at the member's sanitized name with the
    member's bytes. *)
Definition files_from (z : list zipinfo) (n : node) : Prop :=
  ∀ q data, lookup_path n q = Some (File data) →
            ∃ m, m ∈ z ∧ arcname m = q ∧ payload m = data.

(** [no_file_on p fs]: walking down to [p] never runs into a regular
    file, so [p] is a directory or can be made one. *)
Definition no_file_on (p : list string) (fs : node) : Prop :=
  ∀ q data, q `prefix_of` p → lookup_path fs q ≠ Some (File data).

(** What extracting [z] into a fresh, empty directory leaves there. *)
Definition extracted (z : list zipinfo) : res unit * node :=
  (extractall z [] empty_dir).1.

End LocalFS.

(** ** Part 8. [ThreadPoolExecutor] as a transition system

    The executor of [concurrent.futures.thread], at the grain of its
    threads. [submit] puts the work item on the queue and may start one
    more worker thread, which it only does while fewer than
    [max_workers] have been started; every worker thread repeatedly
    takes one item off the queue and runs it to its end. [todo] holds
    the submissions the coordinating thread has yet to make, [workers]
    has one slot per started thread, holding the item the thread is
    running, if any. *)

Module Pool.

Record t : Type := Make {
  max_workers : nat;
  todo : list call;
  queue : list call;
  workers : list (option call);
  finished : list call
}.

Definition init (n : nat) (tasks : list call) : t := Make n tasks [] [] [].

Inductive step : t → t → Prop :=
| step_submit n c rest q ws fin (spawn : bool) :
    (spawn = true → length ws < n) →
    step (Make n (c :: rest) q ws fin)
         (Make n rest (q ++ [c]) (if spawn then ws ++ [None] else ws) fin)
| step_start n td c q ws fin i :
    ws !! i = Some None →
    step (Make n td (c :: q) ws fin)
         (Make n td q (<[i := Some c]> ws) fin)
| step_finish n td q ws fin i c :
    ws !! i = Some (Some c) →
    step (Make n td q ws fin)
         (Make n td q (<[i := None]> ws) (fin ++ [c])).

(** The tasks some worker is running right now. *)
Definition running (p : t) : list call := omap id (workers p).

Definition in_flight (p : t) : nat := length (running p).

Definition reachable (p0 p : t) : Prop := rtc step p0 p.

(** Every task the pool knows of, wherever it is on its way. *)
Definition all_tasks (p : t) : list call :=
  todo p ++ queue p ++ running p ++ finished p.

End Pool.

(** The calls submitted to the executor in a trace. *)
Definition submitted (tr : list event) : list call :=
  omap (λ e, match e with Submit c => Some c | _ => None end) tr.

Definition is_save (c : call) : bool :=
  match c with Save _ _ => true | Delete _ => false end.

(** The tasks that ran in a trace. *)
Definition ran (tr : list event) : list call :=
  omap (λ e, match e with Ran c _ => Some c | _ => None end) tr.

(** The bytes [ZipFile.read(n)] returns for a name of the archive. *)
Definition entry_bytes (z : list zipinfo) (n : string) : bytes :=
  default [] (payload <$> getinfo z n).

(** PathSanitizer, as the specification words it: an entry is kept
    unless the basename of its path is empty, ["."] or [".."]. *)
Definition survives (entry : string) : bool :=
  negb (bool_decide (basename entry ∈ [EmptyString; "."; ".."])).

(** [rewritten z path k]: some surviving entry of the archive [z] is
    written under the key [k]. *)
Definition rewritten (z : list zipinfo) (path : string) (k : list string) : Prop :=
  ∃ e, e ∈ namelist z ∧ survives e = true ∧ components (join path e) = k.

(** The write tasks the specification expects for the names [l] of the
    archive [z]: one per surviving name, in order, carrying the bytes
    read for that name. *)
Definition upload_calls (z : list zipinfo) (path : string) (l : list string) : list call :=
  (λ n, Save (join path n) (entry_bytes z n)) <$> filter (λ n, survives n = true) l.

(** ** Part 9. Sample inputs *)

Module Samples.

Definition b (s : string) : bytes := String.list_byte_of_string s.

(** The module as shipped: no [THREADPOOLEXECUTOR_MAX_WORKERS] setting. *)
Definition default_settings : settings := Settings None.

(** Workers that get to the tasks in submission order. *)
Definition fifo (l : list call) : list call := l.

(** The archive of the specification's path-traversal scenario. *)
Definition evil_entries : list zipinfo :=
  [ZipInfo "index.html" (b "<html/>");
   ZipInfo "../evil.js" (b "alert(1)");
   ZipInfo "assets/x.png" (b "PNG")].

Definition evil_pkg : package := Package "evil.h5p" (ZipArchive evil_entries).

(** An archive with a directory entry, a dot entry and two files. *)
Definition plain_entries : list zipinfo :=
  [ZipInfo "h5p.json" (b "{}");
   ZipInfo "content/" [];
   ZipInfo "content/." [];
   ZipInfo "content/a.js" (b "a")].

Definition plain_pkg : package := Package "plain.h5p" (ZipArchive plain_entries).

(** An archive that extracts cleanly: a file, a directory entry and
    a file below it. *)
Definition site_entries : list zipinfo :=
  [ZipInfo "index.html" (b "<html/>");
   ZipInfo "assets/" [];
   ZipInfo "assets/x.png" (b "PNG")].

Definition site_pkg : package := Package "site.h5p" (ZipArchive site_entries).

Definition other_entries : list zipinfo :=
  [ZipInfo "index.html" (b "<p/>")].

Definition other_pkg : package := Package "other.h5p" (ZipArchive other_entries).

(** A second site: another [index.html], and a style sheet in a
    directory of its own. *)
Definition second_entries : list zipinfo :=
  [ZipInfo "index.html" (b "<p/>");
   ZipInfo "css/" [];
   ZipInfo "css/a.css" (b "a{}")].

Definition second_pkg : package := Package "second.h5p" (ZipArchive second_entries).

Definition text_pkg : package := Package "notes.txt" (NotAZip (b "not a zip")).

(** Text that ends in an end-of-central-directory record: [is_zipfile]
    accepts it, [ZipFile] does not. *)
Definition broken_pkg : package :=
  Package "broken.h5p" (BrokenZip (b "not a zip, PK56 and eighteen zero bytes")).

(** [n] entries named ["0"], ["1"], ... *)
Definition numbered_entries (n : nat) : list zipinfo :=
  (λ i, ZipInfo (pretty i) (b "x")) <$> seq 0 n.

Definition big_pkg : package := Package "big.h5p" (ZipArchive (numbered_entries 100)).

(** A store with an earlier extraction below ["h5p"], two levels deep,
    and an unrelated object. *)
Definition old_store : KeyStore.t :=
  KeyStore.of_list
    [("h5p/old.json", b "old"); ("h5p/content/a.js", b "a0");
     ("h5p/content/img/x.png", b "x0"); ("elsewhere/keep", b "keep")].

(** The same kind of store, with one object the backend refuses to
    delete. *)
Definition locked_store : KeyStore.t :=
  KeyStore.Make (KeyStore.objects (KeyStore.of_list [("h5p/old.js", b "old")]))
                {[ ["h5p"; "old.js"] ]}.

(** A local tree: [/srv/h5p] holds an earlier extraction, [/srv/file]
    is a regular file. *)
Definition local_tree : node :=
  Dir {[ "srv" := Dir {[ "h5p" := Dir {[ "old.json" := File (b "old") ]};
                          "file" := File (b "f") ]} ]}.

End Samples.

(** ** Part 10. More vocabulary for traces *)

(** The tasks a trace shows, submitted or run. *)
Definition tasks_of (tr : list event) : list call := submitted tr ++ ran tr.

(** [listed_deletes tr]: every task the trace shows is the deletion of
    [join(p, f)] for a file name [f] that a [listdir(p)] of the same
    trace reported. *)
Definition listed_deletes (tr : list event) : Prop :=
  ∀ c, c ∈ tasks_of tr →
    ∃ p ds fs f, Listdir p ds fs ∈ tr ∧ f ∈ fs ∧ c = Delete (join p f).

(** The key a task works on. *)
Definition key_of (c : call) : string :=
  match c with
  | Delete key | Save key _ => key
  end.

(** The records a trace shows logged, and the outcomes of the tasks it
    shows run, both in order. *)
Definition logged (tr : list event) : list log_record :=
  omap (λ e, match e with Logged r => Some r | _ => None end) tr.

Definition outcomes (tr : list event) : list outcome :=
  omap (λ e, match e with Ran _ o => Some o | _ => None end) tr.

(** The record the clean-up walk logs for a directory it clears. *)
Definition is_walk_record (r : log_record) : bool :=
  bool_decide (fmt r = "%s path is being deleted on cloud").

(** [all_tasks_reported tr]: the tasks run are the tasks submitted, each
    once, and apart from the walk's own records the log holds, in the
    order the tasks ended, what [future_result_handler] logs for each
    outcome. *)
Definition all_tasks_reported (tr : list event) : Prop :=
  ran tr ≡ₚ submitted tr ∧
  filter (λ r, is_walk_record r = false) (logged tr) =
  future_result_handler <$> outcomes tr.

(** ** Part 11. Choosing the storage backend *)

(** A value found in the settings, as far as [get_h5p_storage] tells
    values apart: [None], a string, a dict from names to values of
    some type [V], or any other object (a bool, a number, a list, a
    tuple, ...). Of such an object only its truth value matters here:
    it is no string to import, it has no [get], and it cannot be
    unpacked into keyword arguments. *)
Inductive cfgval (V : Type) : Type :=
| CNone
| CStr (s : string)
| CDict (d : gmap string V)
| COther (truth : bool).
Arguments CNone {V}.
Arguments CStr {V} s.
Arguments CDict {V} d.
Arguments COther {V} truth.

(** Python's truth value: [None], the empty string and the empty dict
    are false; so are [False], [0], the empty list and the like. *)
Definition truthy {V} (v : cfgval V) : bool :=
  match v with
  | CNone => false
  | CStr s => negb (is_empty s)
  | CDict d => negb (bool_decide (size d = 0))
  | COther truth => truth
  end.

(** [a or b] *)
Definition py_or {V} (a b : cfgval V) : cfgval V :=
  if truthy a then a else b.

(** [d.get(key)] *)
Definition dict_get {V} (d : gmap string (cfgval V)) (key : string) : cfgval V :=
  default CNone (d !! key).

(** [settings.STORAGES], when it is set: a dict, of which only the
    aliases matter here, or something that is not a dict. *)
Inductive storages_setting : Type :=
| StoragesDict (aliases : gset string)
| StoragesOther.

(** [django.conf.settings], as far as [get_h5p_storage] reads it. Either
    attribute may be missing; [H5PXBLOCK_STORAGE], when set, holds any
    value: the dict the function is written for, whose values are
    values again, or [None], a string or another object. *)
Record storage_conf (V : Type) : Type := StorageConf {
  STORAGES : option storages_setting;
  H5PXBLOCK_STORAGE : option (cfgval (cfgval V))
}.
Arguments StorageConf {V} _ _.
Arguments STORAGES {V} _.
Arguments H5PXBLOCK_STORAGE {V} _.

(** What [get_h5p_storage] comes to: the registry entry
    [storages[alias]], the class [import_string(path)] called with
    [kwargs] as its keyword arguments, Django's [default_storage], or
    an exception because a value has the wrong type ([get] on a
    legacy setting that is true and is no dict, [import_string] of
    something that is not a string, keyword arguments unpacked from
    something that is not a dict). *)
Inductive storage_choice (V : Type) : Type :=
| FromRegistry (alias : string)
| Instantiate (import_path : string) (kwargs : gmap string V)
| DefaultStorage
| WrongType.
Arguments FromRegistry {V} alias.
Arguments Instantiate {V} import_path kwargs.
Arguments DefaultStorage {V}.
Arguments WrongType {V}.

(** [get_h5p_storage()] *)
Definition get_h5p_storage {V} (cfg : storage_conf V) : storage_choice V :=
  let storages_config := default (StoragesDict ∅) (STORAGES cfg) in
  if match storages_config with
     | StoragesDict aliases => bool_decide ("h5pxblock_storage" ∈ aliases)
     | StoragesOther => false
     end
  then FromRegistry "h5pxblock_storage"
  else
    let h5p_storage_settings := default CNone (H5PXBLOCK_STORAGE cfg) in
    if negb (truthy h5p_storage_settings) then DefaultStorage
    else
      match h5p_storage_settings with
      | CDict legacy =>
          let storage_class_import_path :=
            py_or (dict_get legacy "storage_class")
                  (dict_get legacy "STORAGE_CLASS") in
          let storage_settings :=
            py_or (py_or (dict_get legacy "settings")
                         (dict_get legacy "STORAGE_KWARGS"))
                  (CDict ∅) in
          if truthy storage_class_import_path then
            match storage_class_import_path, storage_settings with
            | CStr import_path, CDict kwargs => Instantiate import_path kwargs
            | _, _ => WrongType
            end
          else DefaultStorage
      | _ => WrongType
      end.

(** Case analysis on the registry test of [get_h5p_storage]. *)
Ltac case_registered H :=
  match goal with
  | |- context [if ?b then FromRegistry _ else _] => destruct b eqn:H
  end.

(** * Properties *)

(** ** Path arithmetic *)

#[local] Arguments String.append !_ _ / : simpl nomatch.

Example join_plain : join "h5p/abc" "index.html" = "h5p/abc/index.html".
Proof. reflexivity. Qed.
Example join_trailing_sep : join "h5p/" "a.js" = "h5p/a.js".
Proof. reflexivity. Qed.
Example join_absolute : join "h5p" "/etc/passwd" = "/etc/passwd".
Proof. reflexivity. Qed.
Example join_empty_tail : join "h5p" EmptyString = "h5p/".
Proof. reflexivity. Qed.
Example basename_file : basename "h5p/assets/x.png" = "x.png".
Proof. reflexivity. Qed.
Example basename_dir_entry : basename "h5p/assets/" = EmptyString.
Proof. reflexivity. Qed.
Example basename_dotdot : basename "h5p/a/.." = "..".
Proof. reflexivity. Qed.
Example basename_traversal : basename "h5p/../evil.js" = "evil.js".
Proof. reflexivity. Qed.
Example components_ex : components "/a//b/c/" = ["a"; "b"; "c"].
Proof. reflexivity. Qed.
Example survives_ex :
  survives <$> ["index.html"; "../evil.js"; "assets/"; "a/."; "a/.."; "."]
  = [true; true; false; false; false; false].
Proof. reflexivity. Qed.

Section PathLemmas.

Lemma rfind_sep_lower p : (-1 ≤ rfind_sep p)%Z.
Proof.
  induction p as [|c r IH]; simpl; [lia|].
  destruct (0 <=? rfind_sep r)%Z eqn:E; [apply Z.leb_le in E; lia|].
  destruct (is_sep c); lia.
Qed.

Lemma rfind_sep_has_sep p : has_sep p = (0 <=? rfind_sep p)%Z.
Proof.
  induction p as [|c r IH]; simpl; [done|].
  rewrite IH. pose proof (rfind_sep_lower r).
  destruct (0 <=? rfind_sep r)%Z eqn:E.
  - rewrite orb_true_r. symmetry. apply Z.leb_le. apply Z.leb_le in E. lia.
  - rewrite orb_false_r. by destruct (is_sep c).
Qed.

(** A separator in the right part decides [rfind]. *)
Lemma rfind_sep_app_r a b :
  has_sep b = true →
  rfind_sep (a +:+ b) = (Z.of_nat (String.length a) + rfind_sep b)%Z.
Proof.
  intros Hb. rewrite rfind_sep_has_sep in Hb. apply Z.leb_le in Hb.
  induction a as [|c r IH]; [simpl; lia|].
  cbn [String.length String.append rfind_sep].
  rewrite IH, Nat2Z.inj_succ.
  destruct (0 <=? _)%Z eqn:E; [lia|]. apply Z.leb_gt in E. lia.
Qed.

Lemma rfind_sep_app_l a b :
  has_sep b = false → has_sep a = true →
  rfind_sep (a +:+ b) = rfind_sep a.
Proof.
  intros Hb. induction a as [|c r IH]; simpl; [done|].
  intros Ha. destruct (has_sep r) eqn:Hr.
  - rewrite IH by done. done.
  - rewrite orb_false_r in Ha. rewrite Ha.
    assert (has_sep (r +:+ b) = false) as Hrb.
    { clear -Hb Hr. induction r as [|c' r' IH']; simpl in *; [done|].
      apply orb_false_iff in Hr as [-> Hr]. simpl. by apply IH'. }
    rewrite rfind_sep_has_sep in Hrb, Hr. by rewrite Hrb, Hr.
Qed.

Lemma endswith_sep_rfind a :
  endswith_sep a = true →
  rfind_sep a = (Z.of_nat (String.length a) - 1)%Z.
Proof.
  induction a as [|c r IH]; [done|].
  destruct r as [|c' r'].
  - simpl. by intros ->.
  - intros H. change (endswith_sep (String c' r') = true) in H.
    specialize (IH H). remember (String c' r') as r eqn:Hr.
    cbn [rfind_sep String.length]. rewrite IH, Nat2Z.inj_succ.
    assert (0 < String.length r)%nat by (subst r; cbn [String.length]; lia).
    destruct (0 <=? _)%Z eqn:E; [lia|]. apply Z.leb_gt in E. lia.
Qed.

Lemma endswith_sep_has_sep a : endswith_sep a = true → has_sep a = true.
Proof.
  intros H. rewrite rfind_sep_has_sep, (endswith_sep_rfind _ H).
  apply Z.leb_le. destruct a; [done|]. cbn [String.length]. lia.
Qed.

Lemma drop_chars_app a b : drop_chars (String.length a) (a +:+ b) = b.
Proof. induction a; simpl; auto. Qed.

Lemma drop_chars_app_plus a b n :
  drop_chars (String.length a + n) (a +:+ b) = drop_chars n b.
Proof. induction a; simpl; auto. Qed.

Lemma basename_no_sep b : has_sep b = false → basename b = b.
Proof.
  intros H. unfold basename. rewrite rfind_sep_has_sep in H.
  apply Z.leb_gt in H. pose proof (rfind_sep_lower b).
  by replace (rfind_sep b + 1)%Z with 0%Z by lia.
Qed.

Lemma basename_app_r a b :
  has_sep b = true → basename (a +:+ b) = basename b.
Proof.
  intros H. unfold basename. rewrite rfind_sep_app_r by done.
  rewrite rfind_sep_has_sep in H. apply Z.leb_le in H.
  replace (Z.to_nat (Z.of_nat (String.length a) + rfind_sep b + 1))
    with (String.length a + Z.to_nat (rfind_sep b + 1))%nat by lia.
  apply drop_chars_app_plus.
Qed.

Lemma basename_app_endswith a b :
  endswith_sep a = true → has_sep b = false → basename (a +:+ b) = b.
Proof.
  intros Ha Hb. unfold basename.
  rewrite rfind_sep_app_l by auto using endswith_sep_has_sep.
  rewrite (endswith_sep_rfind _ Ha).
  replace (Z.to_nat _) with (String.length a).
  - apply drop_chars_app.
  - destruct a; [done|]. cbn [String.length]. lia.
Qed.

Lemma basename_sep_cons b : basename (String sep b) = basename b.
Proof.
  destruct (has_sep b) eqn:Hb.
  - by apply (basename_app_r "/" b).
  - rewrite (basename_no_sep b Hb).
    by apply (basename_app_endswith "/" b).
Qed.

(** The basename of the joined path is the basename of the entry: the
    destination prefix never shows in it. *)
Lemma basename_join a b : basename (join a b) = basename b.
Proof.
  unfold join. destruct (startswith_sep b) eqn:Hs; [done|].
  destruct (is_empty a || endswith_sep a) eqn:Ha.
  - destruct a as [|c r]; [done|]. simpl in Ha.
    destruct (has_sep b) eqn:Hb.
    + by apply basename_app_r.
    + rewrite (basename_no_sep b Hb). by apply basename_app_endswith.
  - rewrite (basename_app_r a ("/" +:+ b)) by done.
    apply basename_sep_cons.
Qed.

Lemma split_sep_cons p : ∃ h t, split_sep p = h :: t.
Proof.
  induction p as [|c r (h & t & IH)]; simpl; [eauto|].
  destruct (is_sep c); [eauto|]. rewrite IH. eauto.
Qed.

Lemma split_sep_app_sep a b :
  split_sep (a +:+ String sep b) = split_sep a ++ split_sep b.
Proof.
  induction a as [|c r IH]; simpl; [done|].
  destruct (is_sep c); [by rewrite IH|].
  rewrite IH. destruct (split_sep_cons r) as (h & t & ->). done.
Qed.

Lemma split_sep_no_sep c : has_sep c = false → split_sep c = [c].
Proof.
  induction c as [|x r IH]; simpl; [done|].
  intros [-> Hr]%orb_false_iff. by rewrite IH.
Qed.

Lemma split_sep_pieces p : Forall (λ c, has_sep c = false) (split_sep p).
Proof.
  induction p as [|c r IH]; simpl; [by repeat constructor|].
  destruct (is_sep c) eqn:Hc; [by constructor|].
  destruct (split_sep_cons r) as (h & t & E). rewrite E in *.
  inversion_clear IH. constructor; [|done]. simpl. by rewrite Hc.
Qed.

Lemma is_component_spec c :
  is_component c = true ↔ c ≠ EmptyString ∧ has_sep c = false.
Proof.
  unfold is_component. rewrite andb_true_iff, !negb_true_iff.
  destruct c; simpl; split; intros []; done.
Qed.

Lemma components_are_components p :
  Forall (λ c, is_component c = true) (components p).
Proof.
  unfold components. apply Forall_forall. intros c [Hne Hin]%list_elem_of_filter.
  apply is_component_spec. split; [done|].
  by eapply (proj1 (Forall_forall _ _) (split_sep_pieces p)).
Qed.

Lemma components_app_sep a b :
  components (a +:+ String sep b) = components a ++ components b.
Proof. unfold components. by rewrite split_sep_app_sep, filter_app. Qed.

Lemma components_component c : is_component c = true → components c = [c].
Proof.
  intros [Hne Hs]%is_component_spec. unfold components.
  rewrite split_sep_no_sep by done. by rewrite filter_cons_True.
Qed.

Lemma endswith_sep_inv a : endswith_sep a = true → ∃ a', a = a' +:+ "/".
Proof.
  induction a as [|c r IH]; [done|]. destruct r as [|c' r'].
  - simpl. intros H. exists EmptyString. simpl. f_equal.
    by apply Ascii.eqb_eq in H.
  - intros H. destruct IH as [a' ->]; [done|]. by exists (String c a').
Qed.

Lemma component_not_absolute c : is_component c = true → startswith_sep c = false.
Proof.
  intros [_ Hs]%is_component_spec. destruct c; simpl in *; [done|].
  by apply orb_false_iff in Hs as [-> _].
Qed.

(** Joining a directory with the name of one of its children adds
    that name as the last component. *)
Lemma components_join_child p c :
  is_component c = true → components (join p c) = components p ++ [c].
Proof.
  intros Hc. unfold join. rewrite (component_not_absolute _ Hc).
  rewrite <- (components_component c Hc).
  destruct (is_empty p || endswith_sep p) eqn:Hp.
  - destruct (is_empty p) eqn:He; [by destruct p|]. simpl in Hp.
    destruct (endswith_sep_inv _ Hp) as [a' ->].
    replace ((a' +:+ "/") +:+ c) with (a' +:+ String sep c)
      by (clear; induction a' as [|? ? IH]; simpl; [done | by rewrite IH]).
    rewrite !components_app_sep. simpl. by rewrite app_nil_r.
  - simpl. by rewrite components_app_sep.
Qed.

End PathLemmas.

(** ** The effect monad *)

Section MonadLemmas.
Context {S E : Type}.

Lemma bind_run {A B} (m : M S E A) (f : A → M S E B) s :
  (m ≫= f) s =
  match m s with
  | (Ret a, s1, t1) => let '(r, s2, t2) := f a s1 in (r, s2, t1 ++ t2)
  | (Raise e, s1, t1) => (Raise e, s1, t1)
  | (OutOfFuel, s1, t1) => (OutOfFuel, s1, t1)
  end.
Proof. reflexivity. Qed.

Lemma for_each_nil {A} (body : A → M S E unit) s :
  for_each [] body s = (Ret tt, s, []).
Proof. reflexivity. Qed.

Lemma for_each_cons {A} x l (body : A → M S E unit) s :
  for_each (x :: l) body s = (body x ≫= λ _, for_each l body) s.
Proof. reflexivity. Qed.

(** Loop invariants: a property [I] of the state, a property [Q] of
    the events of a stretch of the run, and a property [R] of the way
    the loop ends. *)
Lemma for_each_inv {A} (I : S → Prop) (Q : list E → Prop) (R : res unit → Prop)
    (l : list A) (body : A → M S E unit) :
  Q [] →
  (∀ t1 t2, Q t1 → Q t2 → Q (t1 ++ t2)) →
  R (Ret tt) →
  (∀ x s r s' t, x ∈ l → I s → body x s = (r, s', t) → I s' ∧ Q t ∧ R r) →
  ∀ s r s' t, I s → for_each l body s = (r, s', t) → I s' ∧ Q t ∧ R r.
Proof.
  intros Hnil Happ Hret. induction l as [|x l IH]; intros Hbody s r s' t HI.
  - rewrite for_each_nil. by intros [= <- <- <-].
  - rewrite for_each_cons, bind_run.
    destruct (body x s) as [[r1 s1] t1] eqn:E1.
    destruct (Hbody x s r1 s1 t1) as (HI1 & HQ1 & HR1); [left|done..|].
    destruct r1 as [[]| |]; [|by intros [= <- <- <-]..].
    destruct (for_each l body s1) as [[r2 s2] t2] eqn:E2.
    intros [= <- <- <-].
    destruct (IH (λ y s0 r0 s0' t0 Hy, Hbody y s0 r0 s0' t0 (list_elem_of_further _ _ _ Hy))
                s1 r2 s2 t2 HI1 E2) as (? & ? & ?).
    auto.
Qed.

Section Holds.
Variable I : S → Prop.
Variable Q : E → Prop.

Lemma holds_ret {A} (a : A) : holds I Q (mret a).
Proof. intros s r s' t HI [= <- <- <-]. auto. Qed.

Lemma holds_raise {A} e : holds I Q (@raise S E A e).
Proof. intros s r s' t HI [= <- <- <-]. auto. Qed.

Lemma holds_out_of_fuel {A} : holds I Q (@out_of_fuel S E A).
Proof. intros s r s' t HI [= <- <- <-]. auto. Qed.

Lemma holds_emit e : Q e → holds I Q (emit e).
Proof. intros He s r s' t HI [= <- <- <-]. auto. Qed.

Lemma holds_bind {A B} (m : M S E A) (f : A → M S E B) :
  holds I Q m → (∀ a, holds I Q (f a)) → holds I Q (m ≫= f).
Proof.
  intros Hm Hf s r s' t HI. rewrite bind_run.
  destruct (m s) as [[r1 s1] t1] eqn:E1.
  destruct (Hm _ _ _ _ HI E1) as [HI1 HQ1].
  destruct r1 as [a| |]; [|by intros [= <- <- <-]..].
  destruct (f a s1) as [[r2 s2] t2] eqn:E2.
  destruct (Hf a _ _ _ _ HI1 E2) as [HI2 HQ2].
  intros [= <- <- <-]. split; [done|]. by apply Forall_app.
Qed.

Lemma holds_for_each {A} (l : list A) (body : A → M S E unit) :
  (∀ x, x ∈ l → holds I Q (body x)) → holds I Q (for_each l body).
Proof.
  induction l as [|x l IH]; intros Hbody.
  - apply holds_ret.
  - apply holds_bind; [apply Hbody; left|].
    intros _. apply IH. intros y Hy. apply Hbody. by right.
Qed.

Lemma holds_finally {A} (body : M S E A) (exit : M S E unit) :
  holds I Q body → holds I Q exit → holds I Q (finally_ body exit).
Proof.
  intros Hb He s r s' t HI. unfold finally_.
  destruct (body s) as [[r1 s1] t1] eqn:E1.
  destruct (Hb _ _ _ _ HI E1) as [HI1 HQ1].
  destruct (exit s1) as [[r2 s2] t2] eqn:E2.
  destruct (He _ _ _ _ HI1 E2) as [HI2 HQ2].
  destruct r1 as [a| |], r2 as [[]| |]; intros [= <- <- <-];
    (split; [done|]); try done; by apply Forall_app.
Qed.

End Holds.

End MonadLemmas.

(** ** The executor and the clean-up walk, over any storage *)

Section CloudLemmas.
Context {St : Type} `{!Storage St}.
Variable cfg : settings.
Variable sched : list call → list call.

#[local] Abbreviation cloud := (@cloud St).
#[local] Abbreviation delete_existing := (delete_existing_files_cloud cfg sched).
#[local] Abbreviation unpack := (unpack_and_upload_on_cloud cfg sched).

Lemma submit_loop (f : string → call) l (s : cloud) :
  for_each l (λ x, submit (f x)) s =
  (Ret tt, Cloud (store s) (pending s ++ (f <$> l)), Submit <$> (f <$> l)).
Proof.
  revert s. induction l as [|x l IH]; intros [st pd].
  - rewrite for_each_nil. simpl. by rewrite app_nil_r.
  - rewrite for_each_cons, bind_run. simpl. rewrite IH. simpl.
    by rewrite <- app_assoc.
Qed.

Lemma with_executor_run body (s s1 : cloud) t1 :
  (0 < MAX_WORKERS cfg)%Z →
  body s = (Ret tt, s1, t1) →
  with_executor cfg sched body s =
  let '(st', t) := run_all (sched (pending s1)) (store s1) in
  (Ret tt, Cloud st' [], ExecutorEnter (MAX_WORKERS cfg) :: t1 ++ t ++ [ExecutorExit]).
Proof.
  intros Hpos Hbody. unfold with_executor.
  destruct (Z.leb_spec (MAX_WORKERS cfg) 0) as [?|_]; [lia|].
  rewrite bind_run. simpl. unfold finally_. rewrite Hbody.
  unfold shutdown. by destruct (run_all _ _) as [st' t].
Qed.

Lemma with_executor_invalid body (s : cloud) :
  (MAX_WORKERS cfg ≤ 0)%Z →
  with_executor cfg sched body s =
  (Raise (ValueError "max_workers must be greater than 0"), s, []).
Proof.
  intros Hle. unfold with_executor.
  by destruct (Z.leb_spec (MAX_WORKERS cfg) 0) as [_|?]; [|lia].
Qed.

Lemma run_all_cons c l (st : St) :
  run_all (c :: l) st =
  let '(st1, o) := perform c st in
  let '(st2, t) := run_all l st1 in
  (st2, Ran c o :: Logged (future_result_handler o) :: t).
Proof. reflexivity. Qed.

Lemma run_all_no_submit l (st : St) : submitted (run_all l st).2 = [].
Proof.
  revert st. induction l as [|c l IH]; intros st; simpl; [done|].
  destruct (perform c st) as [st1 o]. specialize (IH st1).
  by destruct (run_all l st1).
Qed.

(** The tasks that ran are the tasks the schedule was given. *)
Lemma run_all_ran l (st : St) : ran (run_all l st).2 = l.
Proof.
  revert st. induction l as [|c l IH]; intros st; simpl; [done|].
  destruct (perform c st) as [st1 o]. specialize (IH st1).
  destruct (run_all l st1). simpl in *. by rewrite IH.
Qed.

(** One call of the clean-up walk, opened up. *)
Lemma delete_existing_step fuel path (s : cloud) :
  (0 < MAX_WORKERS cfg)%Z →
  delete_existing (S fuel) path s =
  if storage_exists (store s) path then
    let '(dir_names, file_names) := storage_listdir (store s) path in
    let deletes := (λ f, Delete (join path f)) <$> file_names in
    let '(st1, t_run) := run_all (sched (pending s ++ deletes)) (store s) in
    let '(r, s2, t_rec) :=
      for_each dir_names (λ d, delete_existing fuel (join path d)) (Cloud st1 []) in
    (r, s2,
     [Exists path true;
      Logged (LogRecord INFO "%s path is being deleted on cloud" [PStr path]);
      Listdir path dir_names file_names;
      ExecutorEnter (MAX_WORKERS cfg)]
     ++ (Submit <$> deletes) ++ t_run ++ [ExecutorExit] ++ t_rec)
  else (Ret tt, s, [Exists path false]).
Proof.
  intros Hpos. cbn [delete_existing_files_cloud].
  rewrite bind_run. unfold exists_ at 1. cbn beta iota zeta.
  destruct (storage_exists (store s) path); [|done].
  rewrite bind_run. unfold log_info, emit at 1. cbn beta iota zeta.
  rewrite bind_run. unfold listdir at 1.
  destruct (storage_listdir (store s) path) as [ds fs]. cbn beta iota zeta.
  rewrite bind_run.
  rewrite (with_executor_run _ s _ _ Hpos (submit_loop _ fs s)).
  cbn [store pending].
  destruct (run_all _ _) as [st1 t_run].
  destruct (for_each ds _ _) as [[r s2] t_rec].
  simpl. by rewrite <- !app_assoc.
Qed.

Lemma submitted_saves_app t1 t2 :
  submitted_saves (t1 ++ t2) = submitted_saves t1 ++ submitted_saves t2.
Proof. apply omap_app. Qed.

Lemma submitted_saves_cons e t :
  submitted_saves (e :: t) =
  match e with Submit (Save k d) => [(k, d)] | _ => [] end ++ submitted_saves t.
Proof. by destruct e as [| | | |[]| |]. Qed.

Lemma submitted_saves_run_all l (st : St) : submitted_saves (run_all l st).2 = [].
Proof.
  revert st. induction l as [|c l IH]; intros st; simpl; [done|].
  destruct (perform c st) as [st1 o]. specialize (IH st1).
  by destruct (run_all l st1).
Qed.

Lemma submitted_saves_deletes (l : list string) (f : string → string) :
  submitted_saves (Submit <$> ((λ x, Delete (f x)) <$> l)) = [].
Proof. by induction l. Qed.

(** The clean-up walk submits no write, leaves no executor open, and
    ends by returning unless the recursion budget runs out. *)
Lemma delete_existing_shape fuel :
  (0 < MAX_WORKERS cfg)%Z →
  ∀ path (s : cloud) r s' t,
    delete_existing fuel path s = (r, s', t) →
    (pending s = [] → pending s' = []) ∧
    submitted_saves t = [] ∧
    (r = Ret tt ∨ r = OutOfFuel).
Proof.
  intros Hpos. induction fuel as [|fuel IH]; intros path s r s' t.
  { intros [= <- <- <-]. auto. }
  rewrite delete_existing_step by done.
  destruct (storage_exists (store s) path); [|intros [= <- <- <-]; auto].
  destruct (storage_listdir (store s) path) as [ds fs]. cbv zeta.
  destruct (run_all (sched _) (store s)) as [st1 t_run] eqn:Erun.
  destruct (for_each ds _ (Cloud st1 [])) as [[r2 s2] t2] eqn:Eloop.
  intros [= <- <- <-].
  assert (pending s2 = [] ∧ submitted_saves t2 = [] ∧ (r2 = Ret tt ∨ r2 = OutOfFuel))
    as (Hp & Hs & Hr).
  { eapply (for_each_inv (λ s0 : cloud, pending s0 = [])
              (λ t0, submitted_saves t0 = []) (λ r0, r0 = Ret tt ∨ r0 = OutOfFuel));
      [..|exact Eloop]; simpl; auto.
    - intros t1 t3 H1 H3. by rewrite submitted_saves_app, H1, H3.
    - intros x s0 r0 s0' t0 _ Hp0 E. destruct (IH _ _ _ _ _ E) as (? & ? & ?). auto. }
  split_and!; [done| |done].
  rewrite !submitted_saves_cons, !submitted_saves_app, submitted_saves_cons, submitted_saves_deletes, Hs.
  pose proof (submitted_saves_run_all
                (sched (pending s ++ ((λ f, Delete (join path f)) <$> fs))) (store s)) as Hra.
  rewrite Erun in Hra. simpl in Hra. by rewrite Hra.
Qed.

Lemma getinfo_listed z n :
  n ∈ namelist z → ∃ m, getinfo z n = Some m ∧ m ∈ z ∧ filename m = n.
Proof.
  intros (m & Hn & Hm)%list_elem_of_fmap. unfold getinfo.
  assert (m ∈ filter (λ m, filename m = n) z) as Hin
    by (by apply list_elem_of_filter).
  destruct (last (filter (λ m, filename m = n) z)) as [m'|] eqn:El.
  - exists m'. split; [done|]. apply last_Some in El as [l' El].
    assert (m' ∈ filter (λ m, filename m = n) z) as [??]%list_elem_of_filter; [|done].
    rewrite El. apply elem_of_app. right. by left.
  - apply last_None in El. rewrite El in Hin. by apply not_elem_of_nil in Hin.
Qed.

Lemma filter_name_absent z n :
  n ∉ namelist z → filter (λ m, filename m = n) z = [].
Proof.
  induction z as [|m z IH]; [done|]. unfold namelist. rewrite fmap_cons.
  intros [Hne Hnotin]%not_elem_of_cons. rewrite filter_cons, decide_False by done.
  by apply IH.
Qed.

(** With no two members of one name, the bytes read for a member's
    name are that member's bytes. *)
Lemma entry_bytes_unique z m :
  NoDup (namelist z) → m ∈ z → entry_bytes z (filename m) = payload m.
Proof.
  intros Hnd Hm. unfold entry_bytes, getinfo.
  assert (filter (λ m', filename m' = filename m) z = [m]) as ->; [|done].
  induction z as [|m0 z IH]; [by apply elem_of_nil in Hm|].
  unfold namelist in Hnd. rewrite fmap_cons in Hnd.
  apply NoDup_cons in Hnd as [Hnotin Hnd]. rewrite filter_cons.
  apply elem_of_cons in Hm as [<-|Hm].
  - rewrite decide_True by done. by rewrite filter_name_absent.
  - rewrite decide_False; [by apply IH|].
    intros Heq. apply Hnotin. rewrite Heq. by apply list_elem_of_fmap_2.
Qed.

Lemma zip_read_listed z n :
  n ∈ namelist z → @zip_read cloud event z n = mret (entry_bytes z n).
Proof.
  intros (m & Hm & _)%getinfo_listed. unfold zip_read, entry_bytes.
  by rewrite Hm.
Qed.

Lemma rejected_iff path n :
  negb (bool_decide (basename (join path n) ∈ rejected_basenames)) = survives n.
Proof. unfold survives. by rewrite basename_join. Qed.

Lemma upload_entry_run z path n (s : cloud) :
  n ∈ namelist z →
  upload_entry z path n s =
  if survives n
  then (Ret tt, Cloud (store s) (pending s ++ [Save (join path n) (entry_bytes z n)]),
        [Submit (Save (join path n) (entry_bytes z n))])
  else (Ret tt, s, []).
Proof.
  intros Hn. unfold upload_entry. rewrite rejected_iff.
  destruct (survives n); [|done].
  by rewrite bind_run, (zip_read_listed z n Hn).
Qed.

Lemma upload_loop z path l (s : cloud) :
  (∀ n, n ∈ l → n ∈ namelist z) →
  for_each l (upload_entry z path) s =
  (Ret tt, Cloud (store s) (pending s ++ upload_calls z path l),
   Submit <$> upload_calls z path l).
Proof.
  revert s. induction l as [|n l IH]; intros [st pd] Hl.
  - rewrite for_each_nil. unfold upload_calls. simpl. by rewrite app_nil_r.
  - rewrite for_each_cons, bind_run, upload_entry_run by (apply Hl; left).
    unfold upload_calls. rewrite filter_cons.
    destruct (survives n) eqn:Hs; simpl.
    + rewrite IH by (intros; apply Hl; by right). simpl.
      by rewrite <- app_assoc.
    + by rewrite IH by (intros; apply Hl; by right).
Qed.

(** A run on a valid archive: the clean-up walk, then one executor
    that is handed the surviving entries and drained. *)
Lemma unpack_run fuel pkg z path (s : cloud) :
  (0 < MAX_WORKERS cfg)%Z →
  content pkg = ZipArchive z →
  unpack fuel pkg path s =
  match delete_existing fuel path s with
  | (Ret _, s1, t1) =>
      let calls := upload_calls z path (namelist z) in
      let '(st', t) := run_all (sched (pending s1 ++ calls)) (store s1) in
      (Ret tt, Cloud st' [],
       t1 ++ ExecutorEnter (MAX_WORKERS cfg) :: (Submit <$> calls) ++ t ++ [ExecutorExit])
  | (Raise e, s1, t1) => (Raise e, s1, t1)
  | (OutOfFuel, s1, t1) => (OutOfFuel, s1, t1)
  end.
Proof.
  intros Hpos Hz. unfold unpack_and_upload_on_cloud, is_zipfile, ZipFile.
  rewrite Hz. cbn [negb]. rewrite bind_run.
  destruct (delete_existing fuel path s) as [[[[]| |] s1] t1]; [|done..].
  rewrite bind_run. change (@mret (M cloud event) _ _ z s1) with (Ret z, s1, @nil event).
  cbn beta iota zeta.
  rewrite (with_executor_run _ s1 _ _ Hpos (upload_loop z path _ s1 (λ _ H, H))).
  cbn [store pending]. by destruct (run_all _ _).
Qed.

(** *** What every run submits and runs *)

Hypothesis sched_perm : ∀ l, sched l ≡ₚ l.

Section Good.
(** [G]: a property of work items that every delete task has.
    [L]: a property of log records that the records of the done
    callback and of the walk have. *)
Variable G : call → Prop.
Variable L : log_record → Prop.
Hypothesis G_delete : ∀ key, G (Delete key).
Hypothesis L_task : ∀ o, L (future_result_handler o).
Hypothesis L_walk :
  ∀ p, L (LogRecord INFO "%s path is being deleted on cloud" [PStr p]).

Lemma run_all_good l (st : St) :
  Forall G l → Forall (good_event cfg G L) (run_all l st).2.
Proof.
  revert st. induction l as [|c l IH]; intros st Hl; simpl; [done|].
  inversion_clear Hl as [|?? Hc Hl']. destruct (perform c st) as [st1 o].
  specialize (IH st1 Hl'). destruct (run_all l st1). simpl in *.
  repeat constructor; [done|apply L_task|done].
Qed.

Lemma holds_shutdown : holds (@good_state St G) (good_event cfg G L) (shutdown sched).
Proof.
  intros s r s' t HI. unfold shutdown.
  pose proof (run_all_good (sched (pending s)) (store s)) as Hr.
  destruct (run_all _ _) as [st' t']. intros [= <- <- <-].
  split; [constructor|]. apply Forall_app. split; [|by repeat constructor].
  apply Hr. unfold good_state in HI. by rewrite sched_perm.
Qed.

Lemma holds_submit c : G c → holds (@good_state St G) (good_event cfg G L) (submit c).
Proof.
  intros Hc s r s' t HI [= <- <- <-]. split; [|by repeat constructor].
  unfold good_state. simpl. apply Forall_app. by split; [|repeat constructor].
Qed.

Lemma holds_with_executor body :
  holds (@good_state St G) (good_event cfg G L) body →
  holds (@good_state St G) (good_event cfg G L) (with_executor cfg sched body).
Proof.
  intros Hb. unfold with_executor. destruct (_ <=? _)%Z.
  - apply holds_raise.
  - apply holds_bind; [by apply holds_emit|]. intros _.
    apply holds_finally; [done|apply holds_shutdown].
Qed.

Lemma holds_delete_existing fuel path :
  holds (@good_state St G) (good_event cfg G L) (delete_existing fuel path).
Proof.
  revert path. induction fuel as [|fuel IH]; intros path.
  { apply holds_out_of_fuel. }
  cbn [delete_existing_files_cloud]. apply holds_bind.
  { intros s r s' t HI [= <- <- <-]. by repeat constructor. }
  intros [|]; [|apply holds_ret].
  apply holds_bind; [apply holds_emit, L_walk|]. intros _.
  apply holds_bind.
  { intros s r s' t HI. unfold listdir.
    destruct (storage_listdir _ _). intros [= <- <- <-]. by repeat constructor. }
  intros [ds fs]. apply holds_bind.
  - apply holds_with_executor, holds_for_each. intros f _. by apply holds_submit.
  - intros _. apply holds_for_each. intros d _. apply IH.
Qed.

End Good.

Lemma holds_upload_entry (L : log_record → Prop) z path n :
  holds (@good_state St well_named) (good_event cfg well_named L)
        (upload_entry z path n).
Proof.
  unfold upload_entry. case_bool_decide as Hb; cbn [negb]; [apply holds_ret|].
  apply holds_bind.
  - unfold zip_read. destruct (getinfo z n); [apply holds_ret|apply holds_raise].
  - intros data. by apply holds_submit.
Qed.

(** Whatever the archive, the storage and the configuration, a run
    submits and runs well-named writes only, every executor it opens
    has [MAX_WORKERS] workers, and its log records are those of the
    done callback and of the walk — plus, for an upload that is not a
    zip container, the error that says so. *)
Lemma holds_unpack (L : log_record → Prop) fuel pkg path :
  (∀ o, L (future_result_handler o)) →
  (∀ p, L (LogRecord INFO "%s path is being deleted on cloud" [PStr p])) →
  (is_zipfile pkg = false →
   L (LogRecord ERROR "%s is not a valid zip" [PStr (name pkg)])) →
  holds (@good_state St well_named) (good_event cfg well_named L) (unpack fuel pkg path).
Proof.
  intros L_task L_walk L_invalid.
  unfold unpack_and_upload_on_cloud. destruct (is_zipfile pkg); cbn [negb].
  - apply holds_bind; [by apply holds_delete_existing|]. intros _.
    apply holds_bind.
    + unfold ZipFile. destruct (content pkg); [apply holds_raise..|apply holds_ret].
    + intros z. apply holds_with_executor, holds_for_each; [done..|].
      intros n _. apply holds_upload_entry.
  - apply holds_bind; [apply holds_emit; by apply L_invalid|]. intros _. apply holds_ret.
Qed.

(** The clean-up walk runs delete tasks only. *)
Lemma delete_existing_ran fuel path (s : cloud) r s' t :
  pending s = [] →
  delete_existing fuel path s = (r, s', t) →
  filter (λ c, is_save c = true) (ran t) = [].
Proof.
  intros Hp E.
  destruct (holds_delete_existing (λ c, is_save c = false) (λ _, True)
              (λ _, eq_refl) (λ _, I) (λ _, I) fuel path s r s' t) as [_ Ht];
    [by unfold good_state; rewrite Hp|done|].
  clear E. induction Ht as [|e t He Ht IH]; [done|].
  destruct e as [| | | | |c o|]; simpl in *; try done.
  rewrite filter_cons, decide_False; [done|]. by rewrite He.
Qed.

Lemma ran_app t1 t2 : ran (t1 ++ t2) = ran t1 ++ ran t2.
Proof. apply omap_app. Qed.

Lemma ran_submits l : ran (Submit <$> l) = [].
Proof. by induction l. Qed.

Lemma submitted_saves_submits l :
  submitted_saves (Submit <$> l) =
  omap (λ c, match c with Save k d => Some (k, d) | _ => None end) l.
Proof.
  induction l as [|c l IH]; [done|].
  rewrite fmap_cons, submitted_saves_cons, IH. by destruct c.
Qed.

Lemma submitted_saves_upload_calls z path l :
  submitted_saves (Submit <$> upload_calls z path l) =
  (λ n, (join path n, entry_bytes z n)) <$> filter (λ n, survives n = true) l.
Proof.
  rewrite submitted_saves_submits. unfold upload_calls.
  induction (filter _ l) as [|n k IH]; [done|]. simpl. by f_equal.
Qed.

Lemma upload_calls_saves z path l :
  filter (λ c, is_save c = true) (upload_calls z path l) = upload_calls z path l.
Proof.
  unfold upload_calls. induction (filter _ l) as [|n k IH]; [done|].
  rewrite fmap_cons, filter_cons, decide_True by done. by rewrite IH.
Qed.

(** *** What the specification states about the upload path *)

(** C3. An upload that is not a zip container: the function logs one
    error that names the upload and returns; the storage object is
    left as it was and the run holds no storage call at all — no
    [exists], no [listdir], no task submitted or run. *)
Theorem unpack_not_a_zip_touches_nothing fuel pkg path (s : cloud) :
  is_zipfile pkg = false →
  ∃ t, unpack fuel pkg path s = (Ret tt, s, t) ∧
       t = [Logged (LogRecord ERROR "%s is not a valid zip" [PStr (name pkg)])] ∧
       Forall (λ e, is_store_call e = false) t.
Proof.
  intros Hz. eexists. split; [|split; [reflexivity|by repeat constructor]].
  unfold unpack_and_upload_on_cloud. by rewrite Hz.
Qed.

(** C2. An entry whose basename is empty, ["."] or [".."]: the loop
    body does nothing at all for it (it returns, changes no state and
    emits no event, so nothing is logged and nothing fails), and no
    run ever submits or runs a write for that entry's path. *)
Theorem unpack_never_writes_rejected_entry fuel pkg path st n :
  basename n ∈ rejected_basenames →
  (∀ z (s : cloud), upload_entry z path n s = (Ret tt, s, [])) ∧
  ∀ r s' t,
    unpack fuel pkg path (Cloud st []) = (r, s', t) →
    ∀ data, (Submit (Save (join path n) data) ∉ t) ∧
            (∀ o, Ran (Save (join path n) data) o ∉ t).
Proof.
  intros Hn. split.
  - intros z s. unfold upload_entry. rewrite basename_join.
    by rewrite bool_decide_eq_true_2.
  - intros r s' t E data.
    destruct (holds_unpack (λ _, True) fuel pkg path (λ _, I) (λ _, I) (λ _, I)
                (Cloud st []) r s' t) as [_ Ht]; [by constructor|done|].
    rewrite Forall_forall in Ht.
    split; [|intros o]; intros Hin; apply Ht in Hin; simpl in Hin;
      by rewrite basename_join in Hin.
Qed.

(** A run on a valid archive whose clean-up walk returns, in terms of
    what it submits and what its workers run. *)
Lemma unpack_valid_trace fuel pkg z path st :
  (0 < MAX_WORKERS cfg)%Z →
  content pkg = ZipArchive z →
  (delete_existing fuel path (Cloud st [])).1.1 = Ret tt →
  ∃ s' t,
    unpack fuel pkg path (Cloud st []) = (Ret tt, s', t) ∧
    submitted_saves t =
      (λ n, (join path n, entry_bytes z n)) <$>
        filter (λ n, survives n = true) (namelist z) ∧
    filter (λ c, is_save c = true) (ran t) ≡ₚ upload_calls z path (namelist z).
Proof.
  intros Hpos Hz Hclean. rewrite (unpack_run fuel pkg z path _ Hpos Hz).
  destruct (delete_existing fuel path (Cloud st [])) as [[r s1] t1] eqn:E.
  simpl in Hclean. subst r.
  destruct (delete_existing_shape fuel Hpos _ _ _ _ _ E) as (Hp & Hs & _).
  pose proof (delete_existing_ran fuel path (Cloud st []) _ _ _ eq_refl E) as Hr.
  rewrite (Hp eq_refl). cbn [app]. cbv zeta.
  pose proof (run_all_ran (sched (upload_calls z path (namelist z))) (store s1)) as Hran.
  pose proof (submitted_saves_run_all (sched (upload_calls z path (namelist z))) (store s1)) as Hsub.
  destruct (run_all _ _) as [st' t]. simpl in Hran, Hsub.
  eexists _, _. split; [reflexivity|]. split.
  - rewrite submitted_saves_app, Hs, submitted_saves_cons, !submitted_saves_app, Hsub.
    rewrite submitted_saves_upload_calls. simpl. by rewrite app_nil_r.
  - rewrite ran_app, filter_app, Hr. cbn [app ran omap list_omap].
    change (omap _ ?l) with (ran l).
    rewrite !ran_app, ran_submits, Hran. simpl. rewrite app_nil_r.
    by rewrite sched_perm, upload_calls_saves.
Qed.

(** C4. A valid archive, once the clean-up walk has returned: the run
    returns, and the writes it submitted are, in order, one for each
    entry that survives sanitization — as many as there are
    survivors, each under [join path entry] and carrying exactly the
    bytes [ZipFile.read] gives for that entry. The writes the workers
    ran are those same writes, each once. *)
Theorem unpack_submits_one_write_per_survivor fuel pkg z path st :
  (0 < MAX_WORKERS cfg)%Z →
  content pkg = ZipArchive z →
  (delete_existing fuel path (Cloud st [])).1.1 = Ret tt →
  ∃ s' t,
    unpack fuel pkg path (Cloud st []) = (Ret tt, s', t) ∧
    let kept := filter (λ n, survives n = true) (namelist z) in
    length (submitted_saves t) = length kept ∧
    Forall2 (λ n kd, kd.1 = join path n ∧ @zip_read cloud event z n = mret kd.2)
            kept (submitted_saves t) ∧
    filter (λ c, is_save c = true) (ran t) ≡ₚ (λ kd, Save kd.1 kd.2) <$> submitted_saves t.
Proof.
  intros Hpos Hz Hclean.
  destruct (unpack_valid_trace fuel pkg z path st Hpos Hz Hclean)
    as (s' & t & E & Hsub & Hran).
  exists s', t. split; [done|]. rewrite Hsub. split_and!.
  - by rewrite length_fmap.
  - apply Forall2_fmap_r, Forall_Forall2_diag, Forall_forall.
    intros n [_ Hn]%list_elem_of_filter. split; [done|].
    by apply zip_read_listed.
  - rewrite Hran. unfold upload_calls. by rewrite <- list_fmap_compose.
Qed.

(** C1, as the code has it. The archive [index.html], [../evil.js],
    [assets/x.png], once the clean-up walk has returned: the run
    returns; a write of [index.html] and a write of [assets/x.png]
    are submitted and run, each under [join path entry] with the
    entry's bytes; and every log record of the run comes from the
    done callback of a task or from the clean-up walk — the upload
    loop itself logs nothing, whether it skips an entry or not. *)
Theorem unpack_traversal_scenario fuel nm d1 d2 d3 path st :
  (0 < MAX_WORKERS cfg)%Z →
  (delete_existing fuel path (Cloud st [])).1.1 = Ret tt →
  let z := [ZipInfo "index.html" d1; ZipInfo "../evil.js" d2;
            ZipInfo "assets/x.png" d3] in
  ∃ s' t,
    unpack fuel (Package nm (ZipArchive z)) path (Cloud st []) = (Ret tt, s', t) ∧
    (join path "index.html", d1) ∈ submitted_saves t ∧
    (join path "assets/x.png", d3) ∈ submitted_saves t ∧
    Save (join path "index.html") d1 ∈ ran t ∧
    Save (join path "assets/x.png") d3 ∈ ran t ∧
    ∀ r, Logged r ∈ t → task_or_walk_log r.
Proof.
  intros Hpos Hclean z.
  destruct (unpack_valid_trace fuel (Package nm (ZipArchive z)) z path st Hpos eq_refl Hclean)
    as (s' & t & E & Hsub & Hran).
  exists s', t. split; [done|]. rewrite Hsub.
  assert (∀ c, c ∈ upload_calls z path (namelist z) → c ∈ ran t) as Hin.
  { intros c Hc. rewrite <- Hran in Hc. by apply list_elem_of_filter in Hc as [_ ?]. }
  split_and!.
  - by left.
  - right. right. by left.
  - apply Hin. by left.
  - apply Hin. right. right. by left.
  - destruct (holds_unpack task_or_walk_log fuel (Package nm (ZipArchive z)) path)
      with (s := Cloud st []) (r := @Ret unit tt) (s' := s') (t := t) as [_ Ht].
    + intros o. left. by exists o.
    + intros p. right. by exists p.
    + done.
    + by constructor.
    + done.
    + rewrite Forall_forall in Ht. intros r Hr. by apply Ht in Hr.
Qed.

End CloudLemmas.

(** ** The reference backend *)

Section KeyStoreLemmas.
Import KeyStore.

Lemma elem_of_keys s k : k ∈ keys s ↔ is_Some (objects s !! k).
Proof.
  unfold keys. rewrite list_elem_of_fmap. split.
  - intros ([k' v] & -> & Hin). apply elem_of_map_to_list in Hin. by exists v.
  - intros [v Hv]. exists (k, v). split; [done|]. by apply elem_of_map_to_list.
Qed.

Lemma strip_prefix_Some p k r : strip_prefix p k = Some r ↔ k = p ++ r.
Proof.
  revert k. induction p as [|c p IH]; intros k; simpl.
  - split; congruence.
  - destruct k as [|c' k]; [done|]. case_decide as Hc.
    + subst c'. rewrite IH. split; congruence.
    + split; [done|]. intros [= ? _]. done.
Qed.

Lemma exists_true s path r :
  is_Some (objects s !! (components path ++ r)) → exists_ s path = true.
Proof.
  intros Hk%elem_of_keys. unfold exists_. apply existsb_exists.
  exists (components path ++ r). split; [by apply list_elem_of_In|].
  apply bool_decide_eq_true. exists r. by apply strip_prefix_Some.
Qed.

Lemma exists_false s path r :
  exists_ s path = false → objects s !! (components path ++ r) = None.
Proof.
  intros He. destruct (objects s !! _) eqn:E; [|done].
  by rewrite (exists_true s path r) in He by by rewrite E.
Qed.

Lemma elem_of_below s path r :
  r ∈ omap (strip_prefix (components path)) (keys s) ↔
  is_Some (objects s !! (components path ++ r)).
Proof.
  rewrite list_elem_of_omap. split.
  - intros (k & Hk & ->%strip_prefix_Some). by apply elem_of_keys.
  - intros Hk. exists (components path ++ r).
    split; [by apply elem_of_keys|by apply strip_prefix_Some].
Qed.

Lemma listdir_files s path c :
  c ∈ (listdir s path).2 ↔ is_Some (objects s !! (components path ++ [c])).
Proof.
  unfold listdir. cbn [snd]. rewrite list_elem_of_omap. split.
  - intros (r & Hr & Hc). apply elem_of_below in Hr.
    destruct r as [|c0 [|??]]; simplify_eq/=. done.
  - intros Hk. exists [c]. split; [by apply elem_of_below|done].
Qed.

Lemma listdir_dirs s path c :
  c ∈ (listdir s path).1 ↔
  ∃ c' r, is_Some (objects s !! (components path ++ c :: c' :: r)).
Proof.
  unfold listdir. cbn [fst]. rewrite elem_of_remove_dups, list_elem_of_omap. split.
  - intros (r & Hr & Hc). apply elem_of_below in Hr.
    destruct r as [|c0 [|c1 r]]; simplify_eq/=. eauto.
  - intros (c' & r & Hk). exists (c :: c' :: r).
    split; [by apply elem_of_below|done].
Qed.

Lemma le_store_refl s : le_store s s.
Proof. by split. Qed.

Lemma le_store_trans s1 s2 s3 : le_store s1 s2 → le_store s2 s3 → le_store s1 s3.
Proof. intros [H1 H2] [H3 H4]. split; [congruence|auto]. Qed.

Lemma le_store_wf s' s : le_store s' s → wf s → wf s'.
Proof. intros [_ H] Hwf k Hk. apply Hwf. auto. Qed.

Lemma le_store_None s' s k :
  le_store s' s → objects s !! k = None → objects s' !! k = None.
Proof.
  intros [_ H] Hk. destruct (objects s' !! k) eqn:E; [|done].
  destruct (H k) as [? ?]; [by rewrite E|congruence].
Qed.

(** Running delete tasks, in any order: keys only go away, and every
    key whose deletion the backend accepts is gone. *)
Lemma run_all_deletes (l : list call) (s : t) :
  Forall (λ c, is_save c = false) l →
  le_store (run_all l s).1 s ∧
  ∀ key, Delete key ∈ l → components key ∉ locked s →
         objects (run_all l s).1 !! components key = None.
Proof.
  revert s. induction l as [|c l IH]; intros s Hl.
  { split; [apply le_store_refl|]. intros ? Hin. by apply elem_of_nil in Hin. }
  inversion_clear Hl as [|?? Hc Hl']. destruct c as [key|]; [|done].
  rewrite run_all_cons.
  change (perform (Delete key) s) with (delete s key). unfold delete.
  destruct (decide (components key ∈ locked s)) as [Hk|Hk].
  - specialize (IH s Hl'). destruct (run_all l s) as [s2 t2].
    destruct IH as [Hle Hgone]. split; [done|].
    intros key' [[= ->]|Hin]%elem_of_cons Hnl; [by destruct Hnl|auto].
  - set (s1 := Make (base.delete (components key) (objects s)) (locked s)).
    specialize (IH s1 Hl'). destruct (run_all l s1) as [s2 t2].
    destruct IH as [Hle Hgone]. cbn [fst] in *.
    assert (le_store s1 s) as Hle1.
    { split; [done|]. intros k. simpl. rewrite lookup_delete_is_Some. tauto. }
    split; [by eapply le_store_trans|].
    intros key' [[= ->]|Hin]%elem_of_cons Hnl; [|auto].
    eapply le_store_None; [done|]. simpl. apply lookup_delete_eq.
Qed.

(** Running any tasks: a key that is there afterwards was there
    before, or some write task put it there. *)
Lemma run_all_keys (l : list call) (s : t) k :
  locked (run_all l s).1 = locked s ∧
  (is_Some (objects (run_all l s).1 !! k) →
   is_Some (objects s !! k) ∨ ∃ key data, Save key data ∈ l ∧ components key = k).
Proof.
  revert s. induction l as [|c l IH]; intros s; [by auto|].
  rewrite run_all_cons.
  assert (∃ s1, (perform c s).1 = s1 ∧ locked s1 = locked s ∧
            (is_Some (objects s1 !! k) →
             is_Some (objects s !! k) ∨ ∃ key data, c = Save key data ∧ components key = k))
    as (s1 & Hs1 & Hl1 & Hk1).
  { eexists; split; [done|]. destruct c as [key|key data]; simpl.
    - unfold delete. destruct (decide _); simpl; [by auto|]. split; [done|].
      rewrite lookup_delete_is_Some. tauto.
    - split; [done|]. intros [<-|[_ ?]]%lookup_insert_is_Some; eauto. }
  destruct (perform c s) as [s1' o]. simpl in Hs1. subst s1'.
  specialize (IH s1). destruct (run_all l s1) as [s2 t2]. cbn [fst] in *.
  destruct IH as [Hl2 Hk2]. split; [congruence|].
  intros [[?|(key & data & -> & ?)]%Hk1|(key & data & ? & ?)]%Hk2.
  - by left.
  - right. exists key, data. split; [by left|done].
  - right. exists key, data. split; [by right|done].
Qed.

(** *** The clean-up walk on the reference backend *)

Variable cfg : settings.
Variable sched : list call → list call.
Hypothesis sched_perm : ∀ l, sched l ≡ₚ l.
Hypothesis workers_pos : (0 < MAX_WORKERS cfg)%Z.

#[local] Abbreviation delete_existing := (delete_existing_files_cloud cfg sched).
#[local] Abbreviation clears := (walk_clears cfg sched).

Lemma clears_subdirs n path (st0 : t) (ds : list string) :
  wf st0 →
  deep (S n) (components path) st0 →
  (∀ path' s, pending s = [] → wf (store s) → deep n (components path') (store s) →
              clears (S n) path' s) →
  ∀ (ds' : list string) (s : cloud),
    ds' ⊆ (listdir st0 path).1 →
    pending s = [] →
    le_store (store s) st0 →
    ∃ s' tr,
      for_each ds' (λ d, delete_existing (S n) (join path d)) s = (Ret tt, s', tr) ∧
      pending s' = [] ∧
      le_store (store s') (store s) ∧
      ∀ d r, d ∈ ds' → r ≠ [] → components path ++ d :: r ∉ locked st0 →
             objects (store s') !! (components path ++ d :: r) = None.
Proof.
  intros Hwf Hdeep IH. induction ds' as [|d ds' IHds]; intros s Hsub Hp Hle.
  { eexists _, _. rewrite for_each_nil. split_and!; [done|done|apply le_store_refl|].
    intros ?? Hin. by apply elem_of_nil in Hin. }
  assert (d ∈ (listdir st0 path).1) as Hd by (apply Hsub; left).
  apply listdir_dirs in Hd as (c' & r0 & Hkey).
  assert (is_component d = true) as Hcomp.
  { specialize (Hwf _ Hkey). rewrite Forall_app, Forall_cons in Hwf. tauto. }
  pose proof (components_join_child path d Hcomp) as Hjoin.
  destruct (IH (join path d) s) as (s1 & t1 & E1 & Hp1 & Hle1 & Hclr1).
  { done. }
  { eapply le_store_wf; eauto. }
  { intros r Hr. rewrite Hjoin, <- app_assoc in Hr. simpl in Hr.
    apply Hle in Hr. apply Hdeep in Hr. simpl in Hr. lia. }
  destruct (IHds s1) as (s2 & t2 & E2 & Hp2 & Hle2 & Hclr2).
  { intros x Hx. apply Hsub. by right. }
  { done. }
  { by eapply le_store_trans. }
  eexists _, _. rewrite for_each_cons, bind_run, E1, E2.
  split_and!; [done|done|by eapply le_store_trans|].
  intros d' r [->|Hin]%elem_of_cons Hr Hlock.
  - eapply le_store_None; [done|].
    specialize (Hclr1 r Hr). rewrite Hjoin, <- app_assoc in Hclr1. simpl in Hclr1.
    apply Hclr1. by rewrite (proj1 Hle).
  - by apply Hclr2.
Qed.

Lemma delete_existing_clears n :
  ∀ path (s : cloud),
    pending s = [] → wf (store s) → deep n (components path) (store s) →
    clears (S n) path s.
Proof.
  induction n as [|n IH]; intros path [st pd] Hp Hwf Hdeep; simpl in Hp; subst pd;
    cbn [store] in *; unfold walk_clears; rewrite delete_existing_step by done;
    cbn [store pending app].
  all: destruct (storage_exists st path) eqn:Hex.
  2,4: eexists _, _; split_and!; [done|done|apply le_store_refl|];
       intros r _ _; by apply exists_false.
  all: destruct (storage_listdir st path) as [ds fs] eqn:Hls; cbv zeta.
  all: pose proof (run_all_deletes (sched ((λ f, Delete (join path f)) <$> fs)) st) as Hrun.
  all: destruct (run_all _ st) as [st1 t_run]; cbn [fst] in Hrun.
  all: destruct Hrun as [Hle1 Hgone1];
    [rewrite sched_perm; apply Forall_fmap; by apply Forall_true|].
  all: assert (∀ c, is_Some (objects st !! (components path ++ [c])) →
                    components path ++ [c] ∉ locked st →
                    objects st1 !! (components path ++ [c]) = None) as Hfile.
  1,3: intros c Hc Hlock;
    assert (is_component c = true) as Hcomp
      by (specialize (Hwf _ Hc); rewrite Forall_app, Forall_singleton in Hwf; tauto);
    rewrite <- (components_join_child path c Hcomp);
    apply Hgone1; [|by rewrite components_join_child];
    rewrite sched_perm; apply list_elem_of_fmap; exists c; split; [done|];
    change fs with (ds, fs).2; rewrite <- Hls; by apply listdir_files.
  - (* no key lies deeper than [path] itself *)
    assert (ds = []) as ->.
    { destruct ds as [|d ds]; [done|].
      assert (d ∈ (listdir st path).1) as Hd
        by (change (listdir st path) with (storage_listdir st path); rewrite Hls; left).
      apply listdir_dirs in Hd as (c' & r0 & Hkey). apply Hdeep in Hkey.
      simpl in Hkey. lia. }
    rewrite for_each_nil. eexists _, _. split_and!; [done|done|done|].
    intros r Hr Hlock. destruct (objects st !! (components path ++ r)) eqn:Hk.
    + assert (length r ≤ 0) by (apply Hdeep; by rewrite Hk).
      destruct r; [done|simpl in *; lia].
    + by eapply le_store_None.
  - destruct (clears_subdirs n path st ds Hwf Hdeep IH ds (Cloud st1 []))
      as (s2 & t2 & E2 & Hp2 & Hle2 & Hclr2).
    { change ds with (ds, fs).1. rewrite <- Hls. done. }
    { done. }
    { done. }
    rewrite E2. eexists _, _. split_and!; [done|done|by eapply le_store_trans|].
    intros r Hr Hlock. destruct (objects st !! (components path ++ r)) eqn:Hk.
    + destruct r as [|c [|c' r]]; [done| |].
      * eapply le_store_None; [done|]. apply Hfile; [by rewrite Hk|done].
      * apply Hclr2; [|done|done].
        change ds with (ds, fs).1. rewrite <- Hls. apply listdir_dirs.
        exists c', r. by rewrite Hk.
    + eapply le_store_None; [by eapply le_store_trans|done].
Qed.

(** Well-formedness is what the interface maintains: a store built
    from named blobs has it, and [save] and [delete] keep it. *)
Lemma wf_of_list l : wf (of_list l).
Proof.
  intros k [v Hk]. unfold of_list in Hk. cbn [objects] in Hk.
  apply elem_of_list_to_map_2, list_elem_of_fmap in Hk as ([key data] & [= -> _] & _).
  apply components_are_components.
Qed.

Lemma wf_save s key data : wf s → wf (save s key data).1.
Proof.
  intros Hwf k. unfold save. cbn [fst objects].
  intros [<-|[_ Hk]]%lookup_insert_is_Some; [apply components_are_components|by apply Hwf].
Qed.

Lemma wf_delete s key : wf s → wf (delete s key).1.
Proof.
  intros Hwf k. unfold delete. destruct (decide _); cbn [fst objects]; [apply Hwf|].
  intros [_ Hk]%lookup_delete_is_Some. by apply Hwf.
Qed.

Lemma wf_check (st : t) :
  forallb (forallb is_component) (keys st) = true → wf st.
Proof.
  intros H k Hk%elem_of_keys%list_elem_of_In.
  rewrite forallb_forall in H. specialize (H k Hk).
  apply Forall_forall. intros c Hc%list_elem_of_In.
  rewrite forallb_forall in H. auto.
Qed.

Lemma depth_check (st : t) n :
  forallb (λ k, length k <=? n) (keys st) = true →
  ∀ k, is_Some (objects st !! k) → length k ≤ n.
Proof.
  intros H k Hk%elem_of_keys%list_elem_of_In.
  rewrite forallb_forall in H. by apply Nat.leb_le, H.
Qed.

(** C5, as the code has it. On the reference backend, with a valid
    archive and enough recursion budget for the depth of the store:
    the run returns, and of the files that were below the destination
    prefix before, none whose deletion the backend accepts is there
    afterwards unless a surviving entry of the new archive is written
    under the same key. (A file whose delete task fails stays: the
    failure is logged by the done callback and nothing else happens.) *)
Theorem unpack_clears_deletable_prior_files n pkg z path (st : t) :
  content pkg = ZipArchive z →
  wf st →
  (∀ k, is_Some (objects st !! k) → length k ≤ n) →
  ∃ s' tr,
    unpack_and_upload_on_cloud cfg sched (S n) pkg path (Cloud st []) = (Ret tt, s', tr) ∧
    ∀ k, is_Some (objects st !! k) →
         below path k →
         k ∉ locked st →
         is_Some (objects (store s') !! k) →
         rewritten z path k.
Proof.
  intros Hz Hwf Hn. rewrite (unpack_run cfg sched (S n) pkg z path _ workers_pos Hz).
  destruct (delete_existing_clears n path (Cloud st [])) as (s1 & t1 & E & Hp & Hle & Hclr);
    [done|done| |].
  { intros r Hr. apply Hn in Hr. rewrite length_app in Hr. lia. }
  rewrite E, Hp. cbn [app store]. cbv zeta.
  pose proof (run_all_keys (sched (upload_calls z path (namelist z))) (store s1)) as Hkeys.
  destruct (run_all _ (store s1)) as [st' t2]. cbn [fst] in Hkeys.
  eexists _, _. split; [reflexivity|]. cbn [store].
  intros k Hk (r & Hr & ->) Hlock Hafter.
  destruct (Hkeys (components path ++ r)) as [_ [Hold|(key & data & Hin & Hkey)]]; [done|..].
  - rewrite (Hclr r Hr Hlock) in Hold. by destruct Hold.
  - rewrite sched_perm in Hin. unfold upload_calls in Hin.
    apply list_elem_of_fmap in Hin as (e & [= -> ->] & [Hs He]%list_elem_of_filter).
    by exists e.
Qed.

End KeyStoreLemmas.

(** ** The local file system *)

Section LocalFSLemmas.
Import LocalFS.

Lemma lookup_path_app n p q :
  lookup_path n (p ++ q) = lookup_path n p ≫= λ d, lookup_path d q.
Proof.
  revert n. induction p as [|c p IH]; intros n; simpl; [done|].
  destruct n as [|m]; [done|]. destruct (m !! c); simpl; [apply IH|done].
Qed.

Lemma dirname_app p q : q ≠ [] → dirname (p ++ q) = p ++ dirname q.
Proof. intros. by apply removelast_app. Qed.

Lemma dirname_snoc p c : dirname (p ++ [c]) = p.
Proof. apply removelast_last. Qed.

Lemma dirname_last p : p ≠ [] → ∃ c, p = dirname p ++ [c].
Proof.
  intros Hp. exists (List.last p EmptyString). by apply app_removelast_last.
Qed.

Lemma dirname_cons c c' p : dirname (c :: c' :: p) = c :: dirname (c' :: p).
Proof. reflexivity. Qed.

(** An entry that resolves sits in a directory. *)
Lemma lookup_path_parent n p x :
  p ≠ [] → lookup_path n p = Some x → ∃ m, lookup_path n (dirname p) = Some (Dir m).
Proof.
  intros Hp. destruct (dirname_last p Hp) as [c Hc]. rewrite Hc at 1.
  rewrite lookup_path_app. destruct (lookup_path n (dirname p)) as [[|m]|]; simpl; eauto; done.
Qed.

Lemma set_at_dir q v m : ∃ m', set_at q v (Dir m) = Dir m'.
Proof. destruct q as [|c [|c' q]]; simpl; eauto. Qed.

(** After [set_at p v], the entry at [p] is [v]. *)
Lemma lookup_set_at n p v m :
  p ≠ [] → lookup_path n (dirname p) = Some (Dir m) →
  lookup_path (set_at p v n) p = v.
Proof.
  revert n. induction p as [|c p IH]; intros n Hp Hd; [done|].
  destruct p as [|c' p].
  - simpl in Hd. injection Hd as ->. simpl.
    destruct v; [rewrite lookup_insert_eq|rewrite lookup_delete_eq]; done.
  - rewrite dirname_cons in Hd. cbn [lookup_path] in Hd.
    destruct n as [|m0]; [done|]. destruct (m0 !! c) as [n1|] eqn:E; [|done].
    simpl in Hd. cbn [set_at lookup_path]. rewrite lookup_alter_eq, E. simpl.
    by apply IH.
Qed.

(** After [set_at (p ++ q) v], the subtree at [p] is the old one with
    [set_at q v] applied. *)
Lemma lookup_set_at_below n p q v d :
  q ≠ [] →
  lookup_path n p = Some d →
  lookup_path (set_at (p ++ q) v n) p = Some (set_at q v d).
Proof.
  intros Hq. revert n. induction p as [|c p IH]; intros n Hd.
  - simpl in *. congruence.
  - cbn [lookup_path] in Hd. destruct n as [|m0]; [done|].
    destruct (m0 !! c) as [n1|] eqn:E; [|done]. simpl in Hd.
    change ((c :: p) ++ q) with (c :: (p ++ q)).
    assert (set_at (c :: p ++ q) v (Dir m0) = Dir (alter (set_at (p ++ q) v) c m0)) as ->.
    { simpl. destruct (p ++ q) eqn:Epq; [|done].
      by apply app_eq_nil in Epq as [_ ->]. }
    cbn [lookup_path]. rewrite lookup_alter_eq, E. simpl. by apply IH.
Qed.

(** A file found after [set_at p v] was there before, or came with [v]. *)
Lemma lookup_set_at_file n p v q data :
  lookup_path (set_at p v n) q = Some (File data) →
  lookup_path n q = Some (File data) ∨
  ∃ q', q = p ++ q' ∧ v ≫= (λ x, lookup_path x q') = Some (File data).
Proof.
  revert n q. induction p as [|c p IH]; intros n q; [by left|].
  destruct n as [|m]; [by left|]. destruct p as [|c' p].
  - cbn [set_at]. destruct q as [|c0 q]; [by destruct v|].
    cbn [lookup_path]. destruct (decide (c0 = c)) as [->|Hne].
    + intros H. right. exists q. split; [done|].
      destruct v; [by rewrite lookup_insert_eq in H|by rewrite lookup_delete_eq in H].
    + intros H. left. destruct v;
        [by rewrite lookup_insert_ne in H|by rewrite lookup_delete_ne in H].
  - cbn [set_at]. destruct q as [|c0 q]; [done|].
    cbn [lookup_path]. destruct (decide (c0 = c)) as [->|Hne].
    + rewrite lookup_alter_eq. destruct (m !! c) as [n1|]; [|done]. simpl.
      intros [H|(q' & -> & H)]%IH; [by left|]. right. by exists q'.
    + rewrite lookup_alter_ne by done. by left.
Qed.

#[local] Arguments set_at : simpl never.

Lemma mkdir_nonempty p root :
  p ≠ [] →
  mkdir p root =
  match lookup_path root (dirname p) with
  | None => (Raise FileNotFoundError, root, [])
  | Some (File _) => (Raise NotADirectoryError, root, [])
  | Some (Dir _) =>
      match lookup_path root p with
      | Some _ => (Raise FileExistsError, root, [])
      | None => (Ret tt, set_at p (Some empty_dir) root, [])
      end
  end.
Proof. by destruct p. Qed.

Lemma write_file_nonempty p data root :
  p ≠ [] →
  write_file p data root =
  match lookup_path root (dirname p) with
  | None => (Raise FileNotFoundError, root, [])
  | Some (File _) => (Raise NotADirectoryError, root, [])
  | Some (Dir _) =>
      match lookup_path root p with
      | Some (Dir _) => (Raise IsADirectoryError, root, [])
      | _ => (Ret tt, set_at p (Some (File data)) root, [])
      end
  end.
Proof. by destruct p. Qed.

Lemma makedirs_upto_eq n name ok :
  makedirs_upto n name ok =
  (match n with
   | O => mret tt
   | S n' =>
       there ← path_exists (dirname name);
       if negb there then ignore_file_exists (makedirs_upto n' (dirname name) ok)
       else mret tt
   end) ≫= λ _, mkdir_exist_ok name ok.
Proof. by destruct n. Qed.

(** *** Extraction is local to the destination *)

Section Sim.
Variable p : list string.

Lemma lookup_below fs m q :
  lookup_path fs p = Some (Dir m) →
  lookup_path fs (p ++ q) = lookup_path (Dir m) q.
Proof. intros H. by rewrite lookup_path_app, H. Qed.

Lemma sim_ret {A} (a : A) : sim p (mret a) (mret a).
Proof. intros fs m H. by exists (Ret a), fs, [], m. Qed.

Lemma sim_raise {A} e : sim p (@raise _ _ A e) (raise e).
Proof. intros fs m H. by exists (Raise e), fs, [], m. Qed.

Lemma sim_bind {A B} (m1 m2 : IO A) (f1 f2 : A → IO B) :
  sim p m1 m2 → (∀ a, sim p (f1 a) (f2 a)) → sim p (m1 ≫= f1) (m2 ≫= f2).
Proof.
  intros Hm Hf fs m H. destruct (Hm fs m H) as (r & fs1 & t1 & m1' & E1 & E2 & H1).
  rewrite !bind_run, E1, E2. destruct r as [a| |].
  - destruct (Hf a fs1 m1' H1) as (r2 & fs2 & t2 & m2' & E3 & E4 & H2).
    rewrite E3, E4. by exists r2, fs2, (t1 ++ t2), m2'.
  - by eexists _, _, _, _.
  - by eexists _, _, _, _.
Qed.

Lemma sim_for_each {A} (l : list A) (b1 b2 : A → IO unit) :
  (∀ x, sim p (b1 x) (b2 x)) → sim p (for_each l b1) (for_each l b2).
Proof.
  intros Hb. induction l as [|x l IH]; [apply sim_ret|].
  apply sim_bind; [apply Hb|]. by intros _.
Qed.

Lemma sim_path_exists q : sim p (path_exists (p ++ q)) (path_exists q).
Proof.
  intros fs m H. unfold path_exists. rewrite (lookup_below fs m q H).
  by eexists _, _, _, _.
Qed.

Lemma sim_isdir q : sim p (isdir (p ++ q)) (isdir q).
Proof.
  intros fs m H. unfold isdir. rewrite (lookup_below fs m q H).
  by eexists _, _, _, _.
Qed.

Lemma sim_mkdir q : sim p (mkdir (p ++ q)) (mkdir q).
Proof.
  intros fs m H. destruct q as [|c q].
  - rewrite app_nil_r. destruct p as [|c0 p0] eqn:Ep.
    + simpl in H. injection H as ->. by eexists _, _, _, _.
    + rewrite <- Ep in *. assert (p ≠ []) as Hp by (by subst).
      destruct (lookup_path_parent _ _ _ Hp H) as [m0 H0].
      rewrite mkdir_nonempty, H0, H by done. by eexists _, _, _, _.
  - assert (p ++ c :: q ≠ []) as Hpq by (by destruct p).
    rewrite !mkdir_nonempty, dirname_app by done.
    rewrite !(lookup_below fs m) by done.
    destruct (lookup_path (Dir m) (dirname (c :: q))) as [[|m0]|];
      [by eexists _, _, _, _| |by eexists _, _, _, _].
    destruct (lookup_path (Dir m) (c :: q)); [by eexists _, _, _, _|].
    destruct (set_at_dir (c :: q) (Some empty_dir) m) as [m' Hm'].
    eexists _, _, _, m'. rewrite Hm'. split_and!; [done..|].
    rewrite (lookup_set_at_below fs p (c :: q) _ (Dir m)) by done.
    by rewrite Hm'.
Qed.

Lemma sim_write_file q data : sim p (write_file (p ++ q) data) (write_file q data).
Proof.
  intros fs m H. destruct q as [|c q].
  - rewrite app_nil_r. destruct p as [|c0 p0] eqn:Ep.
    + simpl in H. injection H as ->. by eexists _, _, _, _.
    + rewrite <- Ep in *. assert (p ≠ []) as Hp by (by subst).
      destruct (lookup_path_parent _ _ _ Hp H) as [m0 H0].
      rewrite write_file_nonempty, H0, H by done. by eexists _, _, _, _.
  - assert (p ++ c :: q ≠ []) as Hpq by (by destruct p).
    rewrite !write_file_nonempty, dirname_app by done.
    rewrite !(lookup_below fs m) by done.
    destruct (lookup_path (Dir m) (dirname (c :: q))) as [[|m0]|];
      [by eexists _, _, _, _| |by eexists _, _, _, _].
    destruct (set_at_dir (c :: q) (Some (File data)) m) as [m' Hm'].
    assert (lookup_path (set_at (p ++ c :: q) (Some (File data)) fs) p = Some (Dir m')) as Hl
      by (rewrite (lookup_set_at_below fs p (c :: q) _ (Dir m)) by done; by rewrite Hm').
    destruct (lookup_path (Dir m) (c :: q)) as [[|]|];
      [|by eexists _, _, _, _|]; eexists _, _, _, m'; by rewrite Hm'.
Qed.

Lemma sim_mkdir_exist_ok q ok :
  sim p (mkdir_exist_ok (p ++ q) ok) (mkdir_exist_ok q ok).
Proof.
  intros fs m H. unfold mkdir_exist_ok.
  destruct (sim_mkdir q fs m H) as (r & fs1 & t1 & m1 & E1 & E2 & H1).
  rewrite E1, E2. destruct r as [[]|e|]; [by eexists _, _, _, _| |by eexists _, _, _, _].
  destruct (negb ok); [by eexists _, _, _, _|].
  rewrite (lookup_below fs1 m1 q H1).
  destruct (lookup_path (Dir m1) q) as [[|]|]; by eexists _, _, _, _.
Qed.

Lemma sim_ignore_file_exists (m1 m2 : IO unit) :
  sim p m1 m2 → sim p (ignore_file_exists m1) (ignore_file_exists m2).
Proof.
  intros Hm fs m H. unfold ignore_file_exists.
  destruct (Hm fs m H) as (r & fs1 & t1 & m1' & E1 & E2 & H1).
  rewrite E1, E2. destruct r as [[]|[]|]; by eexists _, _, _, _.
Qed.

Lemma sim_makedirs_upto ok q :
  ∀ n, length q ≤ n →
       sim p (makedirs_upto n (p ++ q) ok) (makedirs_upto (length q) q ok).
Proof.
  induction q as [|c q IH] using rev_ind; intros n Hn.
  - rewrite app_nil_r. simpl length.
    rewrite (makedirs_upto_eq n), (makedirs_upto_eq 0).
    apply sim_bind; [|intros _; rewrite <- (app_nil_r p) at 2; apply sim_mkdir_exist_ok].
    destruct n as [|n]; [apply sim_ret|].
    intros fs m H. rewrite bind_run. unfold path_exists.
    assert (is_Some (lookup_path fs (dirname p))) as Hd.
    { destruct p as [|c0 p0] eqn:Ep; [done|]. rewrite <- Ep in *.
      destruct (lookup_path_parent fs p _ ltac:(by subst) H) as [m0 ->]. done. }
    rewrite bool_decide_eq_true_2 by done. by exists (Ret tt), fs, [], m.
  - rewrite length_app in *. simpl in Hn. destruct n as [|n]; [lia|].
    replace (length q + length [c]) with (S (length q)) by (simpl; lia).
    rewrite (makedirs_upto_eq (S n)), (makedirs_upto_eq (S (length q))).
    rewrite app_assoc, !dirname_snoc.
    apply sim_bind; [|intros _; rewrite <- app_assoc; apply sim_mkdir_exist_ok].
    apply sim_bind; [apply sim_path_exists|].
    intros [|]; cbn [negb]; [apply sim_ret|].
    apply sim_ignore_file_exists, IH. lia.
Qed.

Lemma sim_extract_member m : sim p (extract_member m p) (extract_member m []).
Proof.
  unfold extract_member. cbn [app]. apply sim_bind.
  - destruct (arcname m) as [|c a] eqn:Ea using rev_ind.
    + rewrite app_nil_r. intros fs m0 H. rewrite !bind_run. unfold path_exists.
      assert (is_Some (lookup_path fs (dirname p))) as Hd.
      { destruct p as [|c0 p0] eqn:Ep; [done|]. rewrite <- Ep in *.
        destruct (lookup_path_parent fs p _ ltac:(by subst) H) as [m1 ->]. done. }
      rewrite bool_decide_eq_true_2 by done. simpl.
      by exists (Ret tt), fs, [], m0.
    + clear IHa. rewrite app_assoc, !dirname_snoc.
      apply sim_bind; [apply sim_path_exists|].
      intros [|]; cbn [negb]; [apply sim_ret|].
      unfold makedirs. apply sim_makedirs_upto. rewrite length_app. lia.
  - intros _. destruct (is_dir m).
    + apply sim_bind; [apply sim_isdir|].
      intros [|]; cbn [negb]; [apply sim_ret|apply sim_mkdir].
    + apply sim_write_file.
Qed.

Lemma sim_extractall z : sim p (extractall z p) (extractall z []).
Proof.
  unfold extractall. apply sim_for_each. intros n.
  destruct (getinfo z n); [apply sim_extract_member|apply sim_raise].
Qed.

End Sim.

(** *** Making the destination *)

Lemma lookup_empty_dir q x : lookup_path empty_dir q = Some x → q = [] ∧ x = empty_dir.
Proof. destruct q; simpl; [by intros [= <-]|by rewrite lookup_empty]. Qed.

Lemma set_at_keeps_no_file p v fs :
  (∀ q data, v ≫= (λ x, lookup_path x q) ≠ Some (File data)) →
  ∀ q data, lookup_path (set_at p v fs) q = Some (File data) →
            lookup_path fs q = Some (File data).
Proof.
  intros Hv q data [H|(q' & _ & H)]%lookup_set_at_file; [done|]. by apply Hv in H.
Qed.

Lemma empty_dir_no_file q data :
  Some empty_dir ≫= (λ x, lookup_path x q) ≠ Some (File data).
Proof. simpl. by intros [_ [=]]%lookup_empty_dir. Qed.

Lemma makedirs_creates n :
  ∀ p fs,
    length p ≤ n → lookup_path fs p = None → no_file_on p fs →
    ∃ fs', makedirs_upto n p false fs = (Ret tt, fs', []) ∧
           lookup_path fs' p = Some empty_dir ∧
           ∀ q data, lookup_path fs' q = Some (File data) →
                     lookup_path fs q = Some (File data).
Proof.
  induction n as [|n IH]; intros p fs Hn Hp Hnf.
  { destruct p; [done|simpl in Hn; lia]. }
  assert (p ≠ []) as Hne by (by intros ->).
  destruct (dirname_last p Hne) as [c Hc].
  assert (∀ fs0 m0, lookup_path fs0 (dirname p) = Some (Dir m0) →
                    lookup_path fs0 p = None →
                    mkdir_exist_ok p false fs0 =
                    (Ret tt, set_at p (Some empty_dir) fs0, []) ∧
                    lookup_path (set_at p (Some empty_dir) fs0) p = Some empty_dir)
    as Hmk.
  { intros fs0 m0 H0 H1. unfold mkdir_exist_ok.
    rewrite mkdir_nonempty, H0, H1 by done. split; [done|].
    by eapply lookup_set_at. }
  rewrite makedirs_upto_eq, !bind_run. unfold path_exists at 1.
  destruct (lookup_path fs (dirname p)) as [x|] eqn:Hd.
  - rewrite bool_decide_eq_true_2 by done. cbn [negb].
    destruct x as [data|m0].
    { destruct (Hnf (dirname p) data); [|done]. exists [c]. by rewrite <- Hc. }
    cbn. destruct (Hmk fs m0 Hd Hp) as [-> Hl].
    eexists. split_and!; [done|done|].
    apply set_at_keeps_no_file, empty_dir_no_file.
  - rewrite bool_decide_eq_false_2 by (by intros [??]). cbn [negb].
    destruct (IH (dirname p) fs) as (fs1 & E1 & Hl1 & Hf1).
    { rewrite Hc, length_app in Hn. simpl in Hn. lia. }
    { done. }
    { intros q data Hq. apply Hnf. etrans; [done|]. exists [c]. by rewrite <- Hc. }
    unfold ignore_file_exists. rewrite E1. cbn.
    destruct (Hmk fs1 ∅ Hl1) as [-> Hl].
    { rewrite Hc, lookup_path_app, Hl1. simpl. by rewrite lookup_empty. }
    eexists. split_and!; [done|done|].
    intros q data H. apply Hf1. revert H.
    apply set_at_keeps_no_file, empty_dir_no_file.
Qed.

Lemma makedirs_ret n p fs fs' t :
  p ≠ [] → makedirs_upto n p false fs = (Ret tt, fs', t) →
  lookup_path fs' p = Some empty_dir.
Proof.
  intros Hp. rewrite makedirs_upto_eq, bind_run.
  destruct (_ fs) as [[[[]| |] fs0] t0]; [|done..].
  unfold mkdir_exist_ok. rewrite mkdir_nonempty by done.
  destruct (lookup_path fs0 (dirname p)) as [[|m0]|] eqn:Hd; [done| |done].
  destruct (lookup_path fs0 p) eqn:Hl; [done|]. cbn. intros [= <- _].
  by eapply lookup_set_at.
Qed.

(** [delete_path] followed by [makedirs]: whatever was at a
    destination that is a directory or can be made one, an empty
    directory is there afterwards, and nothing has been logged. *)
Lemma destination_reset p fs :
  p ≠ [] → no_file_on p fs →
  ∃ fs', (delete_path p ≫= λ _, makedirs p false) fs = (Ret tt, fs', []) ∧
         lookup_path fs' p = Some empty_dir.
Proof.
  intros Hp Hnf. rewrite bind_run. unfold delete_path. rewrite bind_run.
  unfold path_exists at 1.
  assert (∃ fs0, lookup_path fs0 p = None ∧ no_file_on p fs0 ∧
            (let '(r, s2, t2) :=
               (if bool_decide (is_Some (lookup_path fs p)) then rmtree p else mret tt) fs
             in (r, s2, [] ++ t2)) = (Ret tt, fs0, [])) as (fs0 & H0 & Hnf0 & ->).
  { destruct (lookup_path fs p) as [x|] eqn:Hl.
    - rewrite bool_decide_eq_true_2 by done. unfold rmtree. rewrite Hl.
      destruct x as [data|m]; [by destruct (Hnf p data)|].
      destruct p as [|c p0] eqn:Ep; [done|]. rewrite <- Ep in *.
      destruct (lookup_path_parent fs p _ Hp Hl) as [m0 Hd].
      exists (set_at p None fs). split_and!; [by eapply lookup_set_at| |done].
      intros q data Hq H. apply (Hnf q data Hq). revert H.
      by apply set_at_keeps_no_file.
    - rewrite bool_decide_eq_false_2 by (by intros [??]). by exists fs. }
  destruct (makedirs_creates (length p) p fs0) as (fs' & E & Hl & _); [done..|].
  unfold makedirs. rewrite E. by exists fs'.
Qed.

Lemma no_file_on_check p fs :
  forallb (λ i, match lookup_path fs (take i p) with
                | Some (File _) => false
                | _ => true
                end) (seq 0 (S (length p))) = true →
  no_file_on p fs.
Proof.
  intros H q data [r ->] Hq. rewrite forallb_forall in H.
  specialize (H (length q)). rewrite take_app_length, Hq in H.
  assert (false = true) as [=]. apply H. apply in_seq.
  rewrite length_app. lia.
Qed.

Lemma dir_no_file_on p fs m : lookup_path fs p = Some (Dir m) → no_file_on p fs.
Proof.
  intros H q data [r ->] Hq. rewrite lookup_path_app, Hq in H. simpl in H.
  destruct r; simpl in H; done.
Qed.

(** *** Where the files of an extraction come from *)

Section FilesFrom.
Variable z : list zipinfo.

#[local] Abbreviation inv := (holds (files_from z) (λ _ : log_record, True)).

Lemma inv_path_exists q : inv (path_exists q).
Proof. intros s r s' t HI [= <- <- <-]. auto. Qed.

Lemma inv_isdir q : inv (isdir q).
Proof. intros s r s' t HI [= <- <- <-]. auto. Qed.

Lemma inv_mkdir q : inv (mkdir q).
Proof.
  intros s r s' t HI. destruct q as [|c q]; [by intros [= <- <- <-]|].
  rewrite mkdir_nonempty by done.
  destruct (lookup_path s (dirname (c :: q))) as [[|]|]; [by intros [= <- <- <-]| |by intros [= <- <- <-]].
  destruct (lookup_path s (c :: q)); intros [= <- <- <-]; [done|].
  split; [|done]. intros q' data H. apply HI. revert H.
  apply set_at_keeps_no_file, empty_dir_no_file.
Qed.

Lemma inv_mkdir_exist_ok q ok : inv (mkdir_exist_ok q ok).
Proof.
  intros s r s' t HI. unfold mkdir_exist_ok.
  destruct (mkdir q s) as [[r1 s1] t1] eqn:E.
  destruct (inv_mkdir q s r1 s1 t1 HI E) as [HI1 HQ1].
  destruct r1; [by intros [= <- <- <-]| |by intros [= <- <- <-]].
  destruct (negb ok); [by intros [= <- <- <-]|].
  destruct (lookup_path s1 q) as [[|]|]; by intros [= <- <- <-].
Qed.

Lemma inv_ignore_file_exists (m : IO unit) : inv m → inv (ignore_file_exists m).
Proof.
  intros Hm s r s' t HI. unfold ignore_file_exists.
  destruct (m s) as [[r1 s1] t1] eqn:E.
  destruct (Hm s r1 s1 t1 HI E) as [HI1 HQ1].
  destruct r1 as [|[]|]; by intros [= <- <- <-].
Qed.

Lemma inv_makedirs_upto n q ok : inv (makedirs_upto n q ok).
Proof.
  revert q. induction n as [|n IH]; intros q; rewrite makedirs_upto_eq.
  - apply holds_bind; [apply holds_ret|]. intros _. apply inv_mkdir_exist_ok.
  - apply holds_bind; [|intros _; apply inv_mkdir_exist_ok].
    apply holds_bind; [apply inv_path_exists|].
    intros [|]; cbn [negb]; [apply holds_ret|]. apply inv_ignore_file_exists, IH.
Qed.

Lemma inv_write_file m : m ∈ z → inv (write_file (arcname m) (payload m)).
Proof.
  intros Hm s r s' t HI. destruct (arcname m) as [|c q] eqn:Ea; [by intros [= <- <- <-]|].
  rewrite write_file_nonempty by done.
  destruct (lookup_path s (dirname (c :: q))) as [[|]|];
    [by intros [= <- <- <-]| |by intros [= <- <- <-]].
  assert (files_from z (set_at (c :: q) (Some (File (payload m))) s)) as Hnew.
  { intros q' data [H|(q0 & -> & H)]%lookup_set_at_file; [by apply HI|].
    simpl in H. destruct q0; simpl in H; [|done]. injection H as <-.
    exists m. by rewrite app_nil_r. }
  destruct (lookup_path s (c :: q)) as [[|]|]; by intros [= <- <- <-].
Qed.

Lemma inv_extract_member m : m ∈ z → inv (extract_member m []).
Proof.
  intros Hm. unfold extract_member. cbn [app]. apply holds_bind.
  - apply holds_bind; [apply inv_path_exists|].
    intros [|]; cbn [negb]; [apply holds_ret|apply inv_makedirs_upto].
  - intros _. destruct (is_dir m).
    + apply holds_bind; [apply inv_isdir|].
      intros [|]; cbn [negb]; [apply holds_ret|apply inv_mkdir].
    + by apply inv_write_file.
Qed.

Lemma getinfo_member n m : getinfo z n = Some m → m ∈ z.
Proof.
  unfold getinfo. intros [l' Hl]%last_Some.
  assert (m ∈ filter (λ m, filename m = n) z) as [_ ?]%list_elem_of_filter; [|done].
  rewrite Hl. apply elem_of_app. right. by left.
Qed.

Lemma inv_extractall : inv (extractall z []).
Proof.
  unfold extractall. apply holds_for_each. intros n _.
  destruct (getinfo z n) as [m|] eqn:E; [|apply holds_raise].
  apply inv_extract_member. by eapply getinfo_member.
Qed.

(** Every file of [extracted z] is a member of [z]. *)
Lemma extracted_files : files_from z (extracted z).2.
Proof.
  unfold extracted. destruct (extractall z [] empty_dir) as [[r n] t] eqn:E.
  destruct (inv_extractall empty_dir r n t) as [H _]; [|done|done].
  intros q data [_ [=]]%lookup_empty_dir.
Qed.

End FilesFrom.

(** *** What the specification states about the local path *)

(** A call that returns leaves a directory at the destination. *)
Lemma unpack_local_ret pkg p fs fs1 t :
  unpack_package_local_path pkg p fs = (Ret tt, fs1, t) →
  p ≠ [] ∧ ∃ m, lookup_path fs1 p = Some (Dir m).
Proof.
  unfold unpack_package_local_path. rewrite bind_run.
  destruct (delete_path p fs) as [[r0 fsa] ta] eqn:Ea.
  assert (r0 = Ret tt → p ≠ []) as Hp.
  { intros -> ->. revert Ea. unfold delete_path. rewrite bind_run. cbn.
    unfold rmtree. cbn. by destruct fs. }
  destruct r0 as [[]| |]; [|done..]. specialize (Hp eq_refl).
  rewrite bind_run. destruct (makedirs p false fsa) as [[[[]| |] fsb] tb] eqn:Eb; [|done..].
  apply makedirs_ret in Eb; [|done].
  destruct (negb (is_zipfile pkg)).
  - cbn. intros [= <- _]. eauto.
  - unfold ZipFile. destruct (content pkg) as [| |z]; [done..|].
    rewrite bind_run. cbn -[extractall]. rewrite bind_run. cbn -[extractall].
    destruct (sim_extractall p z fsb ∅ Eb) as (r & fs' & t' & m' & E1 & _ & Hl).
    rewrite E1. intros [= _ <- _]. eauto.
Qed.

(** A call with a valid archive on a destination that is a directory,
    or can be made one: at the destination it leaves what extracting
    the archive into an empty directory leaves, and it ends the way
    that extraction ends. *)
Lemma unpack_local_valid pkg z p fs :
  content pkg = ZipArchive z → p ≠ [] → no_file_on p fs →
  ∃ fs' t, unpack_package_local_path pkg p fs = ((extracted z).1, fs', t) ∧
           lookup_path fs' p = Some (extracted z).2.
Proof.
  intros Hz Hp Hnf. destruct (destination_reset p fs Hp Hnf) as (fsb & E & Hl).
  rewrite bind_run in E. unfold unpack_package_local_path. rewrite bind_run.
  destruct (delete_path p fs) as [[[[]| |] fsa] ta]; [|done..].
  rewrite bind_run. destruct (makedirs p false fsa) as [[r1 fs1] t1].
  injection E as -> -> _. unfold is_zipfile, ZipFile. rewrite Hz. cbn [negb].
  rewrite bind_run. cbn -[extractall]. rewrite bind_run. cbn -[extractall].
  destruct (sim_extractall p z fsb ∅ Hl) as (r & fs' & t' & m' & E1 & E2 & Hl').
  rewrite E1. unfold extracted, empty_dir. rewrite E2. cbn. eauto.
Qed.

(** A call on a destination that is a directory, or can be made one,
    leaves a directory there, however it ends. *)
Lemma unpack_local_leaves_dir pkg p fs :
  p ≠ [] → no_file_on p fs →
  ∃ r fs' t m, unpack_package_local_path pkg p fs = (r, fs', t) ∧
               lookup_path fs' p = Some (Dir m).
Proof.
  intros Hp Hnf. destruct (destination_reset p fs Hp Hnf) as (fsb & E & Hl).
  rewrite bind_run in E. unfold unpack_package_local_path. rewrite bind_run.
  destruct (delete_path p fs) as [[[[]| |] fsa] ta]; [|done..].
  rewrite bind_run. destruct (makedirs p false fsa) as [[r1 fs1] t1].
  injection E as -> -> _. destruct (negb (is_zipfile pkg)).
  - cbn. eauto 6.
  - unfold ZipFile. destruct (content pkg) as [| |z]; [cbn; eauto 6..|].
    rewrite bind_run. cbn -[extractall]. rewrite bind_run. cbn -[extractall].
    destruct (sim_extractall p z fsb ∅ Hl) as (r & fs' & t' & m' & E1 & _ & Hl').
    rewrite E1. eauto 6.
Qed.

(** C6. An upload that is not a zip container, unpacked to a
    destination that is a directory or can be made one: the call
    returns, it has logged one error naming the upload, and the
    destination is an empty directory — whatever was there before the
    call is gone, although the archive was never usable. *)
Theorem unpack_local_not_a_zip_leaves_empty_dir pkg p fs :
  is_zipfile pkg = false → p ≠ [] → no_file_on p fs →
  ∃ fs',
    unpack_package_local_path pkg p fs =
      (Ret tt, fs', [LogRecord ERROR "%s is not a valid zip" [PStr (name pkg)]]) ∧
    lookup_path fs' p = Some (Dir ∅).
Proof.
  intros Hz Hp Hnf. destruct (destination_reset p fs Hp Hnf) as (fsb & E & Hl).
  rewrite bind_run in E. unfold unpack_package_local_path. rewrite bind_run.
  destruct (delete_path p fs) as [[[[]| |] fsa] ta]; [|done..].
  rewrite bind_run. destruct (makedirs p false fsa) as [[r1 fs1] t1].
  injection E as -> -> E. apply app_eq_nil in E as [-> ->].
  rewrite Hz. cbn. eauto.
Qed.

(** C10. A destination that does not exist: [delete_path] returns
    without touching the tree or logging, so the clean-up step of
    [unpack_package_local_path] cannot be what raises — if the call
    raises before looking at the archive, it is [makedirs] raising —
    and, where the destination can be made, the call leaves a
    directory there. *)
Theorem delete_path_absent_is_noop pkg p fs :
  lookup_path fs p = None →
  delete_path p fs = (Ret tt, fs, []) ∧
  (∀ e fs' t, makedirs p false fs = (Raise e, fs', t) →
              unpack_package_local_path pkg p fs = (Raise e, fs', t)) ∧
  (no_file_on p fs →
   ∃ r fs' t m, unpack_package_local_path pkg p fs = (r, fs', t) ∧
                lookup_path fs' p = Some (Dir m)).
Proof.
  intros Hl.
  assert (delete_path p fs = (Ret tt, fs, [])) as Hdel.
  { unfold delete_path. rewrite bind_run. unfold path_exists at 1.
    rewrite Hl, bool_decide_eq_false_2 by (by intros [??]). done. }
  assert (p ≠ []) as Hp by (by intros ->).
  split_and!; [done| |].
  - intros e fs' t E. unfold unpack_package_local_path.
    by rewrite bind_run, Hdel, bind_run, E.
  - by apply unpack_local_leaves_dir.
Qed.

End LocalFSLemmas.

(** ** The executor as a transition system *)

Section PoolLemmas.
Import Pool.

Lemma running_length (ws : list (option call)) : length (omap id ws) ≤ length ws.
Proof. unfold omap. induction ws as [|[c|] ws IH]; simpl; lia. Qed.

Lemma omap_id_Some (l : list call) : omap id (Some <$> l) = l.
Proof.
  induction l as [|c l IH]; [done|]. rewrite fmap_cons.
  change (omap id (Some c :: (Some <$> l))) with (c :: omap id (Some <$> l)).
  by rewrite IH.
Qed.

(** The number of worker threads never exceeds [max_workers]. *)
Lemma step_workers p p' :
  step p p' →
  max_workers p' = max_workers p ∧
  (length (workers p) ≤ max_workers p → length (workers p') ≤ max_workers p').
Proof.
  intros [n c rest q ws fin spawn Hs|n td c q ws fin i Hi|n td q ws fin i c Hi]; simpl.
  - split; [done|]. destruct spawn; [|done].
    intros _. rewrite length_app. simpl. specialize (Hs eq_refl). lia.
  - by rewrite length_insert.
  - by rewrite length_insert.
Qed.

Lemma reachable_workers p0 p :
  reachable p0 p →
  length (workers p0) ≤ max_workers p0 →
  max_workers p = max_workers p0 ∧ length (workers p) ≤ max_workers p.
Proof.
  induction 1 as [p|p1 p2 p3 Hstep _ IH]; [done|].
  intros H0. destruct (step_workers _ _ Hstep) as [Hm Hw].
  destruct IH as [IH1 IH2]; [by apply Hw|]. split; [congruence|done].
Qed.

(** However the coordinating thread and the workers interleave, no
    more than [max_workers] tasks are being run at any one time. *)
Lemma in_flight_bound n tasks p :
  reachable (init n tasks) p → in_flight p ≤ n.
Proof.
  intros [Hm Hw]%reachable_workers; [|simpl; lia].
  unfold in_flight, running. pose proof (running_length (workers p)).
  simpl in Hm. lia.
Qed.

Lemma reach_submit n l rest q ws fin :
  length ws + length l ≤ n →
  reachable (Make n (l ++ rest) q ws fin)
            (Make n rest (q ++ l) (ws ++ replicate (length l) None) fin).
Proof.
  revert q ws. induction l as [|c l IH]; intros q ws Hn.
  - simpl. rewrite !app_nil_r. apply rtc_refl.
  - simpl in Hn. eapply rtc_l.
    + simpl. apply (step_submit n c (l ++ rest) q ws fin true). intros _. lia.
    + cbn [length replicate].
      replace (q ++ c :: l) with ((q ++ [c]) ++ l) by (by rewrite <- app_assoc).
      replace (ws ++ None :: replicate (length l) None)
        with ((ws ++ [None]) ++ replicate (length l) None) by (by rewrite <- app_assoc).
      apply IH. rewrite length_app. simpl. lia.
Qed.

Lemma reach_start n td l ws fin :
  reachable (Make n td l (ws ++ replicate (length l) None) fin)
            (Make n td [] (ws ++ (Some <$> l)) fin).
Proof.
  revert ws. induction l as [|c l IH]; intros ws; [apply rtc_refl|].
  eapply rtc_l.
  - apply (step_start n td c l _ fin (length ws)).
    rewrite lookup_app_r by lia. by rewrite Nat.sub_diag.
  - assert (∀ (x : option call) X, ws ++ x :: X = (ws ++ [x]) ++ X) as Hw
      by (intros; by rewrite <- app_assoc).
    rewrite fmap_cons. cbn [length replicate].
    rewrite insert_app_r_alt, Nat.sub_diag by lia. cbn [insert list_insert].
    rewrite (Hw _ (replicate _ _)), (Hw _ (Some <$> l)). apply IH.
Qed.

(** The tasks of one executor do overlap: there is an interleaving in
    which the first [max_workers] of them (all of them, if there are
    fewer) are being run at the same time. *)
Lemma reach_concurrent n tasks :
  ∃ p, reachable (init n tasks) p ∧ running p = take n tasks.
Proof.
  exists (Make n (drop n tasks) [] (Some <$> take n tasks) []). split.
  - unfold init. rewrite <- (take_drop n tasks) at 1.
    eapply rtc_trans.
    + apply (reach_submit n (take n tasks) (drop n tasks) [] [] []).
      rewrite length_take. simpl. lia.
    + simpl. apply (reach_start n (drop n tasks) (take n tasks) [] []).
  - unfold running. cbn [workers]. apply omap_id_Some.
Qed.

Lemma running_app ws1 ws2 :
  omap id (ws1 ++ ws2) = omap id ws1 ++ omap id ws2 :> list call.
Proof. apply omap_app. Qed.

Lemma running_start (ws : list (option call)) i c :
  ws !! i = Some None → omap id (<[i := Some c]> ws) ≡ₚ c :: omap id ws.
Proof.
  revert i. unfold omap. induction ws as [|w ws IH]; intros [|i] H; simplify_eq/=.
  - done.
  - destruct w as [c'|]; simpl; rewrite (IH i H); [apply Permutation_swap|done].
Qed.

Lemma running_finish (ws : list (option call)) i c :
  ws !! i = Some (Some c) → c :: omap id (<[i := None]> ws) ≡ₚ omap id ws.
Proof.
  revert i. unfold omap. induction ws as [|w ws IH]; intros [|i] H; simplify_eq/=.
  - done.
  - destruct w as [c'|]; simpl; rewrite <- (IH i H); [apply Permutation_swap|done].
Qed.

(** No step loses or duplicates a task. *)
Lemma step_tasks p p' : step p p' → all_tasks p' ≡ₚ all_tasks p.
Proof.
  intros [n c rest q ws fin spawn Hs|n td c q ws fin i Hi|n td q ws fin i c Hi];
    unfold all_tasks, running; cbn [todo queue workers finished].
  - assert (omap id (if spawn then ws ++ [None] else ws) = omap id ws) as ->.
    { destruct spawn; [|done]. rewrite running_app. simpl. by rewrite app_nil_r. }
    set (X := omap id ws ++ fin).
    replace (rest ++ (q ++ [c]) ++ X) with ((rest ++ q) ++ c :: X)
      by (by rewrite <- !app_assoc).
    symmetry. apply Permutation_cons_app. by rewrite <- app_assoc.
  - rewrite (running_start ws i c Hi). apply Permutation_app_head.
    symmetry. apply Permutation_cons_app. done.
  - rewrite <- (running_finish ws i c Hi). do 2 apply Permutation_app_head.
    rewrite app_assoc. symmetry. apply Permutation_cons_app. by rewrite app_nil_r.
Qed.

Lemma reachable_tasks p0 p : reachable p0 p → all_tasks p ≡ₚ all_tasks p0.
Proof.
  induction 1 as [p|p1 p2 p3 Hstep _ IH]; [done|].
  rewrite IH. by apply step_tasks.
Qed.

(** Once the coordinating thread has submitted everything and the
    workers have nothing left to do, the tasks that ran are the tasks
    that were submitted, each once, in some order: this is what the
    parameter [sched] of the functional model stands for. *)
Lemma drained_pool n tasks p :
  reachable (init n tasks) p →
  todo p = [] → queue p = [] → running p = [] →
  finished p ≡ₚ tasks.
Proof.
  intros H%reachable_tasks Ht Hq Hr. unfold all_tasks in H.
  rewrite Ht, Hq, Hr in H. simpl in H. by rewrite app_nil_r in H.
Qed.

End PoolLemmas.

(** ** What the specification states about ordering and concurrency *)

Section Concurrency.
Context {St : Type} `{!Storage St}.
Variable cfg : settings.
Variable sched : list call → list call.
Hypothesis sched_perm : ∀ l, sched l ≡ₚ l.

#[local] Abbreviation delete_existing := (delete_existing_files_cloud cfg sched).
#[local] Abbreviation unpack := (unpack_and_upload_on_cloud cfg sched).

(** C8. One call of the clean-up walk, no executor being open.
    If the prefix does not exist, the call asks the storage just that
    and returns: nothing is listed, submitted or changed, and nothing
    is raised. If it exists, the events of the call are, in this
    order: the [exists] and [listdir] queries; one executor of
    [MAX_WORKERS] workers that is handed a delete task for every file
    of the directory, runs them in whatever order the workers get to
    them (there is an interleaving in which the first [MAX_WORKERS]
    of them are all in flight at once) and is drained; and only then
    the walks of the subdirectories, one after the other in listing
    order, each from the state the previous one left. *)
Theorem delete_existing_depth_sequential fuel path (s : cloud) :
  (0 < MAX_WORKERS cfg)%Z →
  pending s = [] →
  (storage_exists (store s) path = false →
   delete_existing (S fuel) path s = (Ret tt, s, [Exists path false])) ∧
  (storage_exists (store s) path = true →
   ∀ dir_names file_names,
     storage_listdir (store s) path = (dir_names, file_names) →
     let deletes := (λ f, Delete (join path f)) <$> file_names in
     ∃ st1 t_run r s2 t_rec,
       run_all (sched deletes) (store s) = (st1, t_run) ∧
       ran t_run ≡ₚ deletes ∧
       submitted t_run = [] ∧
       for_each dir_names (λ d, delete_existing fuel (join path d)) (Cloud st1 [])
         = (r, s2, t_rec) ∧
       delete_existing (S fuel) path s =
         (r, s2,
          [Exists path true;
           Logged (LogRecord INFO "%s path is being deleted on cloud" [PStr path]);
           Listdir path dir_names file_names;
           ExecutorEnter (MAX_WORKERS cfg)]
          ++ (Submit <$> deletes) ++ t_run ++ [ExecutorExit] ++ t_rec) ∧
       ∃ p, Pool.reachable (Pool.init (Z.to_nat (MAX_WORKERS cfg)) deletes) p ∧
            Pool.running p = take (Z.to_nat (MAX_WORKERS cfg)) deletes).
Proof.
  intros Hpos Hp. rewrite (delete_existing_step cfg sched fuel path s Hpos), Hp.
  split; intros Hex; rewrite Hex; [done|].
  intros ds fs Hls. rewrite Hls. cbn [app]. cbv zeta.
  pose proof (run_all_ran (sched ((λ f, Delete (join path f)) <$> fs)) (store s)) as Hran.
  pose proof (run_all_no_submit (sched ((λ f, Delete (join path f)) <$> fs)) (store s)) as Hsub.
  destruct (run_all _ (store s)) as [st1 t_run]. cbn [snd] in Hran, Hsub.
  destruct (for_each ds _ (Cloud st1 [])) as [[r s2] t_rec] eqn:Eloop.
  exists st1, t_run, r, s2, t_rec. split_and!; [done| |done|done|done|].
  - by rewrite Hran, sched_perm.
  - apply reach_concurrent.
Qed.

(** C9. With [MAX_WORKERS = 10] — which is what the module gets when
    the setting [THREADPOOLEXECUTOR_MAX_WORKERS] is absent — and an
    archive of 100 entries: every executor the run opens has 10
    workers, and however the submissions of the write tasks and the
    work of the worker threads interleave, at no point are more than
    10 write tasks in flight. *)
Theorem unpack_at_most_ten_writes_in_flight fuel pkg z path st r s' t :
  MAX_WORKERS cfg = 10%Z →
  content pkg = ZipArchive z →
  length z = 100 →
  unpack fuel pkg path (Cloud st []) = (r, s', t) →
  MAX_WORKERS (Settings None) = 10%Z ∧
  (∀ n, ExecutorEnter n ∈ t → n = 10%Z) ∧
  ∀ p, Pool.reachable
         (Pool.init (Z.to_nat (MAX_WORKERS cfg))
                    ((λ kd, Save kd.1 kd.2) <$> submitted_saves t)) p →
       Pool.in_flight p ≤ 10.
Proof.
  intros Hmax Hz Hlen E. split_and!; [done| |].
  - destruct (holds_unpack cfg sched sched_perm (λ _, True) fuel pkg path
                (λ _, I) (λ _, I) (λ _, I) (Cloud st []) r s' t)
      as [_ Ht]; [by constructor|done|].
    rewrite Forall_forall in Ht. intros n Hn%Ht. simpl in Hn. congruence.
  - intros p Hp%in_flight_bound. rewrite Hmax in Hp. simpl in Hp. lia.
Qed.

End Concurrency.

(** ** The statements at sample inputs *)

Section Samples.
Import Samples KeyStore LocalFS.

Lemma fifo_perm l : fifo l ≡ₚ l.
Proof. done. Qed.

Lemma default_workers_pos : (0 < MAX_WORKERS default_settings)%Z.
Proof. done. Qed.

(** The traversal scenario, run: into an empty store under ["h5p"] the
    run submits three writes, the second of them for
    [h5p/../evil.js] — the guard looks at the basename, which is
    [evil.js] — and the only log records are the three task
    completions. *)
Example traversal_scenario_run :
  let '(r, s', tr) :=
    unpack_and_upload_on_cloud default_settings fifo 1 evil_pkg "h5p"
      (Cloud (KeyStore.of_list []) []) in
  r = Ret tt ∧
  submitted_saves tr =
    [("h5p/index.html", b "<html/>");
     ("h5p/../evil.js", b "alert(1)");
     ("h5p/assets/x.png", b "PNG")] ∧
  objects (store s') !! ["h5p"; ".."; "evil.js"] = Some (b "alert(1)") ∧
  omap (λ e, match e with Logged r => Some (lvl r, fmt r) | _ => None end) tr =
    [(INFO, "Future task completed: Result:[%s]");
     (INFO, "Future task completed: Result:[%s]");
     (INFO, "Future task completed: Result:[%s]")].
Proof. vm_compute. done. Qed.

(** C1, as stated, fails. For the archive [index.html], [../evil.js],
    [assets/x.png] unpacked into an empty store under ["h5p"], it is
    not the case that only [index.html] and [assets/x.png] are
    written and that a log record names the skipped [../evil.js]: a
    write for [h5p/../evil.js] is submitted as well. *)
Lemma unpack_traversal_entry_is_written :
  let run :=
    unpack_and_upload_on_cloud default_settings fifo 1 evil_pkg "h5p"
      (Cloud (KeyStore.of_list []) []) in
  run.1.1 = Ret tt ∧
  ("h5p/../evil.js", b "alert(1)") ∈ submitted_saves run.2 ∧
  ¬ (submitted_saves run.2 =
       [("h5p/index.html", b "<html/>"); ("h5p/assets/x.png", b "PNG")] ∧
     ∃ r, Logged r ∈ run.2 ∧ PStr "../evil.js" ∈ args r).
Proof.
  split_and!.
  - by vm_compute.
  - vm_compute. right. left.
  - intros [H _]. vm_compute in H. discriminate.
Qed.

Lemma unpack_traversal_scenario_witness :
  let z := [ZipInfo "index.html" (b "<html/>"); ZipInfo "../evil.js" (b "alert(1)");
            ZipInfo "assets/x.png" (b "PNG")] in
  ∃ s' t,
    unpack_and_upload_on_cloud default_settings fifo 4
      (Package "evil.h5p" (ZipArchive z)) "h5p" (Cloud old_store []) = (Ret tt, s', t) ∧
    (join "h5p" "index.html", b "<html/>") ∈ submitted_saves t ∧
    (join "h5p" "assets/x.png", b "PNG") ∈ submitted_saves t ∧
    Save (join "h5p" "index.html") (b "<html/>") ∈ ran t ∧
    Save (join "h5p" "assets/x.png") (b "PNG") ∈ ran t ∧
    ∀ r, Logged r ∈ t → task_or_walk_log r.
Proof.
  apply (unpack_traversal_scenario default_settings fifo fifo_perm 4 "evil.h5p"
           (b "<html/>") (b "alert(1)") (b "PNG") "h5p" old_store).
  - reflexivity.
  - vm_compute. reflexivity.
Defined.

(** C5, as stated, fails. The store holds [h5p/old.js], which the
    backend refuses to delete; the new archive has [index.html] only.
    The run returns, and [h5p/old.js] is still there although no
    entry of the new archive is written under that key. *)
Lemma unpack_leaves_undeletable_prior_file :
  let run :=
    unpack_and_upload_on_cloud default_settings fifo 3 other_pkg "h5p"
      (Cloud locked_store []) in
  run.1.1 = Ret tt ∧
  ¬ (∀ k, is_Some (objects locked_store !! k) →
          below "h5p" k →
          is_Some (objects (store run.1.2) !! k) →
          rewritten other_entries "h5p" k).
Proof.
  split; [by vm_compute|]. intros H.
  destruct (H ["h5p"; "old.js"]) as (e & He & _ & Hk).
  - vm_compute. eauto.
  - exists ["old.js"]. split; [done|]. by vm_compute.
  - vm_compute. eauto.
  - apply list_elem_of_singleton in He as ->. vm_compute in Hk. done.
Qed.

Lemma unpack_never_writes_rejected_entry_witness :
  basename "content/." ∈ rejected_basenames ∧
  ((∀ z (s : @cloud KeyStore.t), upload_entry z "h5p" "content/." s = (Ret tt, s, [])) ∧
   ∀ r s' t,
     unpack_and_upload_on_cloud default_settings fifo 4 plain_pkg "h5p"
       (Cloud old_store []) = (r, s', t) →
     ∀ data, (Submit (Save (join "h5p" "content/.") data) ∉ t) ∧
             (∀ o, Ran (Save (join "h5p" "content/.") data) o ∉ t)).
Proof.
  assert (basename "content/." ∈ rejected_basenames) as H
    by (vm_compute; right; left).
  split; [exact H|].
  exact (unpack_never_writes_rejected_entry default_settings fifo fifo_perm
           4 plain_pkg "h5p" old_store "content/." H).
Defined.

Lemma unpack_not_a_zip_touches_nothing_witness :
  is_zipfile text_pkg = false ∧
  ∃ t, unpack_and_upload_on_cloud default_settings fifo 4 text_pkg "h5p"
         (Cloud old_store []) = (Ret tt, Cloud old_store [], t) ∧
       t = [Logged (LogRecord ERROR "%s is not a valid zip" [PStr (name text_pkg)])] ∧
       Forall (λ e, is_store_call e = false) t.
Proof.
  split; [reflexivity|].
  apply (unpack_not_a_zip_touches_nothing default_settings fifo 4 text_pkg "h5p"
           (Cloud old_store [])).
  reflexivity.
Defined.

Lemma unpack_submits_one_write_per_survivor_witness :
  ∃ s' t,
    unpack_and_upload_on_cloud default_settings fifo 4 plain_pkg "h5p"
      (Cloud old_store []) = (Ret tt, s', t) ∧
    let kept := filter (λ n, survives n = true) (namelist plain_entries) in
    length (submitted_saves t) = length kept ∧
    Forall2 (λ n kd, kd.1 = join "h5p" n ∧
                     @zip_read (@cloud KeyStore.t) event plain_entries n = mret kd.2)
            kept (submitted_saves t) ∧
    filter (λ c, is_save c = true) (ran t) ≡ₚ (λ kd, Save kd.1 kd.2) <$> submitted_saves t.
Proof.
  apply (unpack_submits_one_write_per_survivor default_settings fifo fifo_perm
           4 plain_pkg plain_entries "h5p" old_store).
  - reflexivity.
  - reflexivity.
  - vm_compute. reflexivity.
Defined.

Lemma unpack_clears_deletable_prior_files_witness :
  ∃ s' tr,
    unpack_and_upload_on_cloud default_settings fifo 5 plain_pkg "h5p"
      (Cloud old_store []) = (Ret tt, s', tr) ∧
    ∀ k, is_Some (objects old_store !! k) →
         below "h5p" k →
         k ∉ locked old_store →
         is_Some (objects (store s') !! k) →
         rewritten plain_entries "h5p" k.
Proof.
  apply (unpack_clears_deletable_prior_files default_settings fifo fifo_perm
           default_workers_pos 4 plain_pkg plain_entries "h5p" old_store).
  - reflexivity.
  - apply wf_check. vm_compute. reflexivity.
  - apply depth_check. vm_compute. reflexivity.
Defined.

Lemma unpack_local_not_a_zip_leaves_empty_dir_witness :
  ∃ fs',
    unpack_package_local_path text_pkg ["srv"; "h5p"] local_tree =
      (Ret tt, fs', [LogRecord ERROR "%s is not a valid zip" [PStr (name text_pkg)]]) ∧
    lookup_path fs' ["srv"; "h5p"] = Some (Dir ∅).
Proof.
  apply (unpack_local_not_a_zip_leaves_empty_dir text_pkg ["srv"; "h5p"] local_tree).
  - reflexivity.
  - discriminate.
  - apply no_file_on_check. vm_compute. reflexivity.
Defined.

Lemma delete_existing_depth_sequential_witness :
  (storage_exists old_store "h5p" = false →
   delete_existing_files_cloud default_settings fifo 4 "h5p" (Cloud old_store [])
     = (Ret tt, Cloud old_store [], [Exists "h5p" false])) ∧
  (storage_exists old_store "h5p" = true →
   ∀ dir_names file_names,
     storage_listdir old_store "h5p" = (dir_names, file_names) →
     let deletes := (λ f, Delete (join "h5p" f)) <$> file_names in
     ∃ st1 t_run r s2 t_rec,
       run_all (fifo deletes) old_store = (st1, t_run) ∧
       ran t_run ≡ₚ deletes ∧
       submitted t_run = [] ∧
       for_each dir_names
         (λ d, delete_existing_files_cloud default_settings fifo 3 (join "h5p" d))
         (Cloud st1 []) = (r, s2, t_rec) ∧
       delete_existing_files_cloud default_settings fifo 4 "h5p" (Cloud old_store []) =
         (r, s2,
          [Exists "h5p" true;
           Logged (LogRecord INFO "%s path is being deleted on cloud" [PStr "h5p"]);
           Listdir "h5p" dir_names file_names;
           ExecutorEnter (MAX_WORKERS default_settings)]
          ++ (Submit <$> deletes) ++ t_run ++ [ExecutorExit] ++ t_rec) ∧
       ∃ p, Pool.reachable
              (Pool.init (Z.to_nat (MAX_WORKERS default_settings)) deletes) p ∧
            Pool.running p = take (Z.to_nat (MAX_WORKERS default_settings)) deletes).
Proof.
  apply (delete_existing_depth_sequential default_settings fifo fifo_perm 3 "h5p"
           (Cloud old_store [])).
  - reflexivity.
  - reflexivity.
Defined.

Lemma unpack_at_most_ten_writes_in_flight_witness :
  let run :=
    unpack_and_upload_on_cloud default_settings fifo 5 big_pkg "h5p"
      (Cloud old_store []) in
  MAX_WORKERS (Settings None) = 10%Z ∧
  (∀ n, ExecutorEnter n ∈ run.2 → n = 10%Z) ∧
  ∀ p, Pool.reachable
         (Pool.init (Z.to_nat (MAX_WORKERS default_settings))
                    ((λ kd, Save kd.1 kd.2) <$> submitted_saves run.2)) p →
       Pool.in_flight p ≤ 10.
Proof.
  intros run.
  apply (unpack_at_most_ten_writes_in_flight default_settings fifo fifo_perm
           5 big_pkg (numbered_entries 100) "h5p" old_store run.1.1 run.1.2 run.2).
  - reflexivity.
  - reflexivity.
  - vm_compute. reflexivity.
  - subst run. by destruct (unpack_and_upload_on_cloud _ _ _ _ _ _) as [[??]?].
Defined.

Lemma delete_path_absent_is_noop_witness :
  delete_path ["srv"; "fresh"] local_tree = (Ret tt, local_tree, []) ∧
  (∀ e fs' t, makedirs ["srv"; "fresh"] false local_tree = (Raise e, fs', t) →
              unpack_package_local_path site_pkg ["srv"; "fresh"] local_tree
                = (Raise e, fs', t)) ∧
  (no_file_on ["srv"; "fresh"] local_tree →
   ∃ r fs' t m,
     unpack_package_local_path site_pkg ["srv"; "fresh"] local_tree = (r, fs', t) ∧
     lookup_path fs' ["srv"; "fresh"] = Some (Dir m)).
Proof.
  apply (delete_path_absent_is_noop site_pkg ["srv"; "fresh"] local_tree).
  vm_compute. reflexivity.
Defined.

End Samples.

(** ** More on the upload loop and the clean-up walk, over any storage *)

Section MoreCloud.
Context {St : Type} `{!Storage St}.
Variable cfg : settings.
Variable sched : list call → list call.
Hypothesis sched_perm : ∀ l, sched l ≡ₚ l.

Lemma join_absolute_entry a b : startswith_sep b = true → join a b = b.
Proof. intros Hb. unfold join. by rewrite Hb. Qed.

Lemma components_join a b :
  startswith_sep b = false → components (join a b) = components a ++ components b.
Proof.
  intros Hb. unfold join. rewrite Hb.
  destruct (is_empty a || endswith_sep a) eqn:Ha.
  - apply orb_true_iff in Ha as [Ha|Ha].
    + destruct a; [done|discriminate].
    + apply endswith_sep_inv in Ha as [a' ->].
      replace ((a' +:+ "/") +:+ b) with (a' +:+ String sep b)
        by (clear; induction a' as [|? ? IH]; simpl; [done | by rewrite IH]).
      rewrite !components_app_sep. simpl. by rewrite app_nil_r.
  - apply components_app_sep.
Qed.

Lemma survives_last_part d f :
  is_component f = true → f ≠ "." → f ≠ ".." →
  survives (d +:+ String sep f) = true.
Proof.
  intros Hf H1 H2. apply is_component_spec in Hf as [Hne Hsep].
  unfold survives.
  rewrite basename_app_r by (simpl; by rewrite ?Hsep).
  rewrite basename_sep_cons, basename_no_sep by done.
  rewrite bool_decide_eq_false_2; [done|].
  rewrite !elem_of_cons, elem_of_nil. by intros [?|[?|[?|[]]]].
Qed.

(** X1. An entry whose name starts with a slash is written under its
    own name: [os.path.join(path, zipfile_name)] drops the destination
    [path] when [zipfile_name] is absolute, so the loop body submits
    the write for the key [zipfile_name] itself, whatever [path] is. *)
Theorem upload_absolute_entry_leaves_destination z path n (s : @cloud St) :
  n ∈ namelist z → startswith_sep n = true → survives n = true →
  upload_entry z path n s =
  (Ret tt, Cloud (store s) (pending s ++ [Save n (entry_bytes z n)]),
   [Submit (Save n (entry_bytes z n))]).
Proof.
  intros Hin Habs Hs. rewrite upload_entry_run, Hs by done.
  by rewrite join_absolute_entry.
Qed.

(** X2. The guard of the upload loop looks at the last part of the
    name only: an entry [d/f] whose last part [f] is a file name other
    than ["."] and [".."] is written under [join(path, d/f)], whatever
    the directory part [d] holds — [".."] parts included. *)
Theorem upload_keeps_entry_by_last_part z path d f (s : @cloud St) :
  let n := d +:+ String sep f in
  n ∈ namelist z →
  is_component f = true → f ≠ "." → f ≠ ".." →
  upload_entry z path n s =
  (Ret tt, Cloud (store s) (pending s ++ [Save (join path n) (entry_bytes z n)]),
   [Submit (Save (join path n) (entry_bytes z n))]).
Proof.
  intros n Hin Hf H1 H2. rewrite upload_entry_run by done.
  unfold n. by rewrite survives_last_part.
Qed.

Lemma elem_of_tasks_of c (t : list event) :
  c ∈ tasks_of t ↔ Submit c ∈ t ∨ ∃ o, Ran c o ∈ t.
Proof.
  unfold tasks_of, submitted, ran. rewrite elem_of_app, !list_elem_of_omap.
  split.
  - intros [(e & He & Hc)|(e & He & Hc)]; destruct e; try done;
      injection Hc as ->; eauto.
  - intros [He|[o He]]; [left|right]; eexists; (split; [exact He|done]).
Qed.

Lemma holds_upload_entry_for (G : call → Prop) (L : log_record → Prop) z path n :
  (survives n = true → ∀ d, G (Save (join path n) d)) →
  holds (@good_state St G) (good_event cfg G L) (upload_entry z path n).
Proof.
  intros HG. unfold upload_entry. rewrite rejected_iff.
  destruct (survives n); [|apply holds_ret].
  apply holds_bind.
  - unfold zip_read. destruct (getinfo z n); [apply holds_ret|apply holds_raise].
  - intros data. apply holds_submit. by apply HG.
Qed.

(** A run of the upload on the archive [z] submits and runs only
    deletions and writes of surviving entries, the latter satisfying
    whatever [G] holds of the key of every surviving entry. *)
Lemma holds_unpack_for (G : call → Prop) fuel pkg z path :
  content pkg = ZipArchive z →
  (∀ key, G (Delete key)) →
  (∀ n d, n ∈ namelist z → survives n = true → G (Save (join path n) d)) →
  holds (@good_state St G) (good_event cfg G (λ _, True))
        (unpack_and_upload_on_cloud cfg sched fuel pkg path).
Proof.
  intros Hz G_delete G_save.
  unfold unpack_and_upload_on_cloud, is_zipfile, ZipFile. rewrite Hz. cbn [negb].
  apply holds_bind; [by apply holds_delete_existing|]. intros _.
  assert (holds (@good_state St G) (good_event cfg G (λ _, True))
            (with_executor cfg sched (for_each (namelist z) (upload_entry z path))))
    as Hup.
  { apply holds_with_executor, holds_for_each; [done..|].
    intros n Hn. apply holds_upload_entry_for. intros Hs d. by apply G_save. }
  intros s r s' t HI. rewrite bind_run. cbn.
  destruct (with_executor _ _ _ s) as [[r2 s2] t2] eqn:Hw.
  intros [= <- <- <-]. exact (Hup _ _ _ _ HI Hw).
Qed.

(** X3. Entries with relative names are written below the destination,
    read literally: for an archive none of whose names starts with a
    slash, the key of every write a run submits or runs is
    [join(path, n)] for a surviving entry [n], and its components are
    those of [path] followed by those of [n] (a [".."] among them is
    kept as it is, not resolved). *)
Theorem unpack_relative_entries_extend_destination
    fuel pkg z path (s : @cloud St) r s' t :
  content pkg = ZipArchive z →
  Forall (λ n, startswith_sep n = false) (namelist z) →
  pending s = [] →
  unpack_and_upload_on_cloud cfg sched fuel pkg path s = (r, s', t) →
  ∀ k d, Save k d ∈ tasks_of t →
    ∃ n, n ∈ namelist z ∧ survives n = true ∧ k = join path n ∧
         components k = components path ++ components n.
Proof.
  intros Hz Hrel Hp Hrun k d Hk.
  set (G := λ c, match c with
                 | Save k _ => ∃ n, n ∈ namelist z ∧ survives n = true ∧
                                    k = join path n ∧
                                    components k = components path ++ components n
                 | Delete _ => True
                 end).
  assert (good_state G s) as HI by (unfold good_state; rewrite Hp; constructor).
  destruct (holds_unpack_for G fuel pkg z path Hz) with s r s' t as [_ Ht];
    [done| |done..|].
  { intros n d' Hn Hs. exists n. repeat split; [done..|].
    apply components_join. by eapply Forall_forall in Hrel. }
  rewrite Forall_forall in Ht.
  apply elem_of_tasks_of in Hk as [Hk|[o Hk]]; exact (Ht _ Hk).
Qed.

Lemma delete_existing_invalid fuel path (s : @cloud St) :
  (MAX_WORKERS cfg ≤ 0)%Z →
  delete_existing_files_cloud cfg sched (S fuel) path s =
  if storage_exists (store s) path then
    let '(dir_names, file_names) := storage_listdir (store s) path in
    (Raise (ValueError "max_workers must be greater than 0"), s,
     [Exists path true;
      Logged (LogRecord INFO "%s path is being deleted on cloud" [PStr path]);
      Listdir path dir_names file_names])
  else (Ret tt, s, [Exists path false]).
Proof.
  intros Hle. cbn [delete_existing_files_cloud].
  rewrite bind_run. unfold exists_ at 1. cbn beta iota zeta.
  destruct (storage_exists (store s) path); [|done].
  rewrite bind_run. unfold log_info, emit at 1. cbn beta iota zeta.
  rewrite bind_run. unfold listdir at 1.
  destruct (storage_listdir (store s) path) as [ds fs]. cbn beta iota zeta.
  rewrite bind_run. by rewrite with_executor_invalid.
Qed.

Lemma listed_deletes_app t1 t2 :
  listed_deletes t1 → listed_deletes t2 → listed_deletes (t1 ++ t2).
Proof.
  intros H1 H2 c Hc. apply elem_of_tasks_of in Hc.
  assert (c ∈ tasks_of t1 ∨ c ∈ tasks_of t2) as [Hc'|Hc'].
  { rewrite !elem_of_tasks_of. destruct Hc as [Hc|[o Hc]];
      apply elem_of_app in Hc as [Hc|Hc]; eauto. }
  - destruct (H1 c Hc') as (p & ds & fs & f & Hl & Hf & ->).
    exists p, ds, fs, f. rewrite elem_of_app. eauto.
  - destruct (H2 c Hc') as (p & ds & fs & f & Hl & Hf & ->).
    exists p, ds, fs, f. rewrite elem_of_app. eauto.
Qed.

Lemma delete_existing_listed fuel : ∀ path (s : @cloud St) r s' t,
  pending s = [] →
  delete_existing_files_cloud cfg sched fuel path s = (r, s', t) →
  pending s' = [] ∧ listed_deletes t.
Proof.
  induction fuel as [|fuel IH]; intros path s r s' t Hp.
  { intros [= <- <- <-]. split; [done|]. intros c Hc. by apply elem_of_nil in Hc. }
  destruct (Z.leb_spec (MAX_WORKERS cfg) 0) as [Hle|Hpos].
  - rewrite delete_existing_invalid by done.
    destruct (storage_exists (store s) path).
    + destruct (storage_listdir (store s) path) as [ds fs].
      intros [= <- <- <-]. split; [done|].
      intros c Hc. apply elem_of_tasks_of in Hc as [Hc|[o Hc]];
        repeat (apply elem_of_cons in Hc as [Hc|Hc]; [discriminate|]);
        by apply elem_of_nil in Hc.
    + intros [= <- <- <-]. split; [done|].
      intros c Hc. apply elem_of_tasks_of in Hc as [Hc|[o Hc]];
        repeat (apply elem_of_cons in Hc as [Hc|Hc]; [discriminate|]);
        by apply elem_of_nil in Hc.
  - rewrite delete_existing_step by done.
    destruct (storage_exists (store s) path).
    2:{ intros [= <- <- <-]. split; [done|].
        intros c Hc. apply elem_of_tasks_of in Hc as [Hc|[o Hc]];
          repeat (apply elem_of_cons in Hc as [Hc|Hc]; [discriminate|]);
          by apply elem_of_nil in Hc. }
    destruct (storage_listdir (store s) path) as [ds fs]. cbv zeta.
    rewrite Hp, app_nil_l.
    pose proof (run_all_ran (sched ((λ f, Delete (join path f)) <$> fs)) (store s)) as Hran.
    pose proof (run_all_no_submit (sched ((λ f, Delete (join path f)) <$> fs)) (store s))
      as Hsub.
    destruct (run_all _ _) as [st1 t_run]. simpl in Hran, Hsub.
    destruct (for_each ds _ _) as [[r2 s2] t_rec] eqn:Hrec.
    intros Heq.
    assert (r = r2 ∧ s' = s2 ∧
            t = ([Exists path true;
                  Logged (LogRecord INFO "%s path is being deleted on cloud" [PStr path]);
                  Listdir path ds fs; ExecutorEnter (MAX_WORKERS cfg)]
                 ++ (Submit <$> ((λ f, Delete (join path f)) <$> fs))
                 ++ t_run ++ [ExecutorExit]) ++ t_rec) as (-> & -> & ->).
    { injection Heq as <- <- <-. by rewrite <- !app_assoc. }
    clear Heq.
    apply (for_each_inv (λ s : @cloud St, pending s = []) listed_deletes (λ _, True))
      in Hrec as (Hp2 & Hrec & _); [| |apply listed_deletes_app|done| |done].
    2:{ intros c Hc. by apply elem_of_nil in Hc. }
    2:{ intros d s0 r0 s0' t0 _ Hp0 Hd. by destruct (IH _ _ _ _ _ Hp0 Hd). }
    split; [done|].
    apply listed_deletes_app; [|done].
    intros c Hc. exists path, ds, fs.
    assert (c ∈ (λ f, Delete (join path f)) <$> fs) as Hin.
    { apply elem_of_tasks_of in Hc as [Hc|[o Hc]];
        rewrite !elem_of_app, !elem_of_cons, elem_of_nil in Hc;
        destruct_or!; try discriminate; try done.
      - by apply list_elem_of_fmap in Hc as (c' & [= ->] & Hc).
      - assert (c ∈ submitted t_run) as Hc'
          by (apply list_elem_of_omap; by exists (Submit c)).
        rewrite Hsub in Hc'. by apply elem_of_nil in Hc'.
      - by apply list_elem_of_fmap in Hc as (c' & [=] & Hc).
      - assert (c ∈ ran t_run) as Hc'
          by (apply list_elem_of_omap; by exists (Ran c o)).
        rewrite Hran in Hc'. by rewrite sched_perm in Hc'. }
    apply list_elem_of_fmap in Hin as (f & -> & Hf).
    exists f. split; [|done].
    apply elem_of_app. left. by repeat constructor.
Qed.

(** X4. The clean-up walk deletes nothing but what the storage listed:
    every task a run of [delete_existing_files_cloud] submits or runs
    is [storage.delete(join(p, f))] for a file name [f] that a
    [storage.listdir(p)] of the same run reported; it never writes, and
    never deletes a key it was not told of. *)
Theorem walk_deletes_only_listed_files fuel path (s : @cloud St) r s' t :
  pending s = [] →
  delete_existing_files_cloud cfg sched fuel path s = (r, s', t) →
  ∀ c, c ∈ tasks_of t →
    ∃ p ds fs f, Listdir p ds fs ∈ t ∧ f ∈ fs ∧ c = Delete (join p f).
Proof.
  intros Hp Hrun. by destruct (delete_existing_listed fuel _ _ _ _ _ Hp Hrun).
Qed.

(** X5. A [THREADPOOLEXECUTOR_MAX_WORKERS] of zero or less makes every
    upload of a valid archive fail: [ThreadPoolExecutor] raises
    [ValueError] the first time one is made, in the clean-up walk when
    the destination exists and in the upload loop otherwise; no task is
    submitted or run and the storage is left as it was. *)
Theorem unpack_nonpositive_workers_raises fuel pkg z path (s : @cloud St) :
  (MAX_WORKERS cfg ≤ 0)%Z →
  content pkg = ZipArchive z →
  ∃ t,
    unpack_and_upload_on_cloud cfg sched (S fuel) pkg path s =
    (Raise (ValueError "max_workers must be greater than 0"), s, t) ∧
    tasks_of t = [] ∧
    ∀ n, ExecutorEnter n ∉ t.
Proof.
  intros Hle Hz. unfold unpack_and_upload_on_cloud, is_zipfile, ZipFile.
  rewrite Hz. cbn [negb].
  rewrite bind_run, delete_existing_invalid by done.
  destruct (storage_exists (store s) path).
  - destruct (storage_listdir (store s) path) as [ds fs].
    eexists. split; [done|]. split; [done|].
    intros n Hn. repeat (apply elem_of_cons in Hn as [Hn|Hn]; [discriminate|]).
    by apply elem_of_nil in Hn.
  - rewrite bind_run. cbn. rewrite with_executor_invalid by done.
    eexists. split; [done|]. split; [done|].
    intros n Hn. repeat (apply elem_of_cons in Hn as [Hn|Hn]; [discriminate|]).
    by apply elem_of_nil in Hn.
Qed.

Lemma all_tasks_reported_nil : all_tasks_reported [].
Proof. by split. Qed.

Lemma all_tasks_reported_app t1 t2 :
  all_tasks_reported t1 → all_tasks_reported t2 → all_tasks_reported (t1 ++ t2).
Proof.
  intros [Hr1 Hl1] [Hr2 Hl2]. unfold all_tasks_reported, ran, submitted, logged, outcomes.
  rewrite !omap_app, filter_app, fmap_app. split.
  - by apply Permutation_app.
  - by f_equal.
Qed.

Lemma run_all_reported (l : list call) (st : St) :
  filter (λ r, is_walk_record r = false) (logged (run_all l st).2) =
  future_result_handler <$> outcomes (run_all l st).2.
Proof.
  revert st. induction l as [|c l IH]; intros st; [done|].
  rewrite run_all_cons. destruct (perform c st) as [st1 o].
  specialize (IH st1). destruct (run_all l st1) as [st2 t]. simpl in *.
  rewrite filter_cons_True by (by destruct o). by rewrite IH.
Qed.

(** One executor, from its tasks being submitted to its exit. *)
Lemma executor_reported (l : list call) (st : St) (pre post : list event) :
  ran pre = [] → submitted pre = [] → logged pre = [] →
  ran post = [] → submitted post = [] → logged post = [] →
  all_tasks_reported (pre ++ (Submit <$> l) ++ (run_all (sched l) st).2 ++ post).
Proof.
  intros Hr1 Hs1 Hl1 Hr2 Hs2 Hl2.
  pose proof (run_all_ran (sched l) st) as Hran.
  pose proof (run_all_no_submit (sched l) st) as Hsub.
  pose proof (run_all_reported (sched l) st) as Hlog.
  unfold all_tasks_reported.
  assert (∀ l : list call, ran (Submit <$> l) = [] ∧ submitted (Submit <$> l) = l ∧
                           logged (Submit <$> l) = [] ∧ outcomes (Submit <$> l) = [])
    as Hsubmit.
  { clear. induction l as [|c l (? & ? & ? & ?)]; [done|].
    rewrite fmap_cons. unfold ran, submitted, logged, outcomes in *. simpl.
    by repeat split; [|f_equal|..]. }
  destruct (Hsubmit l) as (Ha & Hb & Hc & Hd).
  assert (∀ t, ran t = [] → outcomes t = []) as Hout.
  { clear. induction t as [|e t IH]; [done|]. unfold ran, outcomes. simpl.
    destruct e; try done. all: exact IH. }
  unfold all_tasks_reported, ran, submitted, logged, outcomes in *.
  rewrite !omap_app.
  rewrite Hr1, Hs1, Hl1, Hr2, Hs2, Hl2, Ha, Hb, Hc, Hd, Hran, Hsub.
  rewrite (Hout pre Hr1), (Hout post Hr2). simpl. rewrite !app_nil_r.
  split; [apply sched_perm|]. exact Hlog.
Qed.

Lemma delete_existing_reported fuel : ∀ path (s : @cloud St) r s' t,
  pending s = [] →
  delete_existing_files_cloud cfg sched fuel path s = (r, s', t) →
  pending s' = [] ∧ all_tasks_reported t.
Proof.
  induction fuel as [|fuel IH]; intros path s r s' t Hp.
  { intros [= <- <- <-]. split; [done|apply all_tasks_reported_nil]. }
  destruct (Z.leb_spec (MAX_WORKERS cfg) 0) as [Hle|Hpos].
  - rewrite delete_existing_invalid by done.
    destruct (storage_exists (store s) path).
    + destruct (storage_listdir (store s) path) as [ds fs].
      intros [= <- <- <-]. split; [done|]. split; [done|].
      unfold logged, outcomes. simpl.
      by rewrite filter_cons_False by (intros H; vm_compute in H; discriminate).
    + by intros [= <- <- <-].
  - rewrite delete_existing_step by done.
    destruct (storage_exists (store s) path); [|by intros [= <- <- <-]].
    destruct (storage_listdir (store s) path) as [ds fs]. cbv zeta.
    rewrite Hp, app_nil_l.
    pose proof (executor_reported ((λ f, Delete (join path f)) <$> fs) (store s)
      [Listdir path ds fs; ExecutorEnter (MAX_WORKERS cfg)]
      [ExecutorExit] eq_refl eq_refl eq_refl eq_refl eq_refl eq_refl) as Hex.
    destruct (run_all _ _) as [st1 t_run]. cbn [snd] in Hex.
    destruct (for_each ds _ _) as [[r2 s2] t_rec] eqn:Hrec.
    intros Heq.
    assert (r = r2 ∧ s' = s2 ∧
            t = [Exists path true;
                 Logged (LogRecord INFO "%s path is being deleted on cloud" [PStr path])]
                ++ ([Listdir path ds fs; ExecutorEnter (MAX_WORKERS cfg)]
                    ++ (Submit <$> ((λ f, Delete (join path f)) <$> fs))
                    ++ t_run ++ [ExecutorExit]) ++ t_rec) as (-> & -> & ->).
    { injection Heq as <- <- <-. by rewrite <- !app_assoc. }
    clear Heq.
    apply (for_each_inv (λ s : @cloud St, pending s = []) all_tasks_reported (λ _, True))
      in Hrec as (Hp2 & Hrec & _);
      [|apply all_tasks_reported_nil|apply all_tasks_reported_app|done| |done].
    2:{ intros d s0 r0 s0' t0 _ Hp0 Hd. by destruct (IH _ _ _ _ _ Hp0 Hd). }
    split; [done|].
    apply all_tasks_reported_app; [|apply all_tasks_reported_app; [|done]].
    + split; [done|]. unfold logged, outcomes. simpl.
      by rewrite filter_cons_False by (intros H; vm_compute in H; discriminate).
    + exact Hex.
Qed.

(** X18. Every task is run and reported, none escalated: in any run of
    the upload from a fresh executor queue — whatever the storage does,
    and however the run ends — the tasks run are the tasks submitted,
    each once, and apart from the records of the clean-up walk and the
    error for an upload that is no zip container, the log holds, in the
    order the tasks ended, exactly what [future_result_handler] logs
    for each outcome: an INFO record for a returned value, an ERROR
    record for a raised exception, which goes no further. *)
Theorem unpack_reports_every_task fuel pkg path (s : @cloud St) r s' t :
  pending s = [] →
  unpack_and_upload_on_cloud cfg sched fuel pkg path s = (r, s', t) →
  ran t ≡ₚ submitted t ∧
  filter (λ r, is_walk_record r = false) (logged t) =
  (if is_zipfile pkg then []
   else [LogRecord ERROR "%s is not a valid zip" [PStr (name pkg)]])
  ++ (future_result_handler <$> outcomes t).
Proof.
  intros Hp. unfold unpack_and_upload_on_cloud.
  destruct (is_zipfile pkg) eqn:Hz; cbn [negb].
  2:{ intros [= <- <- <-]. by split. }
  rewrite bind_run.
  destruct (delete_existing_files_cloud cfg sched fuel path s) as [[r1 s1] t1] eqn:Hd.
  destruct (delete_existing_reported _ _ _ _ _ _ Hp Hd) as [Hp1 Ht1].
  destruct r1 as [[]| |]; [|by intros [= <- <- <-]..].
  unfold is_zipfile in Hz. unfold ZipFile.
  destruct (content pkg) as [| |z]; [done| |].
  { cbn. intros [= <- <- <-]. by rewrite app_nil_r. }
  rewrite bind_run. cbn -[with_executor].
  destruct (Z.leb_spec (MAX_WORKERS cfg) 0) as [Hle|Hpos].
  { rewrite with_executor_invalid by done. intros [= <- <- <-].
    by rewrite app_nil_r. }
  rewrite (with_executor_run cfg sched _ s1 _ _ Hpos
             (upload_loop z path (namelist z) s1 (λ n Hn, Hn))).
  cbn [store pending]. rewrite Hp1, app_nil_l.
  pose proof (executor_reported (upload_calls z path (namelist z)) (store s1)
    [ExecutorEnter (MAX_WORKERS cfg)] [ExecutorExit]
    eq_refl eq_refl eq_refl eq_refl eq_refl eq_refl) as Hex.
  destruct (run_all _ _) as [st' t2]. intros [= <- <- <-].
  change (ExecutorEnter (MAX_WORKERS cfg)
            :: (Submit <$> upload_calls z path (namelist z)) ++ t2 ++ [ExecutorExit])
    with ([ExecutorEnter (MAX_WORKERS cfg)]
            ++ (Submit <$> upload_calls z path (namelist z)) ++ t2 ++ [ExecutorExit]).
  exact (all_tasks_reported_app _ _ Ht1 Hex).
Qed.

End MoreCloud.

(** ** More on the reference backend *)

Section MoreKeyStore.
Import KeyStore.
Variable cfg : settings.
Variable sched : list call → list call.
Hypothesis sched_perm : ∀ l, sched l ≡ₚ l.

(** Tasks on other keys leave a key as it is. *)
Lemma run_all_frame (l : list call) (st : t) k :
  (∀ c, c ∈ l → components (key_of c) ≠ k) →
  objects (run_all l st).1 !! k = objects st !! k.
Proof.
  revert st. induction l as [|c l IH]; intros st Hl; [done|].
  rewrite run_all_cons.
  assert (components (key_of c) ≠ k) as Hc by (apply Hl; left).
  assert (objects (perform c st).1 !! k = objects st !! k) as Hst.
  { destruct c as [key|key data]; simpl in *.
    - unfold delete. destruct (decide _); [done|]. simpl.
      by apply lookup_delete_ne.
    - by apply lookup_insert_ne. }
  destruct (perform c st) as [st1 o]. simpl in Hst.
  specialize (IH st1). destruct (run_all l st1) as [st2 t2]. simpl in *.
  rewrite IH; [done|]. intros c' Hc'. apply Hl. by right.
Qed.

Lemma walk_frame k fuel : ∀ path (s : @cloud t) r s' tr,
  pending s = [] →
  wf (store s) →
  ¬ components path `prefix_of` k →
  delete_existing_files_cloud cfg sched fuel path s = (r, s', tr) →
  pending s' = [] ∧ wf (store s') ∧
  objects (store s') !! k = objects (store s) !! k.
Proof.
  induction fuel as [|fuel IH]; intros path s r s' tr Hp Hwf Hk.
  { by intros [= <- <- <-]. }
  destruct (Z.leb_spec (MAX_WORKERS cfg) 0) as [Hle|Hpos].
  { rewrite delete_existing_invalid by done.
    destruct (storage_exists (store s) path); [|by intros [= <- <- <-]].
    destruct (storage_listdir (store s) path). by intros [= <- <- <-]. }
  rewrite delete_existing_step by done.
  destruct (storage_exists (store s) path); [|by intros [= <- <- <-]].
  change (storage_listdir (store s) path) with (listdir (store s) path).
  destruct (listdir (store s) path) as [ds fs] eqn:Hls. cbv zeta.
  rewrite Hp, app_nil_l.
  set (deletes := (λ f, Delete (join path f)) <$> fs).
  assert (∀ f, f ∈ fs → components (join path f) = components path ++ [f]) as Hfiles.
  { intros f Hf. apply components_join_child.
    assert (f ∈ (listdir (store s) path).2) as Hf' by (by rewrite Hls).
    apply listdir_files, Hwf in Hf'.
    rewrite Forall_app, Forall_singleton in Hf'. tauto. }
  assert (∀ d, d ∈ ds → components (join path d) = components path ++ [d]) as Hdirs.
  { intros d Hd. apply components_join_child.
    assert (d ∈ (listdir (store s) path).1) as Hd' by (by rewrite Hls).
    apply listdir_dirs in Hd' as (c' & r' & Hd'). apply Hwf in Hd'.
    rewrite Forall_app, Forall_cons in Hd'. tauto. }
  assert (Forall (λ c, is_save c = false) (sched deletes)) as Hdel.
  { rewrite sched_perm. unfold deletes. apply Forall_fmap, Forall_forall. done. }
  pose proof (run_all_deletes (sched deletes) (store s) Hdel) as [Hle _].
  assert (objects (run_all (sched deletes) (store s)).1 !! k = objects (store s) !! k)
    as Hsame.
  { apply run_all_frame. intros c Hc. rewrite sched_perm in Hc.
    apply list_elem_of_fmap in Hc as (f & -> & Hf). simpl.
    rewrite (Hfiles f Hf). intros <-. apply Hk. by eexists. }
  destruct (run_all (sched deletes) (store s)) as [st1 t_run]. simpl in Hle, Hsame.
  destruct (for_each ds _ _) as [[r2 s2] t_rec] eqn:Hrec.
  intros Heq. injection Heq as <- <- _.
  apply (for_each_inv
           (λ s0 : @cloud t, pending s0 = [] ∧ wf (store s0) ∧
                             objects (store s0) !! k = objects (store s) !! k)
           (λ _, True) (λ _, True))
    in Hrec as (Hinv & _ & _); [done..| |].
  - intros d s0 r0 s0' t0 Hd (Hp0 & Hwf0 & Hk0) Hd0.
    split; [|done].
    assert (¬ components (join path d) `prefix_of` k) as Hpre.
    { intros Hpre. apply Hk. rewrite (Hdirs d Hd) in Hpre. by eapply prefix_app_l. }
    destruct (IH _ _ _ _ _ Hp0 Hwf0 Hpre Hd0) as (? & ? & Hk1).
    split; [done|]. split; [done|]. by rewrite Hk1.
  - simpl. split; [done|]. split; [|done]. by eapply le_store_wf.
Qed.

(** X6. The clean-up walk stays below its prefix: on the reference
    backend holding proper file names, a key that does not start with
    the components of [path] holds after the walk what it held before,
    however the walk ends. *)
Theorem walk_leaves_keys_outside_prefix fuel path (s : @cloud t) r s' tr k :
  pending s = [] →
  wf (store s) →
  ¬ components path `prefix_of` k →
  delete_existing_files_cloud cfg sched fuel path s = (r, s', tr) →
  objects (store s') !! k = objects (store s) !! k.
Proof.
  intros Hp Hwf Hk Hrun.
  by destruct (walk_frame k fuel _ _ _ _ _ Hp Hwf Hk Hrun) as (_ & _ & ?).
Qed.

Lemma omap_none {A B} (f : A → option B) (l : list A) :
  (∀ x, x ∈ l → f x = None) → omap f l = [].
Proof.
  induction l as [|x l IH]; intros Hl; [done|]. simpl.
  rewrite (Hl x) by left. apply IH. intros y Hy. apply Hl. by right.
Qed.

(** A prefix with no key strictly below it lists as empty. *)
Lemma listdir_empty (st : t) path :
  (∀ r, r ≠ [] → objects st !! (components path ++ r) = None) →
  listdir st path = ([], []).
Proof.
  intros Hnone. unfold listdir.
  assert (∀ r, r ∈ omap (strip_prefix (components path)) (keys st) → r = []) as Hb.
  { intros r Hr. apply elem_of_below in Hr.
    destruct r as [|c r]; [done|]. rewrite Hnone in Hr by done. by destruct Hr. }
  rewrite !omap_none; [done|..]; by intros r ->%Hb.
Qed.

(** X7. The clean-up walk is idempotent: on the reference backend
    holding proper file names at most [n] levels deep, none of them
    below [path] refused deletion, the walk returns, and a second walk
    from where the first ended finds nothing to do: it submits and
    runs no task and leaves the store as the first walk left it. *)
Theorem walk_twice_second_finds_nothing n path (s : @cloud t) :
  (0 < MAX_WORKERS cfg)%Z →
  pending s = [] →
  wf (store s) →
  deep n (components path) (store s) →
  (∀ k, below path k → k ∉ locked (store s)) →
  ∃ s1 t1 t2,
    delete_existing_files_cloud cfg sched (S n) path s = (Ret tt, s1, t1) ∧
    delete_existing_files_cloud cfg sched (S n) path s1 = (Ret tt, s1, t2) ∧
    tasks_of t2 = [].
Proof.
  intros Hpos Hp Hwf Hdeep Hfree.
  destruct (delete_existing_clears cfg sched sched_perm Hpos n path s Hp Hwf Hdeep)
    as (s1 & t1 & E1 & Hp1 & Hle & Hclr).
  exists s1, t1. rewrite E1.
  assert (listdir (store s1) path = ([], [])) as Hls.
  { apply listdir_empty. intros r Hr. apply Hclr; [done|].
    apply Hfree. by exists r. }
  rewrite delete_existing_step by done.
  change (storage_listdir (store s1) path) with (listdir (store s1) path).
  rewrite Hls, Hp1. cbv zeta. cbn [fmap list_fmap app].
  rewrite (proj1 (Permutation_nil_r _) (sched_perm [])).
  destruct s1 as [st1 p1]. simpl in Hp1. subst p1. cbn.
  destruct (exists_ st1 path); eexists; by split.
Qed.

(** Where a run of tasks leaves a key when every task on that key
    writes the same bytes and there is one. *)
Lemma run_all_writes (l : list call) (st : t) k d :
  (∀ c, c ∈ l → components (key_of c) = k → c = Save (key_of c) d) →
  (∃ c, c ∈ l ∧ components (key_of c) = k) →
  objects (run_all l st).1 !! k = Some d.
Proof.
  revert st. induction l as [|c l IH]; intros st Hsame Hex.
  { destruct Hex as (c & Hc & _). by apply elem_of_nil in Hc. }
  rewrite run_all_cons.
  destruct (decide (List.Exists (λ c, components (key_of c) = k) l)) as [Hl|Hl].
  - destruct (perform c st) as [st1 o]. specialize (IH st1).
    destruct (run_all l st1) as [st2 t2]. simpl. apply IH.
    + intros c' Hc'. apply Hsame. by right.
    + by apply Exists_exists in Hl.
  - assert (components (key_of c) = k) as Hc.
    { destruct Hex as (c' & [->|Hc']%elem_of_cons & Hk); [done|].
      destruct Hl. apply Exists_exists. eauto. }
    rewrite (Hsame c) by (done || left).
    cbn [perform storage_save storage]. unfold save.
    pose proof (run_all_frame l
      (Make (<[components (key_of c):=d]> (objects st)) (locked st)) k) as Hf.
    destruct (run_all l _) as [st2 t2]. simpl in *.
    rewrite Hf.
    + rewrite Hc. apply lookup_insert_eq.
    + intros c' Hc' Hk'. apply Hl, Exists_exists. eauto.
Qed.

(** X8. What is uploaded can be read back: on the reference backend
    holding proper file names at most [n] levels deep, when two
    surviving entries that land on one key carry the same bytes, a run
    returns and every surviving entry's key then holds the bytes
    [ZipFile.read] gave for it — whatever was there before and in
    whatever order the workers ran. *)
Theorem unpack_stores_archive_bytes n pkg z path (st : t) :
  (0 < MAX_WORKERS cfg)%Z →
  content pkg = ZipArchive z →
  wf st →
  (∀ k, is_Some (objects st !! k) → length k ≤ n) →
  (∀ e1 e2, e1 ∈ namelist z → e2 ∈ namelist z →
            survives e1 = true → survives e2 = true →
            components (join path e1) = components (join path e2) →
            entry_bytes z e1 = entry_bytes z e2) →
  ∃ s' tr,
    unpack_and_upload_on_cloud cfg sched (S n) pkg path (Cloud st []) = (Ret tt, s', tr) ∧
    ∀ e, e ∈ namelist z → survives e = true →
         objects (store s') !! components (join path e) = Some (entry_bytes z e).
Proof.
  intros Hpos Hz Hwf Hn Hcoll.
  rewrite (unpack_run cfg sched (S n) pkg z path _ Hpos Hz).
  destruct (delete_existing_clears cfg sched sched_perm Hpos n path (Cloud st []))
    as (s1 & t1 & E & Hp & Hle & Hclr); [done|done| |].
  { intros r Hr. apply Hn in Hr. rewrite length_app in Hr. lia. }
  rewrite E, Hp. cbn [app store]. cbv zeta.
  set (l := sched (upload_calls z path (namelist z))).
  assert (∀ c, c ∈ l ↔ ∃ e, e ∈ namelist z ∧ survives e = true ∧
                            c = Save (join path e) (entry_bytes z e)) as Hl.
  { intros c. unfold l. rewrite sched_perm. unfold upload_calls.
    rewrite list_elem_of_fmap. split.
    - intros (e & -> & [Hs He]%list_elem_of_filter). by exists e.
    - intros (e & He & Hs & ->). exists e. split; [done|].
      by apply list_elem_of_filter. }
  assert (∀ e, e ∈ namelist z → survives e = true →
               objects (run_all l (store s1)).1 !! components (join path e) =
               Some (entry_bytes z e)) as Hall.
  { intros e He Hs. apply run_all_writes.
    - intros c (e' & He' & Hs' & ->)%Hl Hk. simpl in *.
      by rewrite (Hcoll e' e).
    - exists (Save (join path e) (entry_bytes z e)). split; [|done].
      apply Hl. by exists e. }
  destruct (run_all l (store s1)) as [st' t2]. simpl in Hall.
  eexists _, _. split; [reflexivity|]. exact Hall.
Qed.

(** X17. An archive with nothing to write still empties the
    destination: on the reference backend holding proper file names at
    most [n] levels deep, when no entry of a valid archive survives the
    guard (an empty archive, or directory entries only), the run
    returns, submits no write, and leaves below [path] no key whose
    deletion the backend accepts. *)
Theorem unpack_without_survivors_clears_destination n pkg z path (st : t) :
  (0 < MAX_WORKERS cfg)%Z →
  content pkg = ZipArchive z →
  wf st →
  (∀ k, is_Some (objects st !! k) → length k ≤ n) →
  (∀ e, e ∈ namelist z → survives e = false) →
  ∃ s' tr,
    unpack_and_upload_on_cloud cfg sched (S n) pkg path (Cloud st []) = (Ret tt, s', tr) ∧
    submitted_saves tr = [] ∧
    ∀ k, below path k → k ∉ locked st → objects (store s') !! k = None.
Proof.
  intros Hpos Hz Hwf Hn Hnone.
  rewrite (unpack_run cfg sched (S n) pkg z path _ Hpos Hz).
  destruct (delete_existing_clears cfg sched sched_perm Hpos n path (Cloud st []))
    as (s1 & t1 & E & Hp & Hle & Hclr); [done|done| |].
  { intros r Hr. apply Hn in Hr. rewrite length_app in Hr. lia. }
  assert (upload_calls z path (namelist z) = []) as Hcalls.
  { unfold upload_calls. replace (filter _ (namelist z)) with (@nil string); [done|].
    symmetry. revert Hnone. generalize (namelist z). clear.
    induction l as [|e l IH]; intros Hl; [done|].
    rewrite filter_cons_False by (rewrite (Hl e) by left; done).
    apply IH. intros e' He'. apply Hl. by right. }
  rewrite E, Hp, Hcalls. cbn [app store fmap list_fmap]. cbv zeta.
  rewrite (proj1 (Permutation_nil_r _) (sched_perm [])). cbn.
  eexists _, _. split; [reflexivity|]. split.
  - rewrite submitted_saves_app. cbn.
    destruct (delete_existing_shape cfg sched (S n) Hpos path _ _ _ _ E) as (_ & -> & _).
    done.
  - intros k (r & Hr & ->) Hl. by apply Hclr.
Qed.

End MoreKeyStore.

(** ** More on the local file system *)

Section MoreLocalFS.
Import LocalFS.

Lemma dirname_prefix x : dirname x `prefix_of` x.
Proof.
  destruct (decide (x = [])) as [->|Hx]; [done|].
  exists [List.last x EmptyString]. by apply app_removelast_last.
Qed.

(** Setting the entry at [x] leaves alone every path that neither
    leads to [x] nor lies below it. *)
Lemma lookup_set_at_apart x v n q :
  ¬ x `prefix_of` q → ¬ q `prefix_of` x →
  lookup_path (set_at x v n) q = lookup_path n q.
Proof.
  revert n q. induction x as [|c x IH]; intros n q Hxq Hqx; [done|].
  destruct q as [|c' q]; [destruct Hqx; apply prefix_nil|].
  destruct n as [data|m]; [done|].
  destruct (decide (c = c')) as [<-|Hc].
  - destruct x as [|c2 x].
    { destruct Hxq. apply prefix_cons, prefix_nil. }
    cbn [set_at lookup_path]. rewrite lookup_alter_eq.
    destruct (m !! c) as [n'|]; [|done]. simpl.
    apply IH; intros H; [apply Hxq|apply Hqx]; by apply prefix_cons.
  - destruct x as [|c2 x]; cbn [set_at lookup_path].
    + destruct v; by rewrite ?lookup_insert_ne, ?lookup_delete_ne.
    + by rewrite lookup_alter_ne.
Qed.

(** Putting a file or an empty directory where there was none, or a
    file, leaves nothing below it, as before. *)
Lemma lookup_set_at_under x v fs m r :
  x ≠ [] → r ≠ [] →
  lookup_path fs (dirname x) = Some (Dir m) →
  (∀ m', lookup_path fs x ≠ Some (Dir m')) →
  (v = empty_dir ∨ ∃ data, v = File data) →
  lookup_path (set_at x (Some v) fs) (x ++ r) = lookup_path fs (x ++ r).
Proof.
  intros Hx Hr Hd Hnd Hv. rewrite !lookup_path_app.
  rewrite (lookup_set_at fs x (Some v) m Hx Hd).
  destruct r as [|c r]; [done|].
  transitivity (@None node).
  - destruct Hv as [->|[data ->]]; [|done]. simpl. by rewrite lookup_empty.
  - destruct (lookup_path fs x) as [[data|m']|]; [done| |done].
    by destruct (Hnd m').
Qed.

(** A directory found after [set_at p v] was a directory before, or
    came with [v]. *)
Lemma lookup_set_at_dir_inv n p v q m' :
  lookup_path (set_at p v n) q = Some (Dir m') →
  (∃ m'', lookup_path n q = Some (Dir m'')) ∨
  ∃ q', q = p ++ q' ∧ v ≫= (λ x, lookup_path x q') = Some (Dir m').
Proof.
  revert n q m'. induction p as [|c p IH]; intros n q m'; [intros H; left; eauto|].
  destruct n as [|m]; [intros H; left; eauto|]. destruct p as [|c' p].
  - cbn [set_at]. destruct q as [|c0 q]; [intros _; left; simpl; eauto|].
    cbn [lookup_path]. destruct (decide (c0 = c)) as [->|Hne].
    + intros H. right. exists q. split; [done|].
      destruct v; [by rewrite lookup_insert_eq in H|by rewrite lookup_delete_eq in H].
    + intros H. left. exists m'. destruct v;
        [by rewrite lookup_insert_ne in H|by rewrite lookup_delete_ne in H].
  - cbn [set_at]. destruct q as [|c0 q]; [intros _; left; simpl; eauto|].
    cbn [lookup_path]. destruct (decide (c0 = c)) as [->|Hne].
    + rewrite lookup_alter_eq. destruct (m !! c) as [n1|]; [|done]. simpl.
      intros [H|(q' & -> & H)]%IH; [by left|]. right. by exists q'.
    + rewrite lookup_alter_ne by done. intros H. left. eauto.
Qed.

#[local] Arguments set_at : simpl never.

Lemma strict_prefix_app (x q : list string) :
  x `prefix_of` q → ¬ q `prefix_of` x → ∃ r, r ≠ [] ∧ q = x ++ r.
Proof.
  intros [r ->] Hq. exists r. split; [|done].
  intros ->. apply Hq. by rewrite app_nil_r.
Qed.

(** [mkdir x] leaves alone every path that does not lead to [x]. *)
Lemma mkdir_keeps x q fs r fs' t :
  mkdir x fs = (r, fs', t) → ¬ q `prefix_of` x →
  lookup_path fs' q = lookup_path fs q.
Proof.
  intros Hrun Hq. destruct (decide (x = [])) as [->|Hx].
  { by injection Hrun as <- <- <-. }
  rewrite mkdir_nonempty in Hrun by done.
  destruct (lookup_path fs (dirname x)) as [[|m]|] eqn:Hd;
    [by injection Hrun as <- <- <-| |by injection Hrun as <- <- <-].
  destruct (lookup_path fs x) eqn:Hl; injection Hrun as <- <- <-; [done|].
  destruct (decide (x `prefix_of` q)) as [Hxq|Hxq].
  - destruct (strict_prefix_app x q Hxq Hq) as (r' & Hr' & ->).
    eapply lookup_set_at_under; eauto. intros m'. by rewrite Hl.
  - by apply lookup_set_at_apart.
Qed.

(** [write_file x] leaves alone every path that does not lead to [x]. *)
Lemma write_file_keeps x data q fs r fs' t :
  write_file x data fs = (r, fs', t) → ¬ q `prefix_of` x →
  lookup_path fs' q = lookup_path fs q.
Proof.
  intros Hrun Hq. destruct (decide (x = [])) as [->|Hx].
  { by injection Hrun as <- <- <-. }
  rewrite write_file_nonempty in Hrun by done.
  destruct (lookup_path fs (dirname x)) as [[|m]|] eqn:Hd;
    [by injection Hrun as <- <- <-| |by injection Hrun as <- <- <-].
  assert (lookup_path (set_at x (Some (File data)) fs) q = lookup_path fs q ∨
          ∃ m', lookup_path fs x = Some (Dir m')) as Hset.
  { destruct (lookup_path fs x) as [[d|m']|] eqn:Hl; [left|right; eauto|left].
    all: destruct (decide (x `prefix_of` q)) as [Hxq|Hxq];
      [|by apply lookup_set_at_apart].
    all: destruct (strict_prefix_app x q Hxq Hq) as (r' & Hr' & ->).
    all: eapply lookup_set_at_under; eauto; intros m'; by rewrite Hl. }
  destruct (lookup_path fs x) as [[d|m']|]; injection Hrun as <- <- <-; try done.
  all: by destruct Hset as [?|[? ?]].
Qed.

(** [mkdir x] never touches a regular file. *)
Lemma mkdir_keeps_file x q data fs r fs' t :
  mkdir x fs = (r, fs', t) →
  lookup_path fs q = Some (File data) → lookup_path fs' q = Some (File data).
Proof.
  intros Hrun Hf. destruct (decide (q `prefix_of` x)) as [[r' ->]|Hq].
  2:{ by rewrite (mkdir_keeps _ _ _ _ _ _ Hrun Hq). }
  enough (fs' = fs) by by subst.
  destruct r' as [|c r']; [rewrite app_nil_r in Hrun|].
  - unfold mkdir in Hrun. destruct q; [by injection Hrun as <- <- <-|].
    destruct (lookup_path fs (dirname _)) as [[|]|];
      [by injection Hrun as <- <- <-| |by injection Hrun as <- <- <-].
    rewrite Hf in Hrun. by injection Hrun as <- <- <-.
  - rewrite mkdir_nonempty in Hrun by (by destruct q).
    rewrite dirname_app, lookup_path_app, Hf in Hrun by done.
    destruct (dirname (c :: r')); cbn in Hrun; by injection Hrun as <- <- <-.
Qed.

(** [write_file x] touches no regular file but the one at [x]. *)
Lemma write_file_keeps_file x d q data fs r fs' t :
  write_file x d fs = (r, fs', t) → x ≠ q →
  lookup_path fs q = Some (File data) → lookup_path fs' q = Some (File data).
Proof.
  intros Hrun Hne Hf. destruct (decide (q `prefix_of` x)) as [[r' ->]|Hq].
  2:{ by rewrite (write_file_keeps _ _ _ _ _ _ _ Hrun Hq). }
  enough (fs' = fs) by by subst.
  destruct r' as [|c r']; [by rewrite app_nil_r in Hne|].
  rewrite write_file_nonempty in Hrun by (by destruct q).
  rewrite dirname_app, lookup_path_app, Hf in Hrun by done.
  destruct (dirname (c :: r')); cbn in Hrun; by injection Hrun as <- <- <-.
Qed.

(** A write that returns has put the file there. *)
Lemma write_file_ret x d fs fs' t :
  write_file x d fs = (Ret tt, fs', t) → lookup_path fs' x = Some (File d).
Proof.
  intros Hrun. destruct (decide (x = [])) as [->|Hx]; [done|].
  rewrite write_file_nonempty in Hrun by done.
  destruct (lookup_path fs (dirname x)) as [[|m]|] eqn:Hd; [done| |done].
  destruct (lookup_path fs x) as [[|]|]; try done; injection Hrun as <- <-;
    by eapply lookup_set_at.
Qed.

Section Keeps.
(** A property [I] of the tree that [mkdir] keeps at the paths in
    [ok_dir] and [write_file] at the paths in [ok_file] is kept by
    everything the extraction is made of. *)
Variable I : node → Prop.
Variables ok_dir ok_file : list string → Prop.

#[local] Abbreviation keeps := (holds I (λ _ : log_record, True)).

Hypothesis ok_dirname : ∀ x, ok_dir x → ok_dir (dirname x).
Hypothesis keeps_mkdir : ∀ x, ok_dir x → keeps (mkdir x).
Hypothesis keeps_write_file : ∀ x data, ok_file x → keeps (write_file x data).

Lemma keeps_path_exists x : keeps (path_exists x).
Proof. intros s r s' t HI [= <- <- <-]. auto. Qed.

Lemma keeps_isdir x : keeps (isdir x).
Proof. intros s r s' t HI [= <- <- <-]. auto. Qed.

Lemma keeps_mkdir_exist_ok x ok : ok_dir x → keeps (mkdir_exist_ok x ok).
Proof.
  intros Hq s r s' t HI. unfold mkdir_exist_ok.
  destruct (mkdir x s) as [[r1 s1] t1] eqn:E.
  destruct (keeps_mkdir x Hq s r1 s1 t1 HI E) as [HI1 HQ1].
  destruct r1; [by intros [= <- <- <-]| |by intros [= <- <- <-]].
  destruct (negb ok); [by intros [= <- <- <-]|].
  destruct (lookup_path s1 x) as [[|]|]; by intros [= <- <- <-].
Qed.

Lemma keeps_ignore_file_exists (m : IO unit) : keeps m → keeps (ignore_file_exists m).
Proof.
  intros Hm s r s' t HI. unfold ignore_file_exists.
  destruct (m s) as [[r1 s1] t1] eqn:E.
  destruct (Hm s r1 s1 t1 HI E) as [HI1 HQ1].
  destruct r1 as [|[]|]; by intros [= <- <- <-].
Qed.

Lemma keeps_makedirs_upto n x ok : ok_dir x → keeps (makedirs_upto n x ok).
Proof.
  revert x. induction n as [|n IH]; intros x Hq; rewrite makedirs_upto_eq.
  - apply holds_bind; [apply holds_ret|]. intros _. by apply keeps_mkdir_exist_ok.
  - apply holds_bind; [|intros _; by apply keeps_mkdir_exist_ok].
    apply holds_bind; [apply keeps_path_exists|].
    intros [|]; cbn [negb]; [apply holds_ret|].
    by apply keeps_ignore_file_exists, IH, ok_dirname.
Qed.

Lemma keeps_extract_member m p :
  ok_dir (p ++ arcname m) → ok_file (p ++ arcname m) → keeps (extract_member m p).
Proof.
  intros Hd Hf. unfold extract_member.
  apply holds_bind.
  - apply holds_bind; [apply keeps_path_exists|].
    intros [|]; cbn [negb]; [apply holds_ret|].
    by apply keeps_makedirs_upto, ok_dirname.
  - intros _. destruct (is_dir m).
    + apply holds_bind; [apply keeps_isdir|].
      intros [|]; cbn [negb]; [apply holds_ret|by apply keeps_mkdir].
    + by apply keeps_write_file.
Qed.

End Keeps.

Lemma not_prefix_dirname (q x : list string) :
  ¬ q `prefix_of` x → ¬ q `prefix_of` dirname x.
Proof. intros Hq H. apply Hq. etrans; [done|apply dirname_prefix]. Qed.

Lemma holds_trivial_trace {A} (I : node → Prop) (m : IO A) :
  (∀ fs r fs' t, I fs → m fs = (r, fs', t) → I fs') →
  holds I (λ _ : log_record, True) m.
Proof. intros H s r s' t HI Hrun. split; [eauto|by apply Forall_forall]. Qed.

(** The whole call keeps what a path resolves to when the path neither
    leads to the destination nor lies below it. *)
Lemma unpack_local_keeps q v0 pkg p :
  ¬ q `prefix_of` p → ¬ p `prefix_of` q →
  holds (λ fs, lookup_path fs q = v0) (λ _ : log_record, True)
        (unpack_package_local_path pkg p).
Proof.
  intros Hq Hp.
  assert (∀ x, ¬ q `prefix_of` x →
               holds (λ fs, lookup_path fs q = v0) (λ _ : log_record, True) (mkdir x))
    as Hmk.
  { intros x Hx. apply holds_trivial_trace. intros fs r fs' t <- Hrun.
    by eapply mkdir_keeps. }
  assert (∀ x data, ¬ q `prefix_of` x →
               holds (λ fs, lookup_path fs q = v0) (λ _ : log_record, True)
                     (write_file x data))
    as Hwr.
  { intros x data Hx. apply holds_trivial_trace. intros fs r fs' t <- Hrun.
    by eapply write_file_keeps. }
  unfold unpack_package_local_path.
  apply holds_bind.
  { unfold delete_path. apply holds_bind; [apply keeps_path_exists|].
    intros [|]; [|apply holds_ret].
    apply holds_trivial_trace. intros fs r fs' t <-. unfold rmtree.
    destruct (lookup_path fs p) as [[|]|];
      [by intros [= <- <- <-]| |by intros [= <- <- <-]].
    destruct p as [|c p]; [destruct Hp; apply prefix_nil|].
    intros [= <- <- <-]. by apply lookup_set_at_apart. }
  intros _. apply holds_bind.
  { by apply (keeps_makedirs_upto _ (λ x, ¬ q `prefix_of` x) (not_prefix_dirname q) Hmk). }
  intros _. destruct (negb (is_zipfile pkg)).
  - apply holds_bind; [by apply holds_emit|]. intros _. apply holds_ret.
  - apply holds_bind.
    { unfold ZipFile. destruct (content pkg); [apply holds_raise..|apply holds_ret]. }
    intros z. apply holds_bind; [by apply holds_emit|]. intros _.
    unfold extractall. apply holds_for_each. intros n _.
    destruct (getinfo z n) as [m|] eqn:E; [|apply holds_raise].
    assert (¬ q `prefix_of` p ++ arcname m) as Ha.
    { intros Ha.
      destruct (prefix_weak_total q p (p ++ arcname m) Ha); [by apply prefix_app_r| |];
        done. }
    by apply (keeps_extract_member _ (λ x, ¬ q `prefix_of` x) (λ x, ¬ q `prefix_of` x)
                (not_prefix_dirname q) Hmk Hwr).
Qed.

(** X9. The local unpacking is confined to its destination: whatever
    the archive holds and however the call ends, a path that neither
    leads to the destination nor lies below it resolves afterwards to
    what it resolved to before. *)
Theorem unpack_local_leaves_unrelated_paths pkg p fs r fs' t q :
  unpack_package_local_path pkg p fs = (r, fs', t) →
  ¬ q `prefix_of` p → ¬ p `prefix_of` q →
  lookup_path fs' q = lookup_path fs q.
Proof.
  intros Hrun Hq Hp.
  by destruct (unpack_local_keeps q (lookup_path fs q) pkg p Hq Hp fs r fs' t eq_refl Hrun).
Qed.

(** X10. A destination that is a regular file stops the local
    unpacking before it changes anything: [delete_path] finds the path,
    [shutil.rmtree] raises [NotADirectoryError] for it, and the call
    ends there, with the tree as it was and nothing logged. *)
Theorem unpack_local_on_regular_file_raises pkg p data fs :
  lookup_path fs p = Some (File data) →
  unpack_package_local_path pkg p fs = (Raise NotADirectoryError, fs, []).
Proof.
  intros Hf. unfold unpack_package_local_path, delete_path.
  rewrite !bind_run. unfold path_exists, rmtree. rewrite Hf.
  rewrite bool_decide_eq_true_2 by eauto. cbn beta iota. by rewrite Hf.
Qed.

(** X11. When [delete_path] returns, the path is gone with all that
    was below it, nothing is logged, and every path that neither leads
    to it nor lies below it resolves to what it resolved to before. *)
Theorem delete_path_returns_path_absent p fs fs' t :
  delete_path p fs = (Ret tt, fs', t) →
  t = [] ∧
  (∀ r, lookup_path fs' (p ++ r) = None) ∧
  (∀ q, ¬ q `prefix_of` p → ¬ p `prefix_of` q →
        lookup_path fs' q = lookup_path fs q).
Proof.
  unfold delete_path. rewrite bind_run. unfold path_exists.
  destruct (lookup_path fs p) as [[d|m]|] eqn:Hl.
  - rewrite bool_decide_eq_true_2 by eauto. unfold rmtree. by rewrite Hl.
  - rewrite bool_decide_eq_true_2 by eauto. unfold rmtree. rewrite Hl.
    destruct p as [|c p]; [done|]. intros [= <- <-].
    split; [done|]. split.
    + intros r. rewrite lookup_path_app.
      destruct (lookup_path_parent fs (c :: p) (Dir m)) as [m' Hm']; [done..|].
      by rewrite (lookup_set_at fs (c :: p) None m').
    + intros q Hq Hp. by apply lookup_set_at_apart.
  - rewrite bool_decide_eq_false_2 by (by intros [? ?]).
    intros [= <- <-]. split; [done|]. split; [|done].
    intros r. by rewrite lookup_path_app, Hl.
Qed.

Lemma arcname_parts m :
  Forall (λ c, is_component c = true ∧ c ≠ "." ∧ c ≠ "..") (arcname m).
Proof.
  apply Forall_forall. intros c [Hc Hin]%list_elem_of_filter.
  pose proof (split_sep_pieces (filename m)) as Hp.
  rewrite Forall_forall in Hp. specialize (Hp c Hin).
  unfold invalid_path_parts in Hc. rewrite !not_elem_of_cons in Hc.
  destruct Hc as (? & ? & ? & _). split; [|done]. by apply is_component_spec.
Qed.

(** X12. Local extraction puts files at sanitized names only: after
    unpacking a valid archive, however the call ends, every regular
    file below the destination is a member of the archive, holding the
    member's bytes at the member's name with its empty, ["."] and
    [".."] parts dropped — so no part of its path below the destination
    is empty, ["."], [".."] or holds a slash. *)
Theorem unpack_local_files_at_sanitized_names pkg z p fs r fs' t :
  content pkg = ZipArchive z → p ≠ [] → no_file_on p fs →
  unpack_package_local_path pkg p fs = (r, fs', t) →
  ∀ q data, lookup_path fs' (p ++ q) = Some (File data) →
    Forall (λ c, is_component c = true ∧ c ≠ "." ∧ c ≠ "..") q ∧
    ∃ m, m ∈ z ∧ arcname m = q ∧ payload m = data.
Proof.
  intros Hz Hp Hnf Hrun q data Hq.
  destruct (unpack_local_valid pkg z p fs Hz Hp Hnf) as (fs2 & t2 & E & Hl).
  rewrite E in Hrun. injection Hrun as _ <- _.
  rewrite lookup_path_app, Hl in Hq. simpl in Hq.
  destruct (extracted_files z q data Hq) as (m & Hm & <- & <-).
  split; [apply arcname_parts|eauto].
Qed.

Lemma NoDup_fmap_eq {A B} (f : A → B) (l : list A) x y :
  NoDup (f <$> l) → x ∈ l → y ∈ l → f x = f y → x = y.
Proof.
  induction l as [|a l IH]; intros Hnd Hx Hy Hf; [by apply elem_of_nil in Hx|].
  rewrite fmap_cons in Hnd. apply NoDup_cons in Hnd as [Ha Hnd].
  apply elem_of_cons in Hx as [->|Hx]; apply elem_of_cons in Hy as [->|Hy].
  - done.
  - destruct Ha. rewrite Hf. by apply list_elem_of_fmap_2.
  - destruct Ha. rewrite <- Hf. by apply list_elem_of_fmap_2.
  - by apply IH.
Qed.

Lemma for_each_fmap_in {S E A B} (f : A → B) (l : list A)
    (body : B → M S E unit) (body' : A → M S E unit) :
  (∀ x, x ∈ l → body (f x) = body' x) →
  for_each (f <$> l) body = for_each l body'.
Proof.
  induction l as [|x l IH]; intros Hb; [done|]. rewrite fmap_cons.
  cbn [for_each]. rewrite Hb by left. rewrite IH; [done|].
  intros y Hy. apply Hb. by right.
Qed.

(** With no two members of one name, extraction takes the members in
    directory order. *)
Lemma extractall_members z p :
  NoDup (namelist z) →
  extractall z p = for_each z (λ m, extract_member m p).
Proof.
  intros Hnd. unfold extractall, namelist. apply for_each_fmap_in.
  intros m Hm.
  destruct (getinfo_listed z (filename m)) as (m' & -> & Hm' & Hn).
  { by apply list_elem_of_fmap_2. }
  by rewrite (NoDup_fmap_eq filename z m' m Hnd Hm' Hm Hn).
Qed.

Lemma extract_member_ret m p fs fs' t :
  extract_member m p fs = (Ret tt, fs', t) → is_dir m = false →
  lookup_path fs' (p ++ arcname m) = Some (File (payload m)).
Proof.
  unfold extract_member. rewrite bind_run. intros Hrun Hd. rewrite Hd in Hrun.
  match type of Hrun with
  | context [mbind ?f ?m fs] => destruct (mbind f m fs) as [[[[]| |] fs0] t0]; [|done..]
  end.
  destruct (write_file _ _ fs0) as [[r1 fs1] t1] eqn:Hw.
  injection Hrun as -> -> _. by eapply write_file_ret.
Qed.

(** Extracting a member keeps the regular files stored elsewhere. *)
Lemma extract_member_keeps_file m p q data :
  p ++ arcname m ≠ q →
  holds (λ fs, lookup_path fs q = Some (File data)) (λ _ : log_record, True)
        (extract_member m p).
Proof.
  intros Hne.
  apply (keeps_extract_member _ (λ _, True) (λ x, x ≠ q)); [done| | |done|done].
  - intros x _. apply holds_trivial_trace. intros fs r fs' t Hf Hrun.
    by eapply mkdir_keeps_file.
  - intros x d Hx. apply holds_trivial_trace. intros fs r fs' t Hf Hrun.
    by eapply write_file_keeps_file.
Qed.

Lemma extract_members_files p : ∀ ms fs fs' t,
  NoDup (arcname <$> ms) →
  for_each ms (λ m, extract_member m p) fs = (Ret tt, fs', t) →
  ∀ m, m ∈ ms → is_dir m = false →
       lookup_path fs' (p ++ arcname m) = Some (File (payload m)).
Proof.
  induction ms as [|m0 ms IH]; intros fs fs' t Hnd Hrun m Hm Hd.
  { by apply elem_of_nil in Hm. }
  rewrite fmap_cons in Hnd. apply NoDup_cons in Hnd as [Hm0 Hnd].
  cbn [for_each] in Hrun. rewrite bind_run in Hrun.
  destruct (extract_member m0 p fs) as [[[[]| |] fs1] t1] eqn:E0; [|done..].
  destruct (for_each ms _ fs1) as [[r2 fs2] t2] eqn:E1.
  injection Hrun as -> -> _.
  apply elem_of_cons in Hm as [->|Hm]; [|by eapply IH].
  pose proof (extract_member_ret _ _ _ _ _ E0 Hd) as Hf.
  eapply (holds_for_each
            (λ fs, lookup_path fs (p ++ arcname m0) = Some (File (payload m0)))
            (λ _ : log_record, True)); [|exact Hf|exact E1].
  intros m' Hm'. apply extract_member_keeps_file.
  intros Heq%app_inv_head. apply Hm0. rewrite <- Heq. by apply list_elem_of_fmap_2.
Qed.

(** X13. What is unpacked locally can be read back: when no two members
    of the archive have the same sanitized name and the call returns,
    every member that is not a directory entry is a regular file at its
    sanitized name below the destination, holding the member's bytes. *)
Theorem unpack_local_extracts_every_file pkg z p fs fs' t :
  content pkg = ZipArchive z →
  NoDup (arcname <$> z) →
  unpack_package_local_path pkg p fs = (Ret tt, fs', t) →
  ∀ m, m ∈ z → is_dir m = false →
       lookup_path fs' (p ++ arcname m) = Some (File (payload m)).
Proof.
  intros Hz Hnd. unfold unpack_package_local_path, is_zipfile, ZipFile.
  rewrite Hz. cbn [negb]. rewrite bind_run.
  destruct (delete_path p fs) as [[[[]| |] fsa] ta]; [|done..].
  rewrite bind_run.
  destruct (makedirs p false fsa) as [[[[]| |] fsb] tb]; [|done..].
  rewrite bind_run. cbn -[extractall]. rewrite bind_run. cbn -[extractall].
  destruct (extractall z p fsb) as [[r fsc] tc] eqn:E.
  intros [= -> -> _].
  rewrite extractall_members in E.
  - by eapply extract_members_files.
  - assert (arcname <$> z = (λ n, arcname (ZipInfo n [])) <$> namelist z) as Heq.
    { unfold namelist. rewrite <- list_fmap_compose. by apply list_fmap_ext. }
    rewrite Heq in Hnd. by apply NoDup_fmap_1 in Hnd.
Qed.

(** [mkdir] and [write_file] leave a directory a directory. *)
Lemma mkdir_keeps_dir x q m0 fs r fs' t :
  mkdir x fs = (r, fs', t) → lookup_path fs q = Some (Dir m0) →
  ∃ m1, lookup_path fs' q = Some (Dir m1).
Proof.
  intros Hrun Hd. destruct (decide (q `prefix_of` x)) as [[r' ->]|Hq].
  2:{ rewrite (mkdir_keeps _ _ _ _ _ _ Hrun Hq). eauto. }
  destruct (decide (q ++ r' = [])) as [E|Hne].
  { rewrite E in Hrun. injection Hrun as <- <- <-. eauto. }
  rewrite mkdir_nonempty in Hrun by done.
  destruct (lookup_path fs (dirname (q ++ r'))) as [[|]|];
    [injection Hrun as <- <- <-; eauto| |injection Hrun as <- <- <-; eauto].
  destruct (lookup_path fs (q ++ r')) eqn:Hx; injection Hrun as <- <- <-; [eauto|].
  destruct r' as [|c r']; [rewrite app_nil_r in Hx; congruence|].
  rewrite (lookup_set_at_below fs q (c :: r') _ (Dir m0)) by done.
  destruct (set_at_dir (c :: r') (Some empty_dir) m0) as [m1 ->]. eauto.
Qed.

Lemma write_file_keeps_dir x data q m0 fs r fs' t :
  write_file x data fs = (r, fs', t) → lookup_path fs q = Some (Dir m0) →
  ∃ m1, lookup_path fs' q = Some (Dir m1).
Proof.
  intros Hrun Hd. destruct (decide (q `prefix_of` x)) as [[r' ->]|Hq].
  2:{ rewrite (write_file_keeps _ _ _ _ _ _ _ Hrun Hq). eauto. }
  destruct (decide (q ++ r' = [])) as [E|Hne].
  { rewrite E in Hrun. injection Hrun as <- <- <-. eauto. }
  rewrite write_file_nonempty in Hrun by done.
  destruct (lookup_path fs (dirname (q ++ r'))) as [[|]|];
    [injection Hrun as <- <- <-; eauto| |injection Hrun as <- <- <-; eauto].
  destruct r' as [|c r'].
  { rewrite app_nil_r in Hrun. rewrite Hd in Hrun. injection Hrun as <- <- <-. eauto. }
  assert (∃ m1, lookup_path (set_at (q ++ c :: r') (Some (File data)) fs) q = Some (Dir m1))
    as Hset.
  { rewrite (lookup_set_at_below fs q (c :: r') _ (Dir m0)) by done.
    destruct (set_at_dir (c :: r') (Some (File data)) m0) as [m1 ->]. eauto. }
  destruct (lookup_path fs (q ++ c :: r')) as [[|]|]; injection Hrun as <- <- <-; eauto.
Qed.

(** [write_file] leaves a regular file a regular file. *)
Lemma write_file_keeps_some_file x d q data fs r fs' t :
  write_file x d fs = (r, fs', t) → lookup_path fs q = Some (File data) →
  ∃ data', lookup_path fs' q = Some (File data').
Proof.
  intros Hrun Hf. destruct (decide (x = q)) as [->|Hne].
  2:{ exists data. by eapply write_file_keeps_file. }
  destruct (decide (q = [])) as [->|Hq].
  { injection Hrun as <- <- <-. eauto. }
  rewrite write_file_nonempty in Hrun by done.
  destruct (lookup_path fs (dirname q)) as [[|m]|] eqn:Hd;
    [injection Hrun as <- <- <-; eauto| |injection Hrun as <- <- <-; eauto].
  rewrite Hf in Hrun. injection Hrun as <- <- <-.
  exists d. by eapply lookup_set_at.
Qed.

(** A [mkdir] that returns has made the directory. *)
Lemma mkdir_ret x fs fs' t :
  mkdir x fs = (Ret tt, fs', t) → lookup_path fs' x = Some empty_dir.
Proof.
  intros Hrun. destruct (decide (x = [])) as [->|Hx]; [done|].
  rewrite mkdir_nonempty in Hrun by done.
  destruct (lookup_path fs (dirname x)) as [[|m]|] eqn:Hd; [done| |done].
  destruct (lookup_path fs x); [done|]. injection Hrun as <- <-.
  by eapply lookup_set_at.
Qed.

Lemma extract_member_dir_ret m p fs fs' t :
  extract_member m p fs = (Ret tt, fs', t) → is_dir m = true →
  ∃ d, lookup_path fs' (p ++ arcname m) = Some (Dir d).
Proof.
  unfold extract_member. rewrite bind_run. intros Hrun Hd. rewrite Hd in Hrun.
  match type of Hrun with
  | context [mbind ?f ?m fs] => destruct (mbind f m fs) as [[[[]| |] fs0] t0]; [|done..]
  end.
  rewrite bind_run in Hrun. unfold isdir in Hrun.
  destruct (lookup_path fs0 (p ++ arcname m)) as [[|d]|] eqn:Hl; cbn [negb] in Hrun.
  - destruct (mkdir _ fs0) as [[r1 fs1] t1] eqn:Hm. injection Hrun as -> -> _.
    apply mkdir_ret in Hm. eauto.
  - injection Hrun as <- _. eauto.
  - destruct (mkdir _ fs0) as [[r1 fs1] t1] eqn:Hm. injection Hrun as -> -> _.
    apply mkdir_ret in Hm. eauto.
Qed.

(** Extracting a member leaves a directory a directory and a regular
    file a regular file. *)
Lemma extract_member_keeps_is_dir m p q :
  holds (λ fs, ∃ d, lookup_path fs q = Some (Dir d)) (λ _ : log_record, True)
        (extract_member m p).
Proof.
  apply (keeps_extract_member _ (λ _, True) (λ _, True)); [done| | |done|done].
  - intros x _. apply holds_trivial_trace. intros fs r fs' t [d Hd] Hrun.
    by eapply mkdir_keeps_dir.
  - intros x data _. apply holds_trivial_trace. intros fs r fs' t [d Hd] Hrun.
    by eapply write_file_keeps_dir.
Qed.

Lemma extract_member_keeps_is_file m p q :
  holds (λ fs, ∃ data, lookup_path fs q = Some (File data)) (λ _ : log_record, True)
        (extract_member m p).
Proof.
  apply (keeps_extract_member _ (λ _, True) (λ _, True)); [done| | |done|done].
  - intros x _. apply holds_trivial_trace. intros fs r fs' t [d Hd] Hrun.
    exists d. by eapply mkdir_keeps_file.
  - intros x data _. apply holds_trivial_trace. intros fs r fs' t [d Hd] Hrun.
    by eapply write_file_keeps_some_file.
Qed.

(** An extraction that returns has made every member it took up: a
    directory for a directory entry, a regular file for any other. *)
Lemma extract_names_made z p : ∀ l fs fs' t,
  for_each l (λ n, match getinfo z n with
                   | Some m => extract_member m p
                   | None => raise (KeyError n)
                   end) fs = (Ret tt, fs', t) →
  ∀ n m, n ∈ l → getinfo z n = Some m →
    if is_dir m then ∃ d, lookup_path fs' (p ++ arcname m) = Some (Dir d)
    else ∃ data, lookup_path fs' (p ++ arcname m) = Some (File data).
Proof.
  set (body := λ n, match getinfo z n with
                    | Some m => extract_member m p
                    | None => raise (KeyError n)
                    end).
  induction l as [|n0 l IH]; intros fs fs' t Hrun n m Hn Hg.
  { by apply elem_of_nil in Hn. }
  cbn [for_each] in Hrun. rewrite bind_run in Hrun.
  destruct (body n0 fs) as [[[[]| |] fs1] t1] eqn:E0; [|done..].
  destruct (for_each l body fs1) as [[r2 fs2] t2] eqn:E1.
  injection Hrun as -> -> _.
  apply elem_of_cons in Hn as [->|Hn]; [|by eapply IH].
  unfold body in E0. rewrite Hg in E0.
  assert (∀ n', n' ∈ l →
            ∀ (I : node → Prop),
              (∀ m', holds I (λ _ : log_record, True) (extract_member m' p)) →
              holds I (λ _ : log_record, True)
                (match getinfo z n' with
                 | Some m' => extract_member m' p
                 | None => raise (KeyError n')
                 end)) as Hbody.
  { intros n' _ I HI. destruct (getinfo z n'); [apply HI|apply holds_raise]. }
  destruct (is_dir m) eqn:Hd.
  - pose proof (extract_member_dir_ret _ _ _ _ _ E0 Hd) as Hmade.
    eapply (holds_for_each (λ fs, ∃ d, lookup_path fs (p ++ arcname m) = Some (Dir d))
              (λ _ : log_record, True)); [|exact Hmade|exact E1].
    intros n' Hn'. apply Hbody; [done|]. intros m'. apply extract_member_keeps_is_dir.
  - pose proof (extract_member_ret _ _ _ _ _ E0 Hd) as Hmade.
    eapply (holds_for_each (λ fs, ∃ data, lookup_path fs (p ++ arcname m) = Some (File data))
              (λ _ : log_record, True)); [|eexists; exact Hmade|exact E1].
    intros n' Hn'. apply Hbody; [done|]. intros m'. apply extract_member_keeps_is_file.
Qed.

(** Every directory of [extracted z], the top one apart, leads to a
    member of [z]. *)
Lemma extracted_dirs z q d :
  q ≠ [] → lookup_path (extracted z).2 q = Some (Dir d) →
  ∃ m, m ∈ z ∧ q `prefix_of` arcname m.
Proof.
  set (I := λ fs : node, ∀ q d, q ≠ [] → lookup_path fs q = Some (Dir d) →
                                ∃ m, m ∈ z ∧ q `prefix_of` arcname m).
  set (ok := λ x : list string, ∃ m, m ∈ z ∧ x `prefix_of` arcname m).
  assert (holds I (λ _ : log_record, True) (extractall z [])) as Hall.
  { unfold extractall. apply holds_for_each. intros n _.
    destruct (getinfo z n) as [m|] eqn:E; [|apply holds_raise].
    assert (ok ([] ++ arcname m)) as Hok by (exists m; split; [by eapply getinfo_member|done]).
    apply (keeps_extract_member I ok (λ _, True)); [| | |done..].
    - intros x (m' & Hm' & Hx). exists m'. split; [done|].
      etrans; [apply dirname_prefix|done].
    - intros x Hx. apply holds_trivial_trace. intros fs r fs' t HI Hrun.
      destruct (decide (x = [])) as [->|Hne]; [by injection Hrun as <- <- <-|].
      rewrite mkdir_nonempty in Hrun by done.
      destruct (lookup_path fs (dirname x)) as [[|]|];
        [by injection Hrun as <- <- <-| |by injection Hrun as <- <- <-].
      destruct (lookup_path fs x); injection Hrun as <- <- <-; [done|].
      intros q' d' Hq' [[d'' H]|(q'' & -> & H)]%lookup_set_at_dir_inv; [by eapply HI|].
      simpl in H. apply lookup_empty_dir in H as [-> _]. by rewrite app_nil_r.
    - intros x data _. apply holds_trivial_trace. intros fs r fs' t HI Hrun.
      destruct (decide (x = [])) as [->|Hne]; [by injection Hrun as <- <- <-|].
      rewrite write_file_nonempty in Hrun by done.
      destruct (lookup_path fs (dirname x)) as [[|]|];
        [by injection Hrun as <- <- <-| |by injection Hrun as <- <- <-].
      assert (I (set_at x (Some (File data)) fs)) as Hnew.
      { intros q' d' Hq' [[d'' H]|(q'' & -> & H)]%lookup_set_at_dir_inv; [by eapply HI|].
        simpl in H. by destruct q''. }
      destruct (lookup_path fs x) as [[|]|]; by injection Hrun as <- <- <-. }
  intros Hq Hl. unfold extracted in Hl.
  destruct (extractall z [] empty_dir) as [[r n] t] eqn:E.
  destruct (Hall empty_dir r n t) as [H _]; [|done|by eapply H].
  intros q' d' Hq' [-> _]%lookup_empty_dir. done.
Qed.

(** When extracting [z] returns, every member of [z] is in
    [extracted z]: a directory for a directory entry, and for any
    other a regular file holding the bytes of a member of that
    sanitized name — the member's own when no other has that name. *)
Lemma extracted_members z m :
  (extracted z).1 = Ret tt → m ∈ z →
  if is_dir m then ∃ d, lookup_path (extracted z).2 (arcname m) = Some (Dir d)
  else ∃ m', m' ∈ z ∧ arcname m' = arcname m ∧
             lookup_path (extracted z).2 (arcname m) = Some (File (payload m')) ∧
             (NoDup (arcname <$> z) → m' = m).
Proof.
  intros Hret Hm. pose proof (extracted_files z) as Hfiles. unfold extracted in *.
  destruct (extractall z [] empty_dir) as [[r n] t] eqn:E. simpl in Hret. subst r.
  destruct (getinfo_listed z (filename m)) as (m0 & Hg & Hm0 & Hn0).
  { by apply list_elem_of_fmap_2. }
  pose proof (extract_names_made z [] _ _ _ _ E (filename m) m0
                (list_elem_of_fmap_2 filename z m Hm) Hg) as Hmade.
  assert (arcname m0 = arcname m) as Ha by (unfold arcname; by rewrite Hn0).
  assert (is_dir m0 = is_dir m) as Hd by (unfold is_dir; by rewrite Hn0).
  rewrite Ha, Hd in Hmade. cbn [app] in Hmade.
  destruct (is_dir m); [done|]. destruct Hmade as [data Hdata].
  destruct (Hfiles _ _ Hdata) as (m' & Hm' & Ha' & <-).
  exists m'. split_and!; [done..|].
  intros Hnd. by eapply NoDup_fmap_eq.
Qed.

(** C7. Two calls in a row on one destination, both archives valid,
    the first call having returned: the second call ends the way
    extracting the second archive into an empty directory ends, and
    the destination then holds exactly what that extraction leaves.
    That is nothing but the second archive: every file below the
    destination is a member of the second archive with that member's
    bytes, and every directory below it leads to such a member. And,
    when the second call returns, it is all of the second archive:
    every directory entry is a directory, every other member a file
    at its sanitized name that holds the bytes of a member of that
    name — its own, when no two members share a sanitized name.
    Nothing of the first archive is merged in: what its members left
    is gone unless the second archive puts something there. *)
Theorem unpack_local_twice_leaves_second pkg1 z1 pkg2 z2 p fs fs1 log1 :
  content pkg1 = ZipArchive z1 →
  content pkg2 = ZipArchive z2 →
  unpack_package_local_path pkg1 p fs = (Ret tt, fs1, log1) →
  ∃ fs2 log2,
    unpack_package_local_path pkg2 p fs1 = ((extracted z2).1, fs2, log2) ∧
    lookup_path fs2 p = Some (extracted z2).2 ∧
    (∀ q data, lookup_path fs2 (p ++ q) = Some (File data) →
               ∃ m, m ∈ z2 ∧ arcname m = q ∧ payload m = data) ∧
    (∀ q d, q ≠ [] → lookup_path fs2 (p ++ q) = Some (Dir d) →
            ∃ m, m ∈ z2 ∧ q `prefix_of` arcname m) ∧
    ((extracted z2).1 = Ret tt →
     ∀ m, m ∈ z2 →
       if is_dir m then ∃ d, lookup_path fs2 (p ++ arcname m) = Some (Dir d)
       else ∃ m', m' ∈ z2 ∧ arcname m' = arcname m ∧
                  lookup_path fs2 (p ++ arcname m) = Some (File (payload m')) ∧
                  (NoDup (arcname <$> z2) → m' = m)) ∧
    (∀ m1, m1 ∈ z1 → arcname m1 ≠ [] →
           (∀ m2, m2 ∈ z2 → ¬ arcname m1 `prefix_of` arcname m2) →
           lookup_path fs2 (p ++ arcname m1) = None).
Proof.
  intros _ Hz2 (Hp & m1 & Hl1)%unpack_local_ret.
  destruct (unpack_local_valid pkg2 z2 p fs1 Hz2 Hp (dir_no_file_on _ _ _ Hl1))
    as (fs2 & log2 & E & Hl2).
  exists fs2, log2.
  assert (∀ q, lookup_path fs2 (p ++ q) = lookup_path (extracted z2).2 q) as Hq.
  { intros q. by rewrite lookup_path_app, Hl2. }
  assert (∀ q data, lookup_path fs2 (p ++ q) = Some (File data) →
                    ∃ m, m ∈ z2 ∧ arcname m = q ∧ payload m = data) as Hfiles.
  { intros q data. rewrite Hq. apply extracted_files. }
  assert (∀ q d, q ≠ [] → lookup_path fs2 (p ++ q) = Some (Dir d) →
                 ∃ m, m ∈ z2 ∧ q `prefix_of` arcname m) as Hdirs.
  { intros q d Hne. rewrite Hq. by apply extracted_dirs. }
  split_and!; [done..| |].
  - intros Hret m Hm. rewrite Hq. by apply extracted_members.
  - intros m0 _ Hne Hnone.
    destruct (lookup_path fs2 (p ++ arcname m0)) as [[data|d]|] eqn:Hl; [| |done].
    + destruct (Hfiles _ _ Hl) as (m & Hm & Ha & _).
      destruct (Hnone m Hm). by rewrite Ha.
    + destruct (Hdirs _ _ Hne Hl) as (m & Hm & Ha). by destruct (Hnone m Hm).
Qed.

End MoreLocalFS.

(** ** Choosing the storage backend *)

Section StorageChoice.
Context {V : Type}.
Implicit Types (cfg : storage_conf V) (h : gmap string (cfgval V)).

(** Whether [settings.STORAGES] is a dict that has the alias. *)
Lemma registered_spec cfg :
  match default (StoragesDict ∅) (STORAGES cfg) with
  | StoragesDict aliases => bool_decide ("h5pxblock_storage" ∈ aliases)
  | StoragesOther => false
  end = true ↔
  ∃ aliases, STORAGES cfg = Some (StoragesDict aliases) ∧
             "h5pxblock_storage" ∈ aliases.
Proof.
  destruct (STORAGES cfg) as [[aliases|]|]; simpl.
  - rewrite bool_decide_eq_true. split; [eauto|]. by intros (? & [= <-] & ?).
  - split; [done|]. by intros (? & [=] & ?).
  - rewrite bool_decide_eq_true. split; [set_solver|]. by intros (? & [=] & ?).
Qed.

Lemma py_or_spec (a b c : cfgval V) :
  truthy c = true →
  py_or a b = c ↔ a = c ∨ truthy a = false ∧ b = c.
Proof.
  intros Hc. unfold py_or. destruct (truthy a) eqn:Ha.
  - split; [auto|]. intros [?|[? ?]]; [done|discriminate].
  - split; [auto|]. intros [->|[? ?]]; [congruence|done].
Qed.

Lemma py_or_falsy (a b : cfgval V) :
  truthy (py_or a b) = false ↔ truthy a = false ∧ truthy b = false.
Proof.
  unfold py_or. destruct (truthy a) eqn:Ha.
  - rewrite Ha. split; [done|by intros [? ?]].
  - split; [done|by intros [? ?]].
Qed.

(** X14. The registry comes first: [get_h5p_storage] returns
    [storages["h5pxblock_storage"]] exactly when [settings.STORAGES] is
    a dict that has that alias — whatever [H5PXBLOCK_STORAGE] holds,
    which is then not even read. *)
Theorem get_h5p_storage_registry_first cfg alias :
  get_h5p_storage cfg = FromRegistry alias ↔
  alias = "h5pxblock_storage" ∧
  ∃ aliases, STORAGES cfg = Some (StoragesDict aliases) ∧
             "h5pxblock_storage" ∈ aliases.
Proof.
  rewrite <- registered_spec. unfold get_h5p_storage. case_registered Hreg.
  - split; [intros [= <-]|intros [-> _]]; done.
  - split; [|by intros [_ ?]]. intros Hr. exfalso. revert Hr. cbv zeta.
    destruct (negb (truthy _)); [done|].
    destruct (default CNone (H5PXBLOCK_STORAGE cfg)) as [| |h|]; try done.
    destruct (truthy _); [|done].
    destruct (py_or (dict_get h "storage_class") _); try done.
    by destruct (py_or (py_or _ _) _).
Qed.

(** X15. How the legacy setting is read: when [get_h5p_storage]
    instantiates a class, the import path is a non-empty string, the
    value of ["storage_class"] if that is true and else of
    ["STORAGE_CLASS"]; the keyword arguments are the dict under
    ["settings"] if that is not empty, else the one under
    ["STORAGE_KWARGS"] if that is not empty, else none. The lower-case
    keys shadow the upper-case ones, each on its own. *)
Theorem get_h5p_storage_legacy_keys cfg path kwargs :
  get_h5p_storage cfg = Instantiate path kwargs →
  path ≠ EmptyString ∧
  ∃ h, H5PXBLOCK_STORAGE cfg = Some (CDict h) ∧
    (dict_get h "storage_class" = CStr path ∨
     truthy (dict_get h "storage_class") = false ∧
     dict_get h "STORAGE_CLASS" = CStr path) ∧
    (dict_get h "settings" = CDict kwargs ∧ kwargs ≠ ∅ ∨
     truthy (dict_get h "settings") = false ∧
     dict_get h "STORAGE_KWARGS" = CDict kwargs ∧ kwargs ≠ ∅ ∨
     truthy (dict_get h "settings") = false ∧
     truthy (dict_get h "STORAGE_KWARGS") = false ∧ kwargs = ∅).
Proof.
  unfold get_h5p_storage. case_registered Hreg; [done|]. cbv zeta.
  destruct (negb (truthy _)); [done|].
  destruct (H5PXBLOCK_STORAGE cfg) as [[| |h|]|]; simpl; try done.
  destruct (truthy (py_or (dict_get h "storage_class") _)) eqn:Ht; [|done].
  destruct (py_or (dict_get h "storage_class") _) as [|c| |] eqn:Hc; try done.
  destruct (py_or (py_or _ _) _) as [| |k|] eqn:Hk; try done.
  intros [= -> ->]. split; [by destruct path|].
  exists h. split; [done|]. split; [exact (proj1 (py_or_spec _ _ _ Ht) Hc)|].
  assert (∀ d : gmap string V, truthy (CDict d) = true ↔ d ≠ ∅) as Hd.
  { intros d. simpl. rewrite negb_true_iff, bool_decide_eq_false.
    by rewrite map_size_empty_iff. }
  destruct (decide (kwargs = ∅)) as [->|Hne].
  - right. right. unfold py_or at 1 in Hk.
    destruct (truthy (py_or _ _)) eqn:Hin.
    + rewrite Hk in Hin. apply Hd in Hin. done.
    + by apply py_or_falsy in Hin as [? ?].
  - apply Hd in Hne.
    destruct (proj1 (py_or_spec _ _ _ Hne) Hk) as [Hk1|[Hf [= <-]]].
    + destruct (proj1 (py_or_spec _ _ _ Hne) Hk1) as [Hk2|[? Hk2]].
      * left. split; [done|]. by apply Hd.
      * right. left. split; [done|]. split; [done|]. by apply Hd.
    + by apply Hd in Hne.
Qed.


End StorageChoice.

(** ** The further statements at sample inputs *)

Section MoreSamples.
Import Samples KeyStore LocalFS.

Lemma upload_absolute_entry_leaves_destination_witness :
  let z := [ZipInfo "/etc/cron.d/job" (b "* * * * *")] in
  upload_entry z "h5p" "/etc/cron.d/job" (Cloud old_store []) =
  (Ret tt,
   Cloud old_store [Save "/etc/cron.d/job" (entry_bytes z "/etc/cron.d/job")],
   [Submit (Save "/etc/cron.d/job" (entry_bytes z "/etc/cron.d/job"))]).
Proof.
  apply (upload_absolute_entry_leaves_destination
           [ZipInfo "/etc/cron.d/job" (b "* * * * *")] "h5p" "/etc/cron.d/job"
           (Cloud old_store [])).
  - vm_compute. left.
  - reflexivity.
  - vm_compute. reflexivity.
Defined.

Lemma upload_keeps_entry_by_last_part_witness :
  upload_entry evil_entries "h5p" "../evil.js" (Cloud old_store []) =
  (Ret tt,
   Cloud old_store [Save (join "h5p" "../evil.js") (entry_bytes evil_entries "../evil.js")],
   [Submit (Save (join "h5p" "../evil.js") (entry_bytes evil_entries "../evil.js"))]).
Proof.
  apply (upload_keeps_entry_by_last_part evil_entries "h5p" ".." "evil.js"
           (Cloud old_store [])).
  - vm_compute. right. left.
  - reflexivity.
  - discriminate.
  - discriminate.
Defined.

Lemma unpack_relative_entries_extend_destination_witness :
  let run :=
    unpack_and_upload_on_cloud default_settings fifo 4 site_pkg "h5p"
      (Cloud old_store []) in
  Forall (λ n, startswith_sep n = false) (namelist site_entries) ∧
  ∀ k d, Save k d ∈ tasks_of run.2 →
    ∃ n, n ∈ namelist site_entries ∧ survives n = true ∧ k = join "h5p" n ∧
         components k = components "h5p" ++ components n.
Proof.
  intros run.
  assert (Forall (λ n, startswith_sep n = false) (namelist site_entries)) as Hrel
    by (by repeat constructor).
  split; [exact Hrel|].
  apply (unpack_relative_entries_extend_destination default_settings fifo fifo_perm
           4 site_pkg site_entries "h5p" (Cloud old_store []) run.1.1 run.1.2).
  - reflexivity.
  - exact Hrel.
  - reflexivity.
  - subst run. by destruct (unpack_and_upload_on_cloud _ _ _ _ _ _) as [[??]?].
Defined.

Lemma walk_deletes_only_listed_files_witness :
  let run :=
    delete_existing_files_cloud default_settings fifo 4 "h5p" (Cloud old_store []) in
  run.1.1 = Ret tt ∧
  ∀ c, c ∈ tasks_of run.2 →
    ∃ p ds fs f, Listdir p ds fs ∈ run.2 ∧ f ∈ fs ∧ c = Delete (join p f).
Proof.
  intros run. split; [by vm_compute|].
  apply (walk_deletes_only_listed_files default_settings fifo fifo_perm
           4 "h5p" (Cloud old_store []) run.1.1 run.1.2).
  - reflexivity.
  - subst run. by destruct (delete_existing_files_cloud _ _ _ _ _) as [[??]?].
Defined.

Lemma unpack_nonpositive_workers_raises_witness :
  ∃ t,
    unpack_and_upload_on_cloud (Settings (Some 0%Z)) fifo 4 site_pkg "h5p"
      (Cloud old_store []) =
    (Raise (ValueError "max_workers must be greater than 0"), Cloud old_store [], t) ∧
    tasks_of t = [] ∧
    ∀ n, ExecutorEnter n ∉ t.
Proof.
  apply (unpack_nonpositive_workers_raises (Settings (Some 0%Z)) fifo
           3 site_pkg site_entries "h5p" (Cloud old_store [])).
  - unfold MAX_WORKERS. simpl. lia.
  - reflexivity.
Defined.

Lemma walk_leaves_keys_outside_prefix_witness :
  let run :=
    delete_existing_files_cloud default_settings fifo 4 "h5p" (Cloud old_store []) in
  objects (store run.1.2) !! ["elsewhere"; "keep"] =
  objects old_store !! ["elsewhere"; "keep"].
Proof.
  intros run.
  apply (walk_leaves_keys_outside_prefix default_settings fifo fifo_perm
           4 "h5p" (Cloud old_store []) run.1.1 run.1.2 run.2).
  - reflexivity.
  - apply wf_check. vm_compute. reflexivity.
  - intros [r Hr]. vm_compute in Hr. discriminate.
  - subst run. by destruct (delete_existing_files_cloud _ _ _ _ _) as [[??]?].
Defined.

Lemma walk_twice_second_finds_nothing_witness :
  ∃ s1 t1 t2,
    delete_existing_files_cloud default_settings fifo 5 "h5p" (Cloud old_store []) =
      (Ret tt, s1, t1) ∧
    delete_existing_files_cloud default_settings fifo 5 "h5p" s1 = (Ret tt, s1, t2) ∧
    tasks_of t2 = [].
Proof.
  apply (walk_twice_second_finds_nothing default_settings fifo fifo_perm
           4 "h5p" (Cloud old_store [])).
  - reflexivity.
  - reflexivity.
  - apply wf_check. vm_compute. reflexivity.
  - intros r Hr. eapply (depth_check old_store 4) in Hr; [|vm_compute; reflexivity].
    rewrite length_app in Hr. lia.
  - intros k _. simpl. apply not_elem_of_empty.
Defined.

Lemma unpack_stores_archive_bytes_witness :
  ∃ s' tr,
    unpack_and_upload_on_cloud default_settings fifo 5 site_pkg "h5p"
      (Cloud old_store []) = (Ret tt, s', tr) ∧
    ∀ e, e ∈ namelist site_entries → survives e = true →
         objects (store s') !! components (join "h5p" e) =
         Some (entry_bytes site_entries e).
Proof.
  apply (unpack_stores_archive_bytes default_settings fifo fifo_perm
           4 site_pkg site_entries "h5p" old_store).
  - reflexivity.
  - reflexivity.
  - apply wf_check. vm_compute. reflexivity.
  - apply depth_check. vm_compute. reflexivity.
  - intros e1 e2 H1 H2 _ _ Hc.
    apply list_elem_of_In in H1, H2. simpl in H1, H2.
    destruct H1 as [<-|[<-|[<-|[]]]], H2 as [<-|[<-|[<-|[]]]];
      try reflexivity; vm_compute in Hc; discriminate.
Defined.

Lemma unpack_local_leaves_unrelated_paths_witness :
  let run := unpack_package_local_path site_pkg ["srv"; "h5p"] local_tree in
  lookup_path run.1.2 ["srv"; "file"] = lookup_path local_tree ["srv"; "file"].
Proof.
  intros run.
  apply (unpack_local_leaves_unrelated_paths site_pkg ["srv"; "h5p"] local_tree
           run.1.1 run.1.2 run.2).
  - subst run. by destruct (unpack_package_local_path _ _ _) as [[??]?].
  - intros [r Hr]. discriminate.
  - intros [r Hr]. discriminate.
Defined.

Lemma unpack_local_on_regular_file_raises_witness :
  unpack_package_local_path site_pkg ["srv"; "file"] local_tree =
  (Raise NotADirectoryError, local_tree, []).
Proof.
  apply (unpack_local_on_regular_file_raises site_pkg ["srv"; "file"] (b "f") local_tree).
  vm_compute. reflexivity.
Defined.

Lemma delete_path_returns_path_absent_witness :
  let run := delete_path ["srv"; "h5p"] local_tree in
  run.2 = [] ∧
  (∀ r, lookup_path run.1.2 (["srv"; "h5p"] ++ r) = None) ∧
  (∀ q, ¬ q `prefix_of` ["srv"; "h5p"] → ¬ ["srv"; "h5p"] `prefix_of` q →
        lookup_path run.1.2 q = lookup_path local_tree q).
Proof.
  intros run.
  apply (delete_path_returns_path_absent ["srv"; "h5p"] local_tree run.1.2 run.2).
  vm_compute. reflexivity.
Defined.

Lemma unpack_local_files_at_sanitized_names_witness :
  let run := unpack_package_local_path site_pkg ["srv"; "h5p"] local_tree in
  run.1.1 = Ret tt ∧
  ∀ q data, lookup_path run.1.2 (["srv"; "h5p"] ++ q) = Some (File data) →
    Forall (λ c, is_component c = true ∧ c ≠ "." ∧ c ≠ "..") q ∧
    ∃ m, m ∈ site_entries ∧ arcname m = q ∧ payload m = data.
Proof.
  intros run. split; [by vm_compute|].
  apply (unpack_local_files_at_sanitized_names site_pkg site_entries ["srv"; "h5p"]
           local_tree run.1.1 run.1.2 run.2).
  - reflexivity.
  - discriminate.
  - apply no_file_on_check. vm_compute. reflexivity.
  - subst run. by destruct (unpack_package_local_path _ _ _) as [[??]?].
Defined.

Lemma unpack_local_extracts_every_file_witness :
  let run := unpack_package_local_path site_pkg ["srv"; "h5p"] local_tree in
  run.1.1 = Ret tt ∧
  ∀ m, m ∈ site_entries → is_dir m = false →
       lookup_path run.1.2 (["srv"; "h5p"] ++ arcname m) = Some (File (payload m)).
Proof.
  intros run. split; [by vm_compute|].
  apply (unpack_local_extracts_every_file site_pkg site_entries ["srv"; "h5p"]
           local_tree run.1.2 run.2).
  - reflexivity.
  - vm_compute.
    repeat (apply NoDup_cons; split); [..|apply NoDup_nil_2];
      rewrite ?not_elem_of_cons; repeat split; try discriminate;
      apply not_elem_of_nil.
  - vm_compute. reflexivity.
Defined.

Lemma get_h5p_storage_legacy_keys_witness :
  let h : gmap string (cfgval string) :=
    {[ "storage_class" := CStr EmptyString;
       "STORAGE_CLASS" := CStr "storages.backends.s3.S3Storage";
       "settings" := CDict ∅;
       "STORAGE_KWARGS" := CDict {[ "bucket_name" := "h5p" ]} ]} in
  let path := "storages.backends.s3.S3Storage" in
  let kwargs : gmap string string := {[ "bucket_name" := "h5p" ]} in
  path ≠ EmptyString ∧
  ∃ h', H5PXBLOCK_STORAGE (StorageConf None (Some (CDict h))) = Some (CDict h') ∧
    (dict_get h' "storage_class" = CStr path ∨
     truthy (dict_get h' "storage_class") = false ∧
     dict_get h' "STORAGE_CLASS" = CStr path) ∧
    (dict_get h' "settings" = CDict kwargs ∧ kwargs ≠ ∅ ∨
     truthy (dict_get h' "settings") = false ∧
     dict_get h' "STORAGE_KWARGS" = CDict kwargs ∧ kwargs ≠ ∅ ∨
     truthy (dict_get h' "settings") = false ∧
     truthy (dict_get h' "STORAGE_KWARGS") = false ∧ kwargs = ∅).
Proof.
  intros h path kwargs.
  apply (get_h5p_storage_legacy_keys (StorageConf None (Some (CDict h))) path kwargs).
  vm_compute. reflexivity.
Defined.

Lemma unpack_without_survivors_clears_destination_witness :
  let z := [ZipInfo "content/" []; ZipInfo "assets/" []] in
  ∃ s' tr,
    unpack_and_upload_on_cloud default_settings fifo 5
      (Package "dirs.h5p" (ZipArchive z)) "h5p" (Cloud old_store []) = (Ret tt, s', tr) ∧
    submitted_saves tr = [] ∧
    ∀ k, below "h5p" k → k ∉ locked old_store → objects (store s') !! k = None.
Proof.
  intros z.
  apply (unpack_without_survivors_clears_destination default_settings fifo fifo_perm
           4 (Package "dirs.h5p" (ZipArchive z)) z "h5p" old_store).
  - reflexivity.
  - reflexivity.
  - apply wf_check. vm_compute. reflexivity.
  - apply depth_check. vm_compute. reflexivity.
  - intros e He. apply list_elem_of_In in He. simpl in He.
    destruct He as [<-|[<-|[]]]; vm_compute; reflexivity.
Defined.

Lemma unpack_reports_every_task_witness :
  let run :=
    unpack_and_upload_on_cloud default_settings fifo 3 other_pkg "h5p"
      (Cloud locked_store []) in
  ran run.2 ≡ₚ submitted run.2 ∧
  filter (λ r, is_walk_record r = false) (logged run.2) =
  (if is_zipfile other_pkg then []
   else [LogRecord ERROR "%s is not a valid zip" [PStr (name other_pkg)]])
  ++ (future_result_handler <$> outcomes run.2).
Proof.
  intros run.
  apply (unpack_reports_every_task default_settings fifo fifo_perm
           3 other_pkg "h5p" (Cloud locked_store []) run.1.1 run.1.2).
  - reflexivity.
  - subst run. by destruct (unpack_and_upload_on_cloud _ _ _ _ _ _) as [[??]?].
Defined.

Lemma unpack_local_twice_leaves_second_witness :
  let p := ["srv"; "h5p"] in
  let fs1 := (unpack_package_local_path site_pkg p local_tree).1.2 in
  ∃ fs2 log2,
    unpack_package_local_path second_pkg p fs1 =
      ((extracted second_entries).1, fs2, log2) ∧
    lookup_path fs2 p = Some (extracted second_entries).2 ∧
    (∀ q data, lookup_path fs2 (p ++ q) = Some (File data) →
               ∃ m, m ∈ second_entries ∧ arcname m = q ∧ payload m = data) ∧
    (∀ q d, q ≠ [] → lookup_path fs2 (p ++ q) = Some (Dir d) →
            ∃ m, m ∈ second_entries ∧ q `prefix_of` arcname m) ∧
    ((extracted second_entries).1 = Ret tt →
     ∀ m, m ∈ second_entries →
       if is_dir m then ∃ d, lookup_path fs2 (p ++ arcname m) = Some (Dir d)
       else ∃ m', m' ∈ second_entries ∧ arcname m' = arcname m ∧
                  lookup_path fs2 (p ++ arcname m) = Some (File (payload m')) ∧
                  (NoDup (arcname <$> second_entries) → m' = m)) ∧
    (∀ m1, m1 ∈ site_entries → arcname m1 ≠ [] →
           (∀ m2, m2 ∈ second_entries → ¬ arcname m1 `prefix_of` arcname m2) →
           lookup_path fs2 (p ++ arcname m1) = None).
Proof.
  intros p fs1.
  apply (unpack_local_twice_leaves_second site_pkg site_entries second_pkg second_entries
           p local_tree fs1 (unpack_package_local_path site_pkg p local_tree).2).
  - reflexivity.
  - reflexivity.
  - vm_compute. reflexivity.
Defined.

(** The same two calls, run: the second archive's files and directory
    are there, the first archive's [assets] is not. *)
Example unpack_local_twice_run :
  let p := ["srv"; "h5p"] in
  let fs1 := (unpack_package_local_path site_pkg p local_tree).1.2 in
  let run := unpack_package_local_path second_pkg p fs1 in
  run.1.1 = Ret tt ∧
  lookup_path run.1.2 p =
    Some (Dir {[ "index.html" := File (b "<p/>");
                 "css" := Dir {[ "a.css" := File (b "a{}") ]} ]}) ∧
  lookup_path run.1.2 (p ++ ["assets"]) = None.
Proof. vm_compute. done. Qed.

(** C3, as stated, fails. [broken_pkg] is no zip container —
    [ZipFile] raises [BadZipFile] for it — but [is_zipfile] accepts
    it. The run asks the store whether ["h5p"] exists, lists it and
    deletes what is below it, logs no error, and ends in
    [BadZipFile]. *)
Lemma unpack_broken_zip_clears_the_store :
  let run :=
    unpack_and_upload_on_cloud default_settings fifo 4 broken_pkg "h5p"
      (Cloud old_store []) in
  (@ZipFile unit unit broken_pkg tt).1.1 = Raise BadZipFile ∧
  run.1.1 = Raise BadZipFile ∧
  Exists "h5p" true ∈ run.2 ∧
  Ran (Delete "h5p/old.json") (Completed PNone) ∈ run.2 ∧
  objects (store run.1.2) !! ["h5p"; "old.json"] = None ∧
  Forall (λ r, lvl r = INFO) (logged run.2) ∧
  ¬ (Forall (λ e, is_store_call e = false) run.2 ∧
     ∃ r, Logged r ∈ run.2 ∧ lvl r = ERROR ∧ PStr (name broken_pkg) ∈ args r).
Proof.
  split_and!.
  - reflexivity.
  - by vm_compute.
  - vm_compute. left.
  - vm_compute. do 5 right. left.
  - by vm_compute.
  - vm_compute. by repeat constructor.
  - intros [H _]. vm_compute in H. apply Forall_cons in H as [H _]. discriminate.
Qed.

(** C6, as stated, fails. For [broken_pkg], which is no zip container
    but which [is_zipfile] accepts, the call empties the destination
    and then raises [BadZipFile]: it logs nothing and does not
    return. *)
Lemma unpack_local_broken_zip_raises :
  let run := unpack_package_local_path broken_pkg ["srv"; "h5p"] local_tree in
  (@ZipFile unit unit broken_pkg tt).1.1 = Raise BadZipFile ∧
  run.1.1 = Raise BadZipFile ∧
  run.2 = [] ∧
  lookup_path run.1.2 ["srv"; "h5p"] = Some (Dir ∅) ∧
  ¬ (run.1.1 = Ret tt ∧ ∃ r, r ∈ run.2 ∧ lvl r = ERROR).
Proof.
  split_and!.
  - reflexivity.
  - by vm_compute.
  - by vm_compute.
  - by vm_compute.
  - intros [H _]. vm_compute in H. discriminate.
Qed.

End MoreSamples.
